(** * prefetch-predict: the PredictivePrefetcher class of src/index.js

    A shallow embedding of the class and of the part of the JavaScript
    host it relies on, followed by the properties of the prediction,
    scoring and prefetch pipeline.

    Modelling conventions.
    - A JavaScript number is an IEEE 754 binary64 value: Rocq's primitive
      [float], whose operations are specified bit for bit by [SpecFloat].
    - A transition count is a number that only ever holds an integer
      between 1 and 2^53; binary64 represents these exactly and 2^53 + 1
      rounds back to 2^53, so a count is kept as its integer value with
      that saturation written out ([incr]); it is converted to a float
      where the code does arithmetic with it ([num]).
    - A [Map] iterates in insertion order and [set] on a present key keeps
      its position: an association list with unique keys.
    - The instance fields and the host (clock, network, console, Math.exp)
      are threaded through a state monad [M]. *)

From Stdlib Require Import ZArith QArith List String Ascii Bool Lia Floats.
From Stdlib Require Uint63.
From Stdlib Require Import Permutation Sorted.
Import ListNotations.

#[local] Set Warnings "-inexact-float".
Local Open Scope Z_scope.

(** ** JavaScript numbers *)

Module Number.

Definition number := float.

(** ToBoolean on a number: [+0], [-0] and [NaN] are falsy. *)
Definition truthy (x : number) : bool := negb (PrimFloat.is_zero x || PrimFloat.is_nan x).

(** [x || d] for a number [x]. *)
Definition or_else (x d : number) : number := if truthy x then x else d.

(** [x || d] where [x] may be [undefined]. *)
Definition opt_or (x : option number) (d : number) : number :=
  match x with
  | Some v => or_else v d
  | None => d
  end.

(** A destructuring default [{ x = d }] applies to [undefined] only. *)
Definition opt_default (x : option number) (d : number) : number :=
  match x with
  | Some v => v
  | None => d
  end.

(** The float holding a count (an integer in [0, 2^53]). *)
Definition num (c : Z) : number := of_uint63 (Uint63.of_Z c).

Definition two53 : Z := 9007199254740992.

(** [c + 1] on a count: exact below 2^53, absorbed at 2^53. *)
Definition incr (c : Z) : Z := if c <? two53 then c + 1 else c.

(** [c || 0] on a count. *)
Definition count_or_zero (c : option Z) : Z :=
  match c with
  | Some v => if v =? 0 then 0 else v
  | None => 0
  end.

(** The result of ToIntegerOrInfinity. *)
Inductive integer_or_infinity :=
| Int (z : Z)
| PosInf
| NegInf.

(** ToIntegerOrInfinity: NaN and the zeros give 0, the infinities are
    kept, a finite value is truncated toward zero. *)
Definition ToIntegerOrInfinity (x : number) : integer_or_infinity :=
  match Prim2SF x with
  | S754_nan => Int 0
  | S754_zero _ => Int 0
  | S754_infinity s => if s then NegInf else PosInf
  | S754_finite s m e =>
      let a := match e with
               | Zneg k => Z.shiftr (Zpos m) (Zpos k)
               | _ => Z.shiftl (Zpos m) e
               end in
      Int (if s then - a else a)
  end.

End Number.
Import Number.

(** ** Strings *)

(** [s.includes(sub)]: [sub] occurs in [s] as a substring. *)
Fixpoint includes (s sub : string) : bool :=
  if String.prefix sub s then true
  else match s with
       | EmptyString => false
       | String _ s' => includes s' sub
       end.

(** ** Map *)

Module JSMap.

Definition t (V : Type) := list (string * V).

Definition empty {V} : t V := [].

Fixpoint get {V} (m : t V) (k : string) : option V :=
  match m with
  | [] => None
  | (k', v) :: m' => if String.eqb k' k then Some v else get m' k
  end.

Definition has {V} (m : t V) (k : string) : bool :=
  match get m k with
  | Some _ => true
  | None => false
  end.

(** [set] replaces the value of a present key where it stands and
    appends an absent key. *)
Fixpoint set {V} (m : t V) (k : string) (v : V) : t V :=
  match m with
  | [] => [(k, v)]
  | (k', v') :: m' =>
      if String.eqb k' k then (k', v) :: m' else (k', v') :: set m' k v
  end.

Definition values {V} (m : t V) : list V := map snd m.

Definition keys {V} (m : t V) : list string := map fst m.

End JSMap.

(** ** Array *)

Module Arr.

(** [l.slice(0, end)]. *)
Definition slice0 {A} (l : list A) (e : number) : list A :=
  let len := Z.of_nat (List.length l) in
  let final :=
    match ToIntegerOrInfinity e with
    | NegInf => 0
    | PosInf => len
    | Int r => if r <? 0 then Z.max (len + r) 0 else Z.min r len
    end in
  firstn (Z.to_nat final) l.

(** [x] is placed behind [y] exactly when the comparator is positive
    on [(x, y)]. *)
Fixpoint insert {A} (cmp : A -> A -> number) (x : A) (l : list A) : list A :=
  match l with
  | [] => [x]
  | y :: l' => if (0 <? cmp x y)%float then y :: insert cmp x l' else x :: l
  end.

(** [l.sort(cmp)]. The sort is stable (ECMAScript 2019), so for a
    consistent comparator the result is the one of a stable insertion
    sort. *)
Definition sort {A} (cmp : A -> A -> number) (l : list A) : list A :=
  fold_right (insert cmp) [] l.

End Arr.

(** ** The instance and the host *)

Record Resource := {
  size : number;
  latency : number;
  lastUsed : number
}.

Record PredictivePrefetcher := {
  maxPrefetch : number;
  decayRate : number;
  transitions : JSMap.t (JSMap.t Z);
  resources : JSMap.t Resource;
  currentState : option string     (* [None] is [null] *)
}.

(** The host: [Math.exp], the value [Date.now()] returns, the [fetch]
    calls issued so far and the console lines written so far (oldest
    first). *)
Record Host := {
  Math_exp : number -> number;
  clock : number;
  fetched : list string;
  console : list string
}.

Record Heap := {
  this : PredictivePrefetcher;
  host : Host
}.

Record Prediction := {
  state : string;
  probability : number
}.

Record Scored := {
  url : string;
  score : number
}.

Record Options := {
  opt_maxPrefetch : option number;
  opt_decayRate : option number
}.

Record Metadata := {
  meta_size : option number;
  meta_latency : option number
}.

(** ** The monad of method bodies *)

Definition M (A : Type) : Type := Heap -> A * Heap.

Definition ret {A} (a : A) : M A := fun h => (a, h).

Definition bind {A B} (m : M A) (f : A -> M B) : M B :=
  fun h => let (a, h') := m h in f a h'.

Declare Scope js_scope.
Delimit Scope js_scope with js.
Notation "x <- m ;; k" := (bind m (fun x => k))
  (at level 61, m at next level, right associativity) : js_scope.
Notation "m ;;; k" := (bind m (fun _ => k))
  (at level 61, right associativity) : js_scope.
Local Open Scope js_scope.

Definition exec {A} (m : M A) (h : Heap) : Heap := snd (m h).
Definition eval {A} (m : M A) (h : Heap) : A := fst (m h).

Definition read {A} (f : PredictivePrefetcher -> A) : M A :=
  fun h => (f (this h), h).

Definition write_transitions (t : JSMap.t (JSMap.t Z)) : M unit :=
  fun h => (tt, {| this := {| maxPrefetch := maxPrefetch (this h);
                              decayRate := decayRate (this h);
                              transitions := t;
                              resources := resources (this h);
                              currentState := currentState (this h) |};
                   host := host h |}).

Definition write_resources (r : JSMap.t Resource) : M unit :=
  fun h => (tt, {| this := {| maxPrefetch := maxPrefetch (this h);
                              decayRate := decayRate (this h);
                              transitions := transitions (this h);
                              resources := r;
                              currentState := currentState (this h) |};
                   host := host h |}).

Definition write_currentState (s : option string) : M unit :=
  fun h => (tt, {| this := {| maxPrefetch := maxPrefetch (this h);
                              decayRate := decayRate (this h);
                              transitions := transitions (this h);
                              resources := resources (this h);
                              currentState := s |};
                   host := host h |}).

Definition Date_now : M number := fun h => (clock (host h), h).

Definition call_Math_exp (x : number) : M number :=
  fun h => (Math_exp (host h) x, h).

(** [console.log] and [console.warn]: one more line on the console. *)
Definition console_log (line : string) : M unit :=
  fun h => (tt, {| this := this h;
                   host := {| Math_exp := Math_exp (host h);
                              clock := clock (host h);
                              fetched := fetched (host h);
                              console := console (host h) ++ [line] |} |}).

(** [fetch(u, { mode: 'no-cors' })]: the request is issued. *)
Definition fetch (u : string) : M unit :=
  fun h => (tt, {| this := this h;
                   host := {| Math_exp := Math_exp (host h);
                              clock := clock (host h);
                              fetched := fetched (host h) ++ [u];
                              console := console (host h) |} |}).

(** Time passes: the clock shows [t] when the next callback runs. *)
Definition advance_clock (t : number) : M unit :=
  fun h => (tt, {| this := this h;
                   host := {| Math_exp := Math_exp (host h);
                              clock := t;
                              fetched := fetched (host h);
                              console := console (host h) |} |}).

Fixpoint forEach {A} (f : A -> M unit) (l : list A) : M unit :=
  match l with
  | [] => ret tt
  | a :: l' => f a ;;; forEach f l'
  end.

(** ** The class PredictivePrefetcher *)

Definition no_options : Options :=
  {| opt_maxPrefetch := None; opt_decayRate := None |}.

Definition no_metadata : Metadata :=
  {| meta_size := None; meta_latency := None |}.

(** [constructor(options = {})]. *)
Definition new (options : option Options) : PredictivePrefetcher :=
  let options := match options with Some o => o | None => no_options end in
  {| maxPrefetch := opt_or (opt_maxPrefetch options) 3%float;
     decayRate := opt_or (opt_decayRate options) 0.1%float;
     transitions := JSMap.empty;
     resources := JSMap.empty;
     currentState := None |}.

(** ToBoolean on [currentState]: [null] and the empty string are falsy. *)
Definition truthy_state (s : option string) : bool :=
  match s with
  | None => false
  | Some EmptyString => false
  | Some _ => true
  end.

(** [track(eventType, state)]. *)
Definition track (eventType state : string) : M unit :=
  cur <- read currentState ;;
  match cur with
  | Some c =>
      if truthy_state cur && negb (c =? state)%string then
        ts <- read transitions ;;
        let nextMap := match JSMap.get ts c with
                       | Some m => m
                       | None => JSMap.empty
                       end in
        let count := count_or_zero (JSMap.get nextMap state) in
        let nextMap := JSMap.set nextMap state (incr count) in
        write_transitions (JSMap.set ts c nextMap)
      else ret tt
  | None => ret tt
  end ;;;
  write_currentState (Some state).

(** [addResource(url, { size = 100, latency = 100 } = {})]. *)
Definition addResource (u : string) (metadata : option Metadata) : M unit :=
  let metadata := match metadata with Some m => m | None => no_metadata end in
  let size := opt_default (meta_size metadata) 100%float in
  let latency := opt_default (meta_latency metadata) 100%float in
  now <- Date_now ;;
  rs <- read resources ;;
  write_resources
    (JSMap.set rs u {| size := size; latency := latency; lastUsed := now |}).

(** The comparators handed to [sort]. *)
Definition by_probability (a b : Prediction) : number :=
  (probability b - probability a)%float.

Definition by_score (a b : Scored) : number :=
  (score b - score a)%float.

(** [Array.from(nextMap.values()).reduce((sum, count) => sum + count, 0)]. *)
Definition totalTransitions (nextMap : JSMap.t Z) : number :=
  fold_left (fun sum count => (sum + num count)%float)
            (JSMap.values nextMap) 0%float.

(** [predictNext()]. The guard [transitions.has(currentState)] and the
    [get] that follows it are one lookup here. *)
Definition predictNext : M (list Prediction) :=
  cur <- read currentState ;;
  ts <- read transitions ;;
  match cur with
  | Some c =>
      if negb (truthy_state cur) then ret []
      else match JSMap.get ts c with
           | None => ret []
           | Some nextMap =>
               let total := totalTransitions nextMap in
               let predictions :=
                 map (fun '(nextState, count) =>
                        {| state := nextState;
                           probability := (num count / total)%float |})
                     nextMap in
               ret (Arr.sort by_probability predictions)
           end
  | None => ret []
  end.

(** The body of the inner loop of [scoreResources] for one matching
    resource. *)
Definition score_of (exp : number -> number) (rate now : number)
    (p : number) (r : Resource) : number :=
  let timeElapsed := ((now - lastUsed r) / 1000)%float in
  let decay := exp (- rate * timeElapsed)%float in
  let cost := (size r * latency r)%float in
  ((p * decay) / or_else cost 1)%float.

(** [scoreResources(predictions)]. *)
Definition scoreResources (predictions : list Prediction) : M (list Scored) :=
  now <- Date_now ;;
  rate <- read decayRate ;;
  rs <- read resources ;;
  exp <- (fun h => (Math_exp (host h), h)) ;;
  let scores :=
    flat_map (fun p =>
      flat_map (fun '(u, r) =>
        if includes u (state p)
        then [ {| url := u; score := score_of exp rate now (probability p) r |} ]
        else [])
        rs)
      predictions in
  ret (Arr.sort by_score scores).

(** *** Promises and the settlement of fetches *)

Inductive promise := Pending | Fulfilled | Rejected.

(** [p.then(cb)] and [p.catch(cb)] once [p] has settled, for a callback
    that returns normally. *)
Definition then_ (p : promise) (cb : M unit) : M promise :=
  match p with
  | Fulfilled => cb ;;; ret Fulfilled
  | other => ret other
  end.

Definition catch_ (p : promise) (cb : M unit) : M promise :=
  match p with
  | Rejected => cb ;;; ret Fulfilled
  | other => ret other
  end.

Definition Promise_all (ps : list promise) : promise :=
  if existsb (fun p => match p with Rejected => true | _ => false end) ps
  then Rejected
  else if forallb (fun p => match p with Fulfilled => true | _ => false end) ps
       then Fulfilled
       else Pending.

(** What the network reports for the fetch dispatched at position
    [which] of the batch, and the time on the clock when its callback
    runs. *)
Record settlement := {
  which : nat;
  ok : bool;
  at_time : number
}.

Fixpoint update_nth {A} (n : nat) (a : A) (l : list A) : list A :=
  match l, n with
  | [], _ => []
  | _ :: l', O => a :: l'
  | b :: l', S n' => b :: update_nth n' a l'
  end.

(** The [then] callback of [prefetch]. *)
Definition on_fulfilled (u : string) : M unit :=
  rs <- read resources ;;
  match JSMap.get rs u with
  | Some resource =>
      now <- Date_now ;;
      write_resources
        (JSMap.set rs u {| size := size resource;
                           latency := latency resource;
                           lastUsed := now |})
  | None => ret tt
  end ;;;
  console_log ("Prefetched: " ++ u).

(** The [catch] callback of [prefetch]. *)
Definition on_rejected (u : string) : M unit :=
  console_log ("Prefetch failed: " ++ u).

(** The chain [fetch(u).then(...).catch(...)] once the fetch settled. *)
Definition chain (u : string) (ok : bool) : M promise :=
  p1 <- then_ (if ok then Fulfilled else Rejected) (on_fulfilled u) ;;
  catch_ p1 (on_rejected u).

(** One settlement reaches the chain of its candidate; a promise settles
    once. *)
Definition deliver (toFetch : list Scored) (ps : list promise)
    (s : settlement) : M (list promise) :=
  match nth_error toFetch (which s), nth_error ps (which s) with
  | Some c, Some Pending =>
      advance_clock (at_time s) ;;;
      p <- chain (url c) (ok s) ;;
      ret (update_nth (which s) p ps)
  | _, _ => ret ps
  end.

Fixpoint settle (toFetch : list Scored) (ps : list promise)
    (sched : list settlement) : M (list promise) :=
  match sched with
  | [] => ret ps
  | s :: sched' => ps' <- deliver toFetch ps s ;; settle toFetch ps' sched'
  end.

(** [prefetch(urls)]: every fetch of the batch is dispatched, then the
    host delivers the settlements [sched] in that order while the
    function awaits [Promise.all]. The result is the state of the promise
    [prefetch] returned. *)
Definition prefetch (urls : list Scored) (sched : list settlement) : M promise :=
  mp <- read maxPrefetch ;;
  let toFetch := Arr.slice0 urls mp in
  forEach (fun c => fetch (url c)) toFetch ;;;
  promises <- settle toFetch (repeat Pending (List.length toFetch)) sched ;;
  ret (Promise_all promises).

(** [optimize()]. *)
Definition optimize (sched : list settlement) : M promise :=
  predictions <- predictNext ;;
  if (List.length predictions =? 0)%nat then
    console_log "No predictions yet—need more tracking data." ;;;
    ret Fulfilled
  else
    scoredResources <- scoreResources predictions ;;
    if (List.length scoredResources =? 0)%nat then
      console_log "No matching resources to prefetch." ;;;
      ret Fulfilled
    else prefetch scoredResources sched.

(** ** Reachable states *)

Inductive step : Heap -> Heap -> Prop :=
| step_track eventType s h :
    step h (exec (track eventType s) h)
| step_addResource u metadata h :
    step h (exec (addResource u metadata) h)
| step_optimize sched h :
    step h (exec (optimize sched) h)
| step_clock t h :
    step h (exec (advance_clock t) h).

Inductive reachable : Heap -> Prop :=
| reachable_new options hst :
    reachable {| this := new options; host := hst |}
| reachable_step h h' :
    reachable h -> step h h' -> reachable h'.


(** ** A reference host

    [Math.exp] is implementation-approximated; ECMAScript fixes it at
    NaN, the zeros and the infinities only. This one reduces the
    argument by 2^10, sums the series to degree 12 and squares back; on
    negative arguments the result is kept inside [0, 1] and on positive
    ones above 1. *)

Module Reference.

Local Open Scope float_scope.

Definition exp_series (r : number) : number :=
  1 + r * (1 + r / 2 * (1 + r / 3 * (1 + r / 4 * (1 + r / 5 * (1 + r / 6 *
    (1 + r / 7 * (1 + r / 8 * (1 + r / 9 * (1 + r / 10 * (1 + r / 11 *
      (1 + r / 12))))))))))).

Fixpoint square_times (n : nat) (x : number) : number :=
  match n with
  | O => x
  | S n' => let y := square_times n' x in y * y
  end.

Definition exp (x : number) : number :=
  if PrimFloat.is_nan x then nan
  else if x =? 0 then 1
  else if x =? infinity then infinity
  else if x <? -746 then 0
  else if 710 <? x then infinity
  else
    let y := square_times 10 (exp_series (x / 1024)) in
    if x <? 0 then (if y <=? 1 then (if 0 <=? y then y else 0) else 1)
    else (if 1 <=? y then y else 1).

(** A host whose clock shows [t]. *)
Definition host_at (t : number) : Host :=
  {| Math_exp := exp; clock := t; fetched := []; console := [] |}.

(** A fresh instance on that host. *)
Definition fresh (options : option Options) (t : number) : Heap :=
  {| this := new options; host := host_at t |}.

Local Open Scope js_scope.

(** The session of the README: /home -> /products three times and
    /home -> /about once, ending on /home, then one resource
    registered. *)
Definition readme_session : Heap :=
  exec (track "pageview" "/home" ;;;
        track "pageview" "/products" ;;;
        track "pageview" "/home" ;;;
        track "pageview" "/products" ;;;
        track "pageview" "/home" ;;;
        track "pageview" "/products" ;;;
        track "pageview" "/home" ;;;
        track "pageview" "/about" ;;;
        track "pageview" "/home" ;;;
        addResource "/api/products"
          (Some {| meta_size := Some 500; meta_latency := Some 200 |}))
       (fresh None 1700000000000).

End Reference.

(** Concrete inputs used to exercise the statements below. *)
Module Sample.

Import Reference.
Local Open Scope float_scope.

(** [new PredictivePrefetcher({ maxPrefetch: 0 })]. *)
Definition zero_prefetch : Heap :=
  fresh (Some {| opt_maxPrefetch := Some 0; opt_decayRate := None |})
        1700000000000.

Definition four_candidates : list Scored :=
  [ {| url := "/a"; score := 4 |}; {| url := "/b"; score := 3 |};
    {| url := "/c"; score := 2 |}; {| url := "/d"; score := 1 |} ].

(** /home then /products on a fresh instance, nothing registered. *)
Definition two_pages : Heap :=
  exec (track "pageview" "/products")
       (exec (track "pageview" "/home") (fresh None 1700000000000)).

(** The empty string tracked first. *)
Definition empty_first : Heap :=
  exec (track "pageview" "") (fresh None 1700000000000).

(** /home -> /products observed once, back on /home, and one resource
    whose size times latency is a subnormal number. *)
Definition tiny_cost : Heap :=
  exec (addResource "/api/products"
          (Some {| meta_size := Some 1e-310; meta_latency := Some 1 |}))
       (exec (track "pageview" "/home")
          (exec (track "pageview" "/products")
             (exec (track "pageview" "/home") (fresh None 1700000000000)))).

(** [new PredictivePrefetcher({ decayRate: Infinity })] with the same
    navigation and a resource of the default size and latency. *)
Definition infinite_decay : Heap :=
  exec (addResource "/api/products" None)
       (exec (track "pageview" "/home")
          (exec (track "pageview" "/products")
             (exec (track "pageview" "/home")
                (fresh (Some {| opt_maxPrefetch := None;
                                opt_decayRate := Some infinity |})
                       1700000000000)))).

(** The README session ten seconds after the resource was registered. *)
Definition ten_seconds_later : Heap :=
  exec (advance_clock 1700000010000) readme_session.

End Sample.

(** A batch whose first fetch fails and whose second succeeds. *)
Module Batch.

Import Reference.
Local Open Scope float_scope.
Local Open Scope js_scope.

Definition registry : Heap :=
  exec (addResource "/api/a" None ;;; addResource "/api/b" None)
       (fresh None 1700000000000).

Definition candidates : list Scored :=
  [ {| url := "/api/a"; score := 2 |}; {| url := "/api/b"; score := 1 |} ].

(** /api/b answers first; /api/a fails later. *)
Definition schedule : list settlement :=
  [ {| which := 1; ok := true; at_time := 1700000000040 |};
    {| which := 0; ok := false; at_time := 1700000000090 |} ].

End Batch.

(** ** Vocabulary for binary64 values *)

Abbreviation fexp64 := (fexp prec emax).

(** The result of [binary_round_aux] on a non-negative mantissa: the
    mantissa is cut to the format, moved by at most one unit, and cut
    again. *)
Definition rounded (s : bool) (m2 e2 : Z) : spec_float :=
  match m2 with
  | Z0 => S754_zero s
  | Zpos p => if e2 <=? emax - prec then S754_finite s p e2 else S754_infinity s
  | Zneg _ => S754_nan
  end.

(** Neither NaN nor negative: [+0], [-0], a positive finite value or
    [+Infinity]. *)
Definition nonneg (x : spec_float) : Prop :=
  match x with
  | S754_zero _ => True
  | S754_finite s _ _ => s = false
  | S754_infinity s => s = false
  | S754_nan => False
  end.

(** Not NaN and not positive. *)
Definition nonpos (x : spec_float) : Prop :=
  match x with
  | S754_zero _ => True
  | S754_finite s _ _ => s = true
  | S754_infinity s => s = true
  | S754_nan => False
  end.

(** Zero, or finite of magnitude below [2^k]. *)
Definition below (k : Z) (x : spec_float) : Prop :=
  match x with
  | S754_zero _ => True
  | S754_finite _ m e => Zpos (digits2_pos m) + e <= k
  | _ => False
  end.

(** Finite and not zero, of magnitude at least [2^(k-1)]. *)
Definition atleast (k : Z) (x : spec_float) : Prop :=
  match x with
  | S754_finite _ m e => k <= Zpos (digits2_pos m) + e
  | _ => False
  end.

(** Not NaN, with sign bit [s]. *)
Definition signed (s : bool) (x : spec_float) : Prop :=
  match x with
  | S754_nan => False
  | S754_zero s' | S754_infinity s' | S754_finite s' _ _ => s' = s
  end.

Definition key (x : spec_float) : Z :=
  match x with
  | S754_zero _ => 0
  | S754_finite _ m e => Zpos m * 2 ^ (e + 1074)
  | S754_infinity _ => 2 ^ 2098
  | S754_nan => 0
  end.

Definition finite_or_zero (x : spec_float) : Prop :=
  match x with
  | S754_zero _ | S754_finite _ _ _ => True
  | _ => False
  end.

(** Strictly positive: a positive finite value or [+Infinity]. *)
Definition positive_value (x : spec_float) : Prop :=
  match x with
  | S754_finite s _ _ | S754_infinity s => s = false
  | _ => False
  end.

Definition fkey (x : float) : Z := key (Prim2SF x).

(** [0 <= x] in the sense of JavaScript: not NaN and not negative. *)
Definition fnonneg (x : float) : Prop := nonneg (Prim2SF x).

(** [x] is the positive finite float whose value is the integer [a]. *)
Definition is_integer (x : spec_float) (a : Z) : Prop :=
  (exists m e, x = S754_finite false m e) /\ key x = a * 2 ^ 1074.

Definition Zsum (l : list Z) : Z := fold_right Z.add 0 l.

(** The sum of the counts of a row. *)
Definition row_total (nextMap : JSMap.t Z) : Z := Zsum (JSMap.values nextMap).

(** The value of [x], for [x >= 0] finite. *)
Definition value (x : number) : Q := fkey x # (2 ^ 1074)%positive.

Definition Qsum (l : list Q) : Q := fold_right Qplus 0%Q l.

(** ** Vocabulary of the statements *)

(** The registry after the [then] callback ran for [u] at time [t]. *)
Definition touch (rs : JSMap.t Resource) (u : string) (t : number) : JSMap.t Resource :=
  match JSMap.get rs u with
  | Some resource =>
      JSMap.set rs u {| size := size resource;
                        latency := latency resource;
                        lastUsed := t |}
  | None => rs
  end.

(** What [deliver] and [settle] leave alone: every field of the instance
    but the values of [resources], and the list of dispatched fetches. *)
Definition same_but_resources (h h' : Heap) : Prop :=
  maxPrefetch (this h') = maxPrefetch (this h) /\
  decayRate (this h') = decayRate (this h) /\
  transitions (this h') = transitions (this h) /\
  currentState (this h') = currentState (this h) /\
  fetched (host h') = fetched (host h) /\
  Math_exp (host h') = Math_exp (host h) /\
  JSMap.keys (resources (this h')) = JSMap.keys (resources (this h)).

(** The shape of a transition table built by [track]: keys are unique at
    both levels, no row is empty, every count is an integer between 1 and
    2^53. *)
Definition row_ok (m : JSMap.t Z) : Prop :=
  NoDup (JSMap.keys m) /\ m <> [] /\ Forall (fun kc => 1 <= snd kc <= two53) m.

Definition table_ok (ts : JSMap.t (JSMap.t Z)) : Prop :=
  NoDup (JSMap.keys ts) /\ Forall (fun km => row_ok (snd km)) ts.

(** A registry entry with its recency refreshed. *)
Definition refreshed (r : Resource) (t : number) : Resource :=
  {| size := size r; latency := latency r; lastUsed := t |}.

(** [s] reports a successful fetch of [u] in the batch [toFetch]. *)
Definition succeeds_for (toFetch : list Scored) (u : string) (s : settlement) : Prop :=
  ok s = true /\ exists c, nth_error toFetch (which s) = Some c /\ url c = u.

(** The inputs [scoreResources] is specified on. *)

Section ScoringVocabulary.

Local Open Scope float_scope.

Definition unit_interval (x : number) : Prop :=
  (0 <=? x) = true /\ (x <=? 1) = true.

Definition exp_decays (exp : number -> number) : Prop :=
  forall x, (x <=? 0) = true -> unit_interval (exp x).

Definition max_time : number := 8.64e15.

Definition resource_ok (now : number) (r : Resource) : Prop :=
  (0 <=? size r) = true /\ (0 <=? latency r) = true /\
  (0 <=? lastUsed r) = true /\ (lastUsed r <=? now) = true.

Definition cost_floored_or_normal (r : Resource) : Prop :=
  truthy (size r * latency r) = false \/
  (0x1p-1020 <=? size r * latency r) = true.

End ScoringVocabulary.
(** ** Vocabulary of the further properties *)

(** The count stored for the edge from [a] to [b]; 0 when there is no
    such edge. *)
Definition count_of (ts : JSMap.t (JSMap.t Z)) (a b : string) : Z :=
  match JSMap.get ts a with
  | Some row => count_or_zero (JSMap.get row b)
  | None => 0
  end.

(** How many times [b] comes directly after [a] in the history [l]. *)
Fixpoint follows (a b : string) (l : list string) : Z :=
  match l with
  | [] => 0
  | x :: l' =>
      match l' with
      | [] => 0
      | y :: _ =>
          (if (x =? a)%string && (y =? b)%string then 1 else 0) + follows a b l'
      end
  end.

(** The history seen from a state whose current state is [cur]. *)
Definition history_from (cur : option string) (l : list string) : list string :=
  match cur with
  | Some c => c :: l
  | None => l
  end.

(** A caller that reports a whole history, one [track] per event. *)
Definition track_all (events : list (string * string)) : M unit :=
  forEach (fun '(eventType, s) => track eventType s) events.

(** No edge leaves the empty string and none is a self-loop. *)
Definition no_loops (ts : JSMap.t (JSMap.t Z)) : Prop :=
  Forall (fun km => fst km <> ""%string /\ ~ In (fst km) (JSMap.keys (snd km))) ts.

(** [sub] occurs in [s]. *)
Definition substring_of (sub s : string) : Prop :=
  exists before after, s = (before ++ sub ++ after)%string.

(** Further inputs used to exercise the statements. *)
Module Scenario.

Import Reference.
Local Open Scope float_scope.
Local Open Scope js_scope.

(** /home -> /b and /home -> /a observed once each, in that order; back
    on /home. *)
Definition two_ties : Heap :=
  exec (track "pageview" "/home" ;;;
        track "pageview" "/b" ;;;
        track "pageview" "/home" ;;;
        track "pageview" "/a" ;;;
        track "pageview" "/home")
       (fresh None 1700000000000).

(** The README session with a second resource registered 5 seconds
    after the first, seen 10 seconds after the first. *)
Definition two_resources : Heap :=
  exec (advance_clock 1700000005000 ;;;
        addResource "/images/products/hero.jpg"
          (Some {| meta_size := Some 1000; meta_latency := Some 300 |}) ;;;
        advance_clock 1700000010000)
       readme_session.

End Scenario.

(** ** Binary64 arithmetic, from its specification *)

Lemma digits2_pos_size p : digits2_pos p = Pos.size p.
Proof. induction p; simpl; congruence. Qed.

Lemma digits2_pos_bounds p :
  2 ^ (Zpos (digits2_pos p) - 1) <= Zpos p < 2 ^ Zpos (digits2_pos p).
Proof.
  rewrite digits2_pos_size. split.
  - pose proof (Pos.size_le p) as H.
    assert (H' : 2 ^ Zpos (Pos.size p) <= 2 * Zpos p).
    { rewrite <- Pos2Z.inj_pow. change (2 * Zpos p) with (Zpos p~0). exact H. }
    replace (Zpos (Pos.size p)) with (Z.succ (Zpos (Pos.size p) - 1)) in H' by lia.
    rewrite Z.pow_succ_r in H' by lia. lia.
  - pose proof (Pos.size_gt p) as H.
    rewrite <- Pos2Z.inj_pow. exact H.
Qed.

Lemma Zdigits2_nonneg m : 0 <= Zdigits2 m.
Proof. destruct m; simpl; lia. Qed.

Lemma Zdigits2_bounds m :
  0 < m -> 2 ^ (Zdigits2 m - 1) <= m < 2 ^ Zdigits2 m.
Proof. destruct m; try lia. intros _. apply digits2_pos_bounds. Qed.

(** [m < 2^k] bounds the number of digits by [k], and [2^k <= m] gives
    more than [k] digits. *)
Lemma Zdigits2_le m k : 0 <= m -> 0 <= k -> m < 2 ^ k -> Zdigits2 m <= k.
Proof.
  intros Hm Hk Hlt. destruct (Z.eq_dec m 0) as [->|Hne]; [simpl; lia|].
  destruct (Zdigits2_bounds m ltac:(lia)) as [Hlo _].
  destruct (Z.le_gt_cases (Zdigits2 m) k) as [|Hgt]; [assumption|exfalso].
  assert (2 ^ k <= 2 ^ (Zdigits2 m - 1)) by (apply Z.pow_le_mono_r; lia).
  lia.
Qed.

Lemma Zdigits2_gt m k : 0 <= k -> 2 ^ k <= m -> k < Zdigits2 m.
Proof.
  intros Hk Hle.
  assert (0 < m) by (pose proof (Z.pow_pos_nonneg 2 k); lia).
  destruct (Zdigits2_bounds m ltac:(lia)) as [_ Hhi].
  destruct (Z.lt_ge_cases k (Zdigits2 m)) as [|Hge]; [assumption|exfalso].
  assert (2 ^ Zdigits2 m <= 2 ^ k) by (apply Z.pow_le_mono_r; lia).
  lia.
Qed.

Lemma Zdigits2_mono m m' : 0 <= m <= m' -> Zdigits2 m <= Zdigits2 m'.
Proof.
  intros [H0 Hle]. destruct (Z.eq_dec m' 0) as [->|Hne].
  - replace m with 0 by lia. lia.
  - apply Zdigits2_le; [lia|apply Zdigits2_nonneg|].
    destruct (Zdigits2_bounds m' ltac:(lia)). lia.
Qed.

(** *** Shifting right *)

Lemma shr_1_m mrs : 0 <= shr_m mrs -> shr_m (shr_1 mrs) = shr_m mrs / 2.
Proof.
  destruct mrs as [m r s]; simpl. intros Hm.
  destruct m as [|[p|p|]|p]; simpl; try lia; try reflexivity.
  - rewrite Pos2Z.inj_xI. apply Z.div_unique with 1; lia.
  - rewrite Pos2Z.inj_xO. apply Z.div_unique with 0; lia.
Qed.

Lemma iter_shr_1_m p : forall mrs,
  0 <= shr_m mrs -> shr_m (iter_pos shr_1 p mrs) = shr_m mrs / 2 ^ Zpos p.
Proof.
  assert (Hnn : forall mrs, 0 <= shr_m mrs -> 0 <= shr_m (shr_1 mrs)).
  { intros mrs H. rewrite shr_1_m by assumption. apply Z.div_pos; lia. }
  induction p as [p IH|p IH|]; intros mrs Hm; cbn [iter_pos].
  - assert (H1 := Hnn _ Hm).
    assert (H2 : 0 <= shr_m (iter_pos shr_1 p (shr_1 mrs))).
    { rewrite IH by assumption. apply Z.div_pos; [assumption|apply Z.pow_pos_nonneg; lia]. }
    rewrite IH, IH, shr_1_m by assumption.
    rewrite !Z.div_div by (try apply Z.pow_pos_nonneg; lia).
    f_equal. rewrite (Pos2Z.inj_xI p).
    replace (2 * Zpos p + 1) with (1 + Zpos p + Zpos p) by lia.
    rewrite !Z.pow_add_r by lia. change (2 ^ 1) with 2. ring.
  - assert (H2 : 0 <= shr_m (iter_pos shr_1 p mrs)).
    { rewrite IH by assumption. apply Z.div_pos; [assumption|apply Z.pow_pos_nonneg; lia]. }
    rewrite IH, IH by assumption.
    rewrite !Z.div_div by (try apply Z.pow_pos_nonneg; lia).
    f_equal. rewrite (Pos2Z.inj_xO p).
    replace (2 * Zpos p) with (Zpos p + Zpos p) by lia.
    rewrite !Z.pow_add_r by lia. ring.
  - rewrite shr_1_m by assumption. reflexivity.
Qed.

Lemma shr_m_record_of_loc m l : shr_m (shr_record_of_loc m l) = m.
Proof. destruct l as [|[]]; reflexivity. Qed.

(** [shr] in closed form: the exponent rises to [max e e'] and the
    mantissa loses the difference. *)
Lemma shr_spec mrs e n :
  0 <= shr_m mrs ->
  shr_m (fst (shr mrs e n)) = shr_m mrs / 2 ^ Z.max 0 n /\
  snd (shr mrs e n) = e + Z.max 0 n.
Proof.
  intros Hm. destruct n as [|p|p]; simpl.
  - rewrite Z.div_1_r. split; lia.
  - rewrite iter_shr_1_m by assumption. split; reflexivity.
  - rewrite Z.div_1_r. split; lia.
Qed.

(** *** Rounding *)

Lemma fexp64_eq x : fexp64 x = Z.max (x - 53) (-1074).
Proof. reflexivity. Qed.

Lemma round_nearest_even_bounds m l :
  m <= round_nearest_even m l <= m + 1.
Proof.
  destruct l as [|[]]; simpl; try lia.
  destruct (Z.even m); lia.
Qed.

Lemma shr_fexp_spec m e l :
  0 <= m ->
  let e1 := Z.max e (fexp64 (Zdigits2 m + e)) in
  shr_m (fst (shr_fexp prec emax m e l)) = m / 2 ^ (e1 - e) /\
  snd (shr_fexp prec emax m e l) = e1.
Proof.
  intros Hm e1. unfold shr_fexp.
  destruct (shr_spec (shr_record_of_loc m l) e (fexp64 (Zdigits2 m + e) - e))
    as [H1 H2]; [now rewrite shr_m_record_of_loc|].
  rewrite shr_m_record_of_loc in H1.
  replace (e1 - e) with (Z.max 0 (fexp64 (Zdigits2 m + e) - e)) by (subst e1; lia).
  split; [exact H1|]. rewrite H2. subst e1. lia.
Qed.

Lemma shr_fexp_exact m e :
  fexp64 (Zdigits2 m + e) <= e ->
  shr_fexp prec emax m e loc_Exact = (Build_shr_record m false false, e).
Proof.
  intros Hle. unfold shr_fexp, shr.
  destruct (fexp64 (Zdigits2 m + e) - e) eqn:E; try reflexivity. lia.
Qed.

Lemma binary_round_aux_spec s m e l :
  0 <= m ->
  let e1 := Z.max e (fexp64 (Zdigits2 m + e)) in
  let m1 := m / 2 ^ (e1 - e) in
  exists mr,
    m1 <= mr <= m1 + 1 /\
    (l = loc_Exact -> e1 = e -> mr = m) /\
    let e2 := Z.max e1 (fexp64 (Zdigits2 mr + e1)) in
    binary_round_aux prec emax s m e l = rounded s (mr / 2 ^ (e2 - e1)) e2.
Proof.
  intros Hm e1 m1. unfold binary_round_aux.
  destruct (shr_fexp_spec m e l Hm) as [Hm1 He1]. fold e1 in Hm1, He1. fold m1 in Hm1.
  destruct (shr_fexp prec emax m e l) as [mrs' e'] eqn:E1. simpl in Hm1, He1. subst e'.
  set (mr := round_nearest_even (shr_m mrs') (loc_of_shr_record mrs')).
  assert (Hmr : m1 <= mr <= m1 + 1).
  { subst mr. rewrite <- Hm1. apply round_nearest_even_bounds. }
  assert (Hm1nn : 0 <= m1).
  { subst m1. apply Z.div_pos; [assumption|apply Z.pow_pos_nonneg; lia]. }
  exists mr. split; [exact Hmr|]. split.
  - intros -> He. subst mr.
    rewrite shr_fexp_exact in E1 by (subst e1; lia).
    injection E1 as <- _. reflexivity.
  - destruct (shr_fexp_spec mr e1 loc_Exact ltac:(lia)) as [Hm2 He2].
    destruct (shr_fexp prec emax mr e1 loc_Exact) as [mrs'' e''] eqn:E2.
    simpl in Hm2, He2. cbv zeta. rewrite <- Hm2, <- He2.
    unfold rounded. reflexivity.
Qed.

(** *** Classes of values *)

Lemma signed_nonneg x : signed false x -> nonneg x.
Proof. destruct x; simpl; auto. Qed.

Lemma signed_nonpos x : signed true x -> nonpos x.
Proof. destruct x; simpl; auto. Qed.

Lemma rounded_signed s m2 e2 : 0 <= m2 -> signed s (rounded s m2 e2).
Proof.
  intros H. unfold rounded. destruct m2; try lia.
  - reflexivity.
  - destruct (e2 <=? emax - prec); reflexivity.
Qed.

Lemma binary_round_aux_signed s m e l :
  0 <= m -> signed s (binary_round_aux prec emax s m e l).
Proof.
  intros Hm. destruct (binary_round_aux_spec s m e l Hm) as (mr & Hmr & _ & ->).
  apply rounded_signed. apply Z.div_pos; [|apply Z.pow_pos_nonneg; lia].
  assert (0 <= m / 2 ^ (Z.max e (fexp64 (Zdigits2 m + e)) - e))
    by (apply Z.div_pos; [assumption|apply Z.pow_pos_nonneg; lia]).
  lia.
Qed.

(** *** Digits under shifting and rounding *)

Lemma Zdigits2_div_pow2 m k :
  0 <= m -> 0 <= k < Zdigits2 m -> Zdigits2 (m / 2 ^ k) = Zdigits2 m - k.
Proof.
  intros Hm Hk.
  assert (Hpos : 0 < m) by (destruct m; simpl in *; lia).
  destruct (Zdigits2_bounds m Hpos) as [Hlo Hhi].
  assert (H2k : 0 < 2 ^ k) by (apply Z.pow_pos_nonneg; lia).
  assert (Hq1 : 2 ^ (Zdigits2 m - 1 - k) <= m / 2 ^ k).
  { apply Z.div_le_lower_bound; [assumption|].
    rewrite <- Z.pow_add_r by lia.
    replace (k + (Zdigits2 m - 1 - k)) with (Zdigits2 m - 1) by lia. assumption. }
  assert (Hq2 : m / 2 ^ k < 2 ^ (Zdigits2 m - k)).
  { apply Z.div_lt_upper_bound; [assumption|].
    rewrite <- Z.pow_add_r by lia.
    replace (k + (Zdigits2 m - k)) with (Zdigits2 m) by lia. assumption. }
  assert (0 <= m / 2 ^ k) by (apply Z.div_pos; lia).
  pose proof (Zdigits2_le (m / 2 ^ k) (Zdigits2 m - k) ltac:(lia) ltac:(lia) Hq2).
  pose proof (Zdigits2_gt (m / 2 ^ k) (Zdigits2 m - 1 - k) ltac:(lia) Hq1).
  lia.
Qed.

Lemma div_pow2_small m k : 0 <= m -> Zdigits2 m <= k -> m / 2 ^ k = 0.
Proof.
  intros Hm Hk. apply Z.div_small. split; [assumption|].
  destruct (Z.eq_dec m 0) as [->|Hne]; [simpl in Hk; apply Z.pow_pos_nonneg; lia|].
  destruct (Zdigits2_bounds m ltac:(lia)) as [_ Hhi].
  assert (2 ^ Zdigits2 m <= 2 ^ k)
    by (apply Z.pow_le_mono_r; [lia|assumption]).
  lia.
Qed.

Lemma Zdigits2_succ m : 0 <= m -> Zdigits2 (m + 1) <= Zdigits2 m + 1.
Proof.
  intros Hm. pose proof (Zdigits2_nonneg m).
  apply Zdigits2_le; [lia|lia|].
  rewrite Z.pow_add_r by lia. change (2 ^ 1) with 2.
  destruct (Z.eq_dec m 0) as [->|Hne]; [simpl; lia|].
  destruct (Zdigits2_bounds m ltac:(lia)) as [Hlo Hhi].
  assert (1 <= 2 ^ Zdigits2 m) by (pose proof (Z.pow_pos_nonneg 2 (Zdigits2 m)); lia).
  lia.
Qed.

(** The magnitude [digits + exponent] through [binary_round_aux]. *)
Lemma rounded_magnitude s m e l :
  0 <= m ->
  let e1 := Z.max e (fexp64 (Zdigits2 m + e)) in
  exists mr e2 m2,
    binary_round_aux prec emax s m e l = rounded s m2 e2 /\
    0 <= m2 /\
    m / 2 ^ (e1 - e) <= mr <= m / 2 ^ (e1 - e) + 1 /\
    (l = loc_Exact -> e1 = e -> mr = m) /\
    e2 = Z.max e1 (fexp64 (Zdigits2 mr + e1)) /\
    m2 = mr / 2 ^ (e2 - e1) /\
    (0 < mr -> 0 < m2 /\ Zdigits2 m2 + e2 = Zdigits2 mr + e1).
Proof.
  intros Hm e1.
  destruct (binary_round_aux_spec s m e l Hm) as (mr & Hmr & Hex & Heq).
  fold e1 in Hmr, Hex, Heq. cbv zeta in Heq.
  set (e2 := Z.max e1 (fexp64 (Zdigits2 mr + e1))) in *.
  exists mr, e2, (mr / 2 ^ (e2 - e1)).
  assert (H1 : 0 <= m / 2 ^ (e1 - e))
    by (apply Z.div_pos; [assumption|apply Z.pow_pos_nonneg; lia]).
  assert (Hmrnn : 0 <= mr) by lia.
  split; [exact Heq|]. split; [apply Z.div_pos; [lia|apply Z.pow_pos_nonneg; lia]|].
  split; [exact Hmr|]. split; [exact Hex|]. split; [reflexivity|]. split; [reflexivity|].
  intros Hpos.
  assert (Hd : 0 < Zdigits2 mr) by (destruct mr; simpl in *; lia).
  assert (Hk : 0 <= e2 - e1 < Zdigits2 mr).
  { subst e2 e1. rewrite !fexp64_eq. lia. }
  rewrite Zdigits2_div_pow2 by lia. split; [|lia].
  assert (Hdq : 0 < Zdigits2 (mr / 2 ^ (e2 - e1)))
    by (rewrite Zdigits2_div_pow2 by lia; lia).
  assert (Hqnn : 0 <= mr / 2 ^ (e2 - e1))
    by (apply Z.div_pos; [lia|apply Z.pow_pos_nonneg; lia]).
  destruct (mr / 2 ^ (e2 - e1)); simpl in Hdq; lia.
Qed.

Lemma rounded_inv s m2 e2 :
  0 < m2 ->
  (e2 <= 971 /\ exists p, m2 = Zpos p /\ rounded s m2 e2 = S754_finite s p e2) \/
  (971 < e2 /\ rounded s m2 e2 = S754_infinity s).
Proof.
  intros H. destruct m2 as [|p|p]; try lia. unfold rounded.
  change (emax - prec) with 971.
  destruct (Z.leb_spec e2 971); [left|right]; split; eauto.
Qed.

(** A value of at least the smallest subnormal does not round to zero,
    and rounding does not lower the magnitude. *)
Lemma binary_round_aux_atleast s m e l k :
  0 < m -> -1074 < Zdigits2 m + e -> k <= Zdigits2 m + e ->
  binary_round_aux prec emax s m e l = S754_infinity s \/
  (atleast k (binary_round_aux prec emax s m e l) /\
   signed s (binary_round_aux prec emax s m e l)).
Proof.
  intros Hm Hsub Hk.
  destruct (rounded_magnitude s m e l ltac:(lia))
    as (mr & e2 & m2 & Heq & Hm2 & Hmr & _ & He2 & Hm2eq & Hpos).
  set (e1 := Z.max e (fexp64 (Zdigits2 m + e))) in *.
  assert (Hd : 0 < Zdigits2 m) by (destruct m; simpl in *; lia).
  assert (Hsh : 0 <= e1 - e < Zdigits2 m).
  { subst e1. rewrite fexp64_eq. lia. }
  assert (Hd1 : Zdigits2 (m / 2 ^ (e1 - e)) = Zdigits2 m - (e1 - e))
    by (apply Zdigits2_div_pow2; lia).
  assert (Hm1 : 0 < m / 2 ^ (e1 - e)).
  { destruct (m / 2 ^ (e1 - e)) eqn:E; simpl in Hd1; try lia.
    assert (0 <= Zneg p); [|lia]. rewrite <- E.
    apply Z.div_pos; [lia|apply Z.pow_pos_nonneg; lia]. }
  destruct (Hpos ltac:(lia)) as [Hm2pos Hmag].
  assert (Hmono : Zdigits2 (m / 2 ^ (e1 - e)) <= Zdigits2 mr)
    by (apply Zdigits2_mono; lia).
  rewrite Heq.
  destruct (rounded_inv s m2 e2 Hm2pos) as [(Hle & p & Hp & ->)|(Hgt & ->)];
    [right|left; reflexivity].
  split.
  - simpl. rewrite Hp in Hmag. simpl in Hmag. lia.
  - reflexivity.
Qed.

(** A value below [2^K] with [K <= 1023] stays finite, below [2^(K+1)]. *)
Lemma binary_round_aux_below s m e l K :
  0 <= m -> Zdigits2 m + e <= K -> e <= 971 -> -1074 <= K <= 1023 ->
  below (K + 1) (binary_round_aux prec emax s m e l) /\
  signed s (binary_round_aux prec emax s m e l).
Proof.
  intros Hm HK He HKr.
  split; [|now apply binary_round_aux_signed].
  destruct (rounded_magnitude s m e l Hm)
    as (mr & e2 & m2 & Heq & Hm2 & Hmr & _ & He2 & Hm2eq & Hpos).
  set (e1 := Z.max e (fexp64 (Zdigits2 m + e))) in *.
  rewrite Heq.
  destruct (Z.eq_dec m2 0) as [->|Hne]; [exact I|].
  assert (Hmrpos : 0 < mr).
  { destruct (Z.eq_dec mr 0) as [E|E]; [|
      assert (0 <= m / 2 ^ (e1 - e))
        by (apply Z.div_pos; [assumption|apply Z.pow_pos_nonneg; lia]); lia].
    rewrite E in Hm2eq. rewrite Z.div_0_l in Hm2eq
      by (apply Z.pow_nonzero; subst e2; lia). contradiction. }
  destruct (Hpos Hmrpos) as [Hm2pos Hmag].
  pose proof (Zdigits2_nonneg m) as Hdnn.
  assert (Hdr : Zdigits2 mr + e1 <= K + 1).
  { assert (H1 : 0 <= m / 2 ^ (e1 - e))
      by (apply Z.div_pos; [assumption|apply Z.pow_pos_nonneg; lia]).
    assert (Zdigits2 mr <= Zdigits2 (m / 2 ^ (e1 - e)) + 1).
    { etransitivity; [apply Zdigits2_mono with (m' := m / 2 ^ (e1 - e) + 1); lia|].
      apply Zdigits2_succ; assumption. }
    destruct (Z.lt_ge_cases (e1 - e) (Zdigits2 m)) as [Hlt|Hge].
    - rewrite Zdigits2_div_pow2 in H by (subst e1; lia). lia.
    - rewrite div_pow2_small in H by lia. simpl in H.
      subst e1. rewrite fexp64_eq in *. lia. }
  assert (He2le : e2 <= 971).
  { subst e2 e1. rewrite !fexp64_eq in *. lia. }
  destruct (rounded_inv s m2 e2 Hm2pos) as [(Hle & p & Hp & ->)|(Hgt & _)]; [|lia].
  simpl. rewrite Hp in Hmag. simpl in Hmag. lia.
Qed.

(** *** Alignment *)

Lemma iter_xO m d : Zpos (Pos.iter xO m d) = Zpos m * 2 ^ Zpos d.
Proof.
  revert d. apply Pos.peano_ind.
  - simpl. rewrite Pos2Z.inj_xO. change (2 ^ 1) with 2. lia.
  - intros d IH. rewrite Pos.iter_succ, (Pos2Z.inj_xO (Pos.iter xO m d)), IH.
    rewrite Pos2Z.inj_succ, Z.pow_succ_r by lia. ring.
Qed.

Lemma shl_align_spec mx ex ex' :
  snd (shl_align mx ex ex') = Z.min ex ex' /\
  Zpos (fst (shl_align mx ex ex')) = Zpos mx * 2 ^ (ex - Z.min ex ex').
Proof.
  unfold shl_align. destruct (ex' - ex) as [|d|d] eqn:E; simpl.
  - replace (Z.min ex ex') with ex by lia. rewrite Z.sub_diag. simpl. lia.
  - replace (Z.min ex ex') with ex by lia. rewrite Z.sub_diag. simpl. lia.
  - replace (Z.min ex ex') with ex' by lia.
    replace (ex - ex') with (Zpos d) by lia. split; [reflexivity|apply iter_xO].
Qed.

Lemma Zdigits2_mul_pow2 m k :
  0 < m -> 0 <= k -> Zdigits2 (m * 2 ^ k) = Zdigits2 m + k.
Proof.
  intros Hm Hk. destruct (Zdigits2_bounds m Hm) as [Hlo Hhi].
  assert (Hd : 0 < Zdigits2 m) by (destruct m; simpl in *; lia).
  assert (H2k : 0 < 2 ^ k) by (apply Z.pow_pos_nonneg; lia).
  assert (H1 : m * 2 ^ k < 2 ^ (Zdigits2 m + k)).
  { rewrite Z.pow_add_r by lia. apply Z.mul_lt_mono_pos_r; assumption. }
  assert (H2 : 2 ^ (Zdigits2 m - 1 + k) <= m * 2 ^ k).
  { rewrite Z.pow_add_r by lia. apply Z.mul_le_mono_nonneg_r; lia. }
  pose proof (Zdigits2_le (m * 2 ^ k) (Zdigits2 m + k) ltac:(lia) ltac:(lia) H1).
  pose proof (Zdigits2_gt (m * 2 ^ k) (Zdigits2 m - 1 + k) ltac:(lia) H2).
  lia.
Qed.

(** [binary_round] keeps the sign, does not lose a value of at least the
    smallest subnormal, and keeps a value below [2^K] finite. *)
Lemma binary_round_cases s m e k K :
  -1074 < Zpos (digits2_pos m) + e ->
  k <= Zpos (digits2_pos m) + e <= K ->
  signed s (binary_round prec emax s m e) /\
  (binary_round prec emax s m e = S754_infinity s \/
   atleast k (binary_round prec emax s m e)) /\
  (K <= 1023 -> below (K + 1) (binary_round prec emax s m e)).
Proof.
  intros Hsub [Hk HK]. unfold binary_round.
  destruct (shl_align_spec m e (fexp64 (Zpos (digits2_pos m) + e))) as [He Hm].
  destruct (shl_align m e (fexp64 (Zpos (digits2_pos m) + e))) as [mz ez].
  cbn [fst snd] in He, Hm.
  assert (Hmag : Zdigits2 (Zpos mz) + ez = Zpos (digits2_pos m) + e).
  { rewrite Hm, Zdigits2_mul_pow2 by lia.
    change (Zdigits2 (Zpos m)) with (Zpos (digits2_pos m)). lia. }
  split; [apply binary_round_aux_signed; lia|]. split.
  - destruct (binary_round_aux_atleast s (Zpos mz) ez loc_Exact k) as [H|[H _]];
      auto; lia.
  - intros HK'. apply binary_round_aux_below; try lia.
    rewrite He, fexp64_eq. lia.
Qed.

(** *** Valid finite values *)

Lemma valid_finite s m e :
  valid_binary (S754_finite s m e) = true ->
  -1074 <= e <= 971 /\ Zpos (digits2_pos m) <= 53 /\
  (e = -1074 \/ Zpos (digits2_pos m) = 53).
Proof.
  simpl. unfold bounded, canonical_mantissa. rewrite andb_true_iff.
  rewrite Z.eqb_eq, Z.leb_le, fexp64_eq. change (emax - prec) with 971. lia.
Qed.

(** The order on valid non-negative finite values is the order of the
    mantissas once aligned on the smaller exponent. *)
Lemma aligned_compare m1 e1 m2 e2 :
  valid_binary (S754_finite false m1 e1) = true ->
  valid_binary (S754_finite false m2 e2) = true ->
  SFcompare (S754_finite false m1 e1) (S754_finite false m2 e2) =
  Some (Zpos m1 * 2 ^ (e1 - Z.min e1 e2) ?= Zpos m2 * 2 ^ (e2 - Z.min e1 e2)).
Proof.
  intros V1 V2. apply valid_finite in V1, V2.
  destruct (digits2_pos_bounds m1) as [L1 U1], (digits2_pos_bounds m2) as [L2 U2].
  unfold SFcompare. f_equal.
  destruct (Z.compare_spec e1 e2) as [E|E|E].
  - subst e2. rewrite Z.min_id, Z.sub_diag, !Z.mul_1_r. reflexivity.
  - symmetry. apply Z.compare_lt_iff.
    replace (Z.min e1 e2) with e1 by lia. rewrite Z.sub_diag, Z.mul_1_r.
    assert (H53 : Zpos (digits2_pos m2) = 53) by lia. rewrite H53 in L2.
    assert (Zpos m1 < 2 ^ 53).
    { eapply Z.lt_le_trans; [exact U1|]. apply Z.pow_le_mono_r; lia. }
    assert (2 ^ 1 <= 2 ^ (e2 - e1)) by (apply Z.pow_le_mono_r; lia).
    change (2 ^ (53 - 1)) with 4503599627370496 in L2.
    change (2 ^ 53) with 9007199254740992 in *. change (2 ^ 1) with 2 in *. nia.
  - symmetry. apply Z.compare_gt_iff.
    replace (Z.min e1 e2) with e2 by lia. rewrite Z.sub_diag, Z.mul_1_r.
    assert (H53 : Zpos (digits2_pos m1) = 53) by lia. rewrite H53 in L1.
    assert (Zpos m2 < 2 ^ 53).
    { eapply Z.lt_le_trans; [exact U2|]. apply Z.pow_le_mono_r; lia. }
    assert (2 ^ 1 <= 2 ^ (e1 - e2)) by (apply Z.pow_le_mono_r; lia).
    change (2 ^ (53 - 1)) with 4503599627370496 in L1.
    change (2 ^ 53) with 9007199254740992 in *. change (2 ^ 1) with 2 in *. nia.
Qed.

(** *** An order embedding of the non-negative values

    [key x] is the value of [x] in units of the smallest subnormal
    (2^-1074), with [+Infinity] above every finite value. *)

Lemma key_finite_bounds s m e :
  valid_binary (S754_finite s m e) = true ->
  0 < key (S754_finite s m e) < 2 ^ 2098.
Proof.
  intros V. apply valid_finite in V. cbn [key].
  destruct (digits2_pos_bounds m) as [_ U].
  assert (Zpos m < 2 ^ 53).
  { eapply Z.lt_le_trans; [exact U|]. apply Z.pow_le_mono_r; lia. }
  assert (0 < 2 ^ (e + 1074)) by (apply Z.pow_pos_nonneg; lia).
  split; [apply Z.mul_pos_pos; lia|].
  apply Z.lt_le_trans with (2 ^ 53 * 2 ^ (e + 1074)).
  - apply Z.mul_lt_mono_pos_r; assumption.
  - rewrite <- Z.pow_add_r by lia. apply Z.pow_le_mono_r; lia.
Qed.

Lemma SFcompare_key x y :
  valid_binary x = true -> valid_binary y = true -> nonneg x -> nonneg y ->
  SFcompare x y = Some (key x ?= key y).
Proof.
  intros Vx Vy Nx Ny.
  destruct x as [sx|sx| |sx mx ex], y as [sy|sy| |sy my ey];
    simpl in Nx, Ny; subst; try contradiction; try reflexivity.
  - (* zero, finite *)
    destruct (key_finite_bounds false my ey Vy) as [H _].
    cbn [SFcompare]. f_equal. symmetry. apply Z.compare_lt_iff. exact H.
  - (* infinity, finite *)
    destruct (key_finite_bounds false my ey Vy) as [_ H].
    cbn [SFcompare]. f_equal. symmetry. apply Z.compare_gt_iff. exact H.
  - (* finite, zero *)
    destruct (key_finite_bounds false mx ex Vx) as [H _].
    cbn [SFcompare]. f_equal. symmetry. apply Z.compare_gt_iff. exact H.
  - (* finite, infinity *)
    destruct (key_finite_bounds false mx ex Vx) as [_ H].
    cbn [SFcompare]. f_equal. symmetry. apply Z.compare_lt_iff. exact H.
  - (* finite, finite *)
    rewrite aligned_compare by assumption. f_equal.
    apply valid_finite in Vx, Vy. cbn [key].
    assert (Hx : 2 ^ (ex + 1074) = 2 ^ (ex - Z.min ex ey) * 2 ^ (Z.min ex ey + 1074)).
    { rewrite <- Z.pow_add_r by lia. f_equal. lia. }
    assert (Hy : 2 ^ (ey + 1074) = 2 ^ (ey - Z.min ex ey) * 2 ^ (Z.min ex ey + 1074)).
    { rewrite <- Z.pow_add_r by lia. f_equal. lia. }
    rewrite Hx, Hy, !Z.mul_assoc.
    apply Zmult_compare_compat_r. apply Z.lt_gt, Z.pow_pos_nonneg; lia.
Qed.

(** *** Subtraction *)

Lemma compare_zero_of_signed r :
  (r = S754_infinity false \/ (atleast (-1073) r /\ signed false r)) ->
  SFcompare r (S754_zero false) = Some Gt.
Proof.
  intros [->|[Ha Hs]]; [reflexivity|].
  destruct r as [| | |s m e]; simpl in Ha; try contradiction.
  simpl in Hs. subst s. reflexivity.
Qed.

Lemma compare_zero_of_signed_neg r :
  (r = S754_infinity true \/ (atleast (-1073) r /\ signed true r)) ->
  SFcompare r (S754_zero false) = Some Lt.
Proof.
  intros [->|[Ha Hs]]; [reflexivity|].
  destruct r as [| | |s m e]; simpl in Ha; try contradiction.
  simpl in Hs. subst s. reflexivity.
Qed.

(** The difference of two valid non-negative finite values compares with
    zero as the values compare with each other, and stays below the
    larger magnitude bound plus one. *)
Lemma SFsub_finite x y K :
  valid_binary x = true -> valid_binary y = true ->
  nonneg x -> nonneg y -> below K x -> below K y ->
  SFcompare (SFsub prec emax x y) (S754_zero false) = Some (key x ?= key y) /\
  (K <= 1023 -> below (K + 1) (SFsub prec emax x y)).
Proof.
  intros Vx Vy Nx Ny Bx By.
  rewrite <- SFcompare_key by assumption.
  destruct x as [sx|sx| |sx mx ex], y as [sy|sy| |sy my ey];
    cbn [nonneg below] in Nx, Ny, Bx, By; subst; try contradiction.
  - split; [destruct sx, sy; reflexivity|destruct sx, sy; intros _; exact I].
  - split; [reflexivity|cbn [SFsub below]; lia].
  - split; [reflexivity|cbn [SFsub below]; lia].
  - rewrite aligned_compare by assumption.
    apply valid_finite in Vx, Vy.
    cbn [SFsub cond_Zopp].
    destruct (shl_align_spec mx ex (Z.min ex ey)) as [_ HA].
    destruct (shl_align_spec my ey (Z.min ex ey)) as [_ HB].
    rewrite Z.min_assoc, Z.min_id in HA.
    rewrite (Z.min_comm ey), <- Z.min_assoc, Z.min_id in HB.
    set (ez := Z.min ex ey) in *.
    rewrite HA, HB.
    set (A := Zpos mx * 2 ^ (ex - ez)). set (B := Zpos my * 2 ^ (ey - ez)).
    assert (HdA : Zdigits2 A + ez = Zpos (digits2_pos mx) + ex).
    { subst A. rewrite Zdigits2_mul_pow2 by (subst ez; lia).
      change (Zdigits2 (Zpos mx)) with (Zpos (digits2_pos mx)). lia. }
    assert (HdB : Zdigits2 B + ez = Zpos (digits2_pos my) + ey).
    { subst B. rewrite Zdigits2_mul_pow2 by (subst ez; lia).
      change (Zdigits2 (Zpos my)) with (Zpos (digits2_pos my)). lia. }
    assert (HA0 : 0 < A) by (subst A; apply Z.mul_pos_pos;
      [lia|apply Z.pow_pos_nonneg; subst ez; lia]).
    assert (HB0 : 0 < B) by (subst B; apply Z.mul_pos_pos;
      [lia|apply Z.pow_pos_nonneg; subst ez; lia]).
    assert (Hez : -1074 <= ez) by (subst ez; lia).
    destruct (A - B) as [|d|d] eqn:ED; cbn [binary_normalize].
    + split; [|intros _; exact I]. cbn [SFcompare]. f_equal. symmetry.
      apply Z.compare_eq_iff. lia.
    + assert (Hd : Zpos (digits2_pos d) + ez <= K).
      { change (Zpos (digits2_pos d)) with (Zdigits2 (Zpos d)).
        pose proof (Zdigits2_mono (Zpos d) A ltac:(lia)). lia. }
      destruct (binary_round_cases false d ez (-1073) K) as (Hs & Hlo & Hhi);
        [lia|lia|].
      split; [|exact Hhi].
      rewrite compare_zero_of_signed by (destruct Hlo; auto).
      f_equal. symmetry. apply Z.compare_gt_iff. lia.
    + assert (Hd : Zpos (digits2_pos d) + ez <= K).
      { change (Zpos (digits2_pos d)) with (Zdigits2 (Zpos d)).
        pose proof (Zdigits2_mono (Zpos d) B ltac:(lia)). lia. }
      destruct (binary_round_cases true d ez (-1073) K) as (Hs & Hlo & Hhi);
        [lia|lia|].
      split; [|exact Hhi].
      rewrite compare_zero_of_signed_neg by (destruct Hlo; auto).
      f_equal. symmetry. apply Z.compare_lt_iff. lia.
Qed.

Lemma valid_below x :
  valid_binary x = true -> finite_or_zero x -> below 1024 x.
Proof.
  destruct x as [| | |s m e]; cbn [finite_or_zero below];
    try contradiction; auto.
  intros V _. apply valid_finite in V. lia.
Qed.

Lemma SFltb_zero_compare r :
  SFltb (S754_zero false) r =
  match SFcompare r (S754_zero false) with
  | Some Gt => true
  | _ => false
  end.
Proof. destruct r as [s|[]| |[] m e]; reflexivity. Qed.

(** [y - x] is positive exactly when [x] is below [y], infinities
    included. *)
Lemma SFsub_gt_zero x y :
  valid_binary x = true -> valid_binary y = true -> nonneg x -> nonneg y ->
  SFltb (S754_zero false) (SFsub prec emax y x) = (key x <? key y).
Proof.
  intros Vx Vy Nx Ny. rewrite SFltb_zero_compare.
  assert (Hfin : finite_or_zero x -> finite_or_zero y ->
          match SFcompare (SFsub prec emax y x) (S754_zero false) with
          | Some Gt => true
          | _ => false
          end = (key x <? key y)).
  { intros Fx Fy.
    destruct (SFsub_finite y x 1024 Vy Vx Ny Nx) as [-> _];
      try (apply valid_below; assumption).
    rewrite Z.ltb_compare, (Z.compare_antisym (key y) (key x)).
    destruct (key y ?= key x); reflexivity. }
  destruct x as [sx|sx| |sx mx ex] eqn:Ex, y as [sy|sy| |sy my ey] eqn:Ey;
    cbn [nonneg] in Nx, Ny; subst; try contradiction;
    try (apply Hfin; exact I); try reflexivity.
  - (* x infinite, y finite *)
    destruct (key_finite_bounds false my ey Vy) as [_ H].
    cbn [SFsub SFcompare negb key] in *. symmetry. apply Z.ltb_ge. lia.
  - (* x finite, y infinite *)
    destruct (key_finite_bounds false mx ex Vx) as [_ H].
    cbn [SFsub SFcompare key] in *. symmetry. apply Z.ltb_lt. lia.
Qed.

(** *** Addition *)

Lemma SFadd_signed_false x y :
  signed false x -> signed false y -> signed false (SFadd prec emax x y).
Proof.
  destruct x as [sx|sx| |sx mx ex], y as [sy|sy| |sy my ey];
    cbn [signed]; intros Hx Hy; subst; try contradiction; try reflexivity.
  cbn [SFadd cond_Zopp].
  set (A := fst (shl_align mx ex (Z.min ex ey))).
  set (B := fst (shl_align my ey (Z.min ex ey))).
  change (Zpos A + Zpos B) with (Zpos (A + B)). cbn [binary_normalize].
  unfold binary_round.
  destruct (shl_align (A + B) _ _) as [mz ez].
  apply binary_round_aux_signed. lia.
Qed.

(** *** Multiplication *)

Lemma Zdigits2_mul m1 m2 :
  0 < m1 -> 0 < m2 -> Zdigits2 (m1 * m2) <= Zdigits2 m1 + Zdigits2 m2.
Proof.
  intros H1 H2.
  destruct (Zdigits2_bounds m1 H1) as [_ U1], (Zdigits2_bounds m2 H2) as [_ U2].
  pose proof (Zdigits2_nonneg m1). pose proof (Zdigits2_nonneg m2).
  apply Zdigits2_le; [nia|lia|].
  rewrite Z.pow_add_r by lia. nia.
Qed.

Lemma SFmul_signed sx sy x y :
  signed sx x -> signed sy y -> finite_or_zero x -> finite_or_zero y ->
  signed (xorb sx sy) (SFmul prec emax x y).
Proof.
  destruct x as [s1|s1| |s1 m1 e1], y as [s2|s2| |s2 m2 e2];
    cbn [signed finite_or_zero]; intros Hx Hy Fx Fy; subst;
    try contradiction; try reflexivity.
  cbn [SFmul]. apply binary_round_aux_signed. lia.
Qed.

Lemma SFmul_below x y a b :
  below a x -> below b y -> a + b <= 973 ->
  below (Z.max (a + b) (-1074) + 1) (SFmul prec emax x y).
Proof.
  destruct x as [s1|s1| |s1 m1 e1], y as [s2|s2| |s2 m2 e2];
    cbn [below]; intros Hx Hy Hab; try contradiction; try exact I.
  cbn [SFmul].
  pose proof (Zdigits2_mul (Zpos m1) (Zpos m2) ltac:(lia) ltac:(lia)) as Hd.
  change (Zdigits2 (Zpos m1)) with (Zpos (digits2_pos m1)) in Hd.
  change (Zdigits2 (Zpos m2)) with (Zpos (digits2_pos m2)) in Hd.
  change (Zpos m1 * Zpos m2) with (Zpos (m1 * m2)) in Hd.
  apply binary_round_aux_below; lia.
Qed.

(** *** Division *)

Lemma SFdiv_core_binary_spec m1 e1 m2 e2 :
  let '(q, e', l) := SFdiv_core_binary prec emax (Zpos m1) e1 (Zpos m2) e2 in
  let d := (Zpos (digits2_pos m1) + e1) - (Zpos (digits2_pos m2) + e2) in
  0 <= q /\ e' <= fexp64 d /\ Zdigits2 q + e' <= Z.max (d + 1) (fexp64 d).
Proof.
  unfold SFdiv_core_binary.
  change (Zdigits2 (Zpos m1)) with (Zpos (digits2_pos m1)).
  change (Zdigits2 (Zpos m2)) with (Zpos (digits2_pos m2)).
  set (d1 := Zpos (digits2_pos m1)). set (d2 := Zpos (digits2_pos m2)).
  set (e' := Z.min (fexp64 (d1 + e1 - (d2 + e2))) (e1 - e2)).
  remember (e1 - e2 - e') as sh eqn:Esh.
  assert (Hsh : 0 <= sh) by (subst sh e'; lia).
  set (m' := match sh with
             | 0 => Zpos m1
             | Zpos _ => Z.shiftl (Zpos m1) sh
             | Zneg _ => 0
             end).
  assert (Hm' : m' = Zpos m1 * 2 ^ sh).
  { subst m'. clear Esh. destruct sh; try lia.
    rewrite Z.shiftl_mul_pow2 by lia. reflexivity. }
  pose proof (Z.div_eucl_eq m' (Zpos m2) ltac:(lia)) as Heq.
  pose proof (Z.mod_pos_bound m' (Zpos m2) ltac:(lia)) as Hmod.
  unfold Z.modulo in Hmod.
  destruct (Z.div_eucl m' (Zpos m2)) as [q r].
  assert (H2s : 0 < 2 ^ sh) by (apply Z.pow_pos_nonneg; lia).
  assert (Hq : 0 <= q) by nia.
  split; [exact Hq|]. split; [subst e'; lia|].
  destruct (digits2_pos_bounds m1) as [_ U1], (digits2_pos_bounds m2) as [L2 _].
  fold d1 in U1. fold d2 in L2.
  assert (Hd1 : 0 < d1) by (subst d1; lia).
  assert (Hd2 : 0 < d2) by (subst d2; lia).
  destruct (Z.eq_dec q 0) as [->|Hq0].
  { change (Zdigits2 0) with 0. subst e'. lia. }
  assert (Hlt : q * 2 ^ (d2 - 1) < 2 ^ (d1 + sh)).
  { rewrite Z.pow_add_r by lia.
    assert (0 < 2 ^ (d2 - 1)) by (apply Z.pow_pos_nonneg; lia). nia. }
  assert (Hk : 0 <= d1 + sh - (d2 - 1)).
  { destruct (Z.lt_ge_cases (d1 + sh) (d2 - 1)) as [Hc|Hc]; [exfalso|lia].
    assert (2 ^ (d1 + sh) <= 2 ^ (d2 - 1)) by (apply Z.pow_le_mono_r; lia).
    assert (0 < 2 ^ (d2 - 1)) by (apply Z.pow_pos_nonneg; lia). nia. }
  assert (Hq2 : q < 2 ^ (d1 + sh - (d2 - 1))).
  { assert (0 < 2 ^ (d2 - 1)) by (apply Z.pow_pos_nonneg; lia).
    replace (d1 + sh) with ((d1 + sh - (d2 - 1)) + (d2 - 1)) in Hlt by lia.
    rewrite Z.pow_add_r in Hlt by lia. nia. }
  pose proof (Zdigits2_le q _ Hq Hk Hq2). subst sh. lia.
Qed.

Lemma SFdiv_signed sx sy x y :
  signed sx x -> signed sy y -> finite_or_zero x ->
  (match x, y with S754_zero _, S754_zero _ => False | _, _ => True end) ->
  signed (xorb sx sy) (SFdiv prec emax x y).
Proof.
  destruct x as [s1|s1| |s1 m1 e1], y as [s2|s2| |s2 m2 e2];
    cbn [signed finite_or_zero]; intros Hx Hy Fx Hz; subst;
    try contradiction; try reflexivity.
  cbn [SFdiv].
  pose proof (SFdiv_core_binary_spec m1 e1 m2 e2) as H.
  destruct (SFdiv_core_binary prec emax (Zpos m1) e1 (Zpos m2) e2) as [[q e'] l].
  apply binary_round_aux_signed. apply H.
Qed.

Lemma SFdiv_below x y a b :
  below a x -> atleast b y -> a - b <= 1022 ->
  below (Z.max (a - b + 1) (-1074) + 1) (SFdiv prec emax x y).
Proof.
  destruct x as [s1|s1| |s1 m1 e1], y as [s2|s2| |s2 m2 e2];
    cbn [below atleast]; intros Hx Hy Hab; try contradiction; try exact I.
  cbn [SFdiv].
  pose proof (SFdiv_core_binary_spec m1 e1 m2 e2) as H.
  destruct (SFdiv_core_binary prec emax (Zpos m1) e1 (Zpos m2) e2) as [[q e'] l].
  cbv zeta in H. destruct H as (Hq & He & Hd). rewrite fexp64_eq in He, Hd.
  apply binary_round_aux_below; lia.
Qed.

(** Products and quotients of non-negative values. *)

Lemma SFmul_nonneg x y :
  nonneg x -> nonneg y -> finite_or_zero x -> finite_or_zero y ->
  nonneg (SFmul prec emax x y).
Proof.
  destruct x as [s1|s1| |s1 m1 e1], y as [s2|s2| |s2 m2 e2];
    cbn [nonneg finite_or_zero]; intros Hx Hy Fx Fy; subst;
    try contradiction; try exact I.
  apply signed_nonneg.
  apply (SFmul_signed false false (S754_finite false m1 e1) (S754_finite false m2 e2));
    simpl; auto.
Qed.

Lemma SFmul_nonpos x y :
  nonpos x -> nonneg y -> finite_or_zero x -> finite_or_zero y ->
  nonpos (SFmul prec emax x y).
Proof.
  destruct x as [s1|s1| |s1 m1 e1], y as [s2|s2| |s2 m2 e2];
    cbn [nonneg nonpos finite_or_zero]; intros Hx Hy Fx Fy; subst;
    try contradiction; try exact I.
  apply signed_nonpos.
  apply (SFmul_signed true false (S754_finite true m1 e1) (S754_finite false m2 e2));
    simpl; auto.
Qed.

Lemma SFmul_nonneg_or_nan x y :
  nonneg x -> nonneg y ->
  nonneg (SFmul prec emax x y) \/ SFmul prec emax x y = S754_nan.
Proof.
  destruct x as [s1|s1| |s1 m1 e1], y as [s2|s2| |s2 m2 e2];
    cbn [nonneg]; intros Hx Hy; subst;
    try contradiction; try (left; exact I); try (right; reflexivity);
    try (left; reflexivity).
  left. apply SFmul_nonneg; simpl; auto.
Qed.

Lemma SFdiv_nonneg x y :
  nonneg x -> finite_or_zero x -> positive_value y ->
  nonneg (SFdiv prec emax x y).
Proof.
  destruct x as [s1|s1| |s1 m1 e1], y as [s2|s2| |s2 m2 e2];
    cbn [nonneg finite_or_zero positive_value]; intros Hx Fx Hy; subst;
    try contradiction; try exact I.
  apply signed_nonneg.
  apply (SFdiv_signed false false (S754_finite false m1 e1) (S754_finite false m2 e2));
    simpl; auto.
Qed.

Lemma SFdiv_by_infinity x :
  finite_or_zero x -> finite_or_zero (SFdiv prec emax x (S754_infinity false)).
Proof. destruct x; simpl; auto. Qed.

Lemma below_finite_or_zero k x : below k x -> finite_or_zero x.
Proof. destruct x; simpl; auto. Qed.

Lemma below_weaken k k' x : below k x -> k <= k' -> below k' x.
Proof. destruct x; simpl; auto. lia. Qed.

(** *** Magnitude from the key *)

Lemma Zdigits2_key s m e :
  -1074 <= e ->
  Zdigits2 (key (S754_finite s m e)) = Zpos (digits2_pos m) + e + 1074.
Proof.
  intros He. cbn [key]. rewrite Zdigits2_mul_pow2 by lia.
  change (Zdigits2 (Zpos m)) with (Zpos (digits2_pos m)). lia.
Qed.

Lemma key_below x K :
  valid_binary x = true -> nonneg x -> -1074 <= K <= 1024 ->
  key x < 2 ^ (K + 1074) -> below K x.
Proof.
  intros V N HK Hlt.
  destruct x as [s|s| |s m e]; cbn [nonneg below] in *; try contradiction; auto.
  - cbn [key] in Hlt.
    assert (2 ^ (K + 1074) <= 2 ^ 2098) by (apply Z.pow_le_mono_r; lia). lia.
  - pose proof (valid_finite s m e V) as Hv.
    pose proof (Zdigits2_key s m e ltac:(lia)) as Hd.
    destruct (key_finite_bounds s m e V) as [Hpos _].
    pose proof (Zdigits2_le (key (S754_finite s m e)) (K + 1074)
                  ltac:(lia) ltac:(lia) Hlt). lia.
Qed.

Lemma key_atleast x K :
  valid_binary x = true -> nonneg x -> -1073 <= K ->
  2 ^ (K - 1 + 1074) <= key x ->
  atleast K x \/ x = S754_infinity false.
Proof.
  intros V N HK Hle.
  assert (0 < 2 ^ (K - 1 + 1074)) by (apply Z.pow_pos_nonneg; lia).
  destruct x as [s|s| |s m e]; cbn [nonneg atleast key] in *; try contradiction.
  - lia.
  - right. now subst.
  - left. pose proof (valid_finite s m e V) as Hv.
    pose proof (Zdigits2_key s m e ltac:(lia)) as Hd. cbn [key] in Hd.
    pose proof (Zdigits2_gt (Zpos m * 2 ^ (e + 1074)) (K - 1 + 1074)
                  ltac:(lia) Hle). lia.
Qed.

(** ** Primitive floats *)

Section PrimitiveFloats.

Local Open Scope float_scope.

Lemma Prim2SF_zero : Prim2SF 0 = S754_zero false.
Proof. reflexivity. Qed.

Lemma zero_leb x : (0 <=? x) = true <-> fnonneg x.
Proof.
  rewrite leb_spec, Prim2SF_zero. unfold fnonneg.
  destruct (Prim2SF x) as [s|[]| |[] m e]; simpl; intuition discriminate.
Qed.

Lemma leb_key x y :
  fnonneg x -> fnonneg y -> (x <=? y) = (fkey x <=? fkey y)%Z.
Proof.
  intros Hx Hy. rewrite leb_spec. unfold SFleb.
  rewrite SFcompare_key by (auto using Prim2SF_valid).
  unfold fkey. rewrite Z.leb_compare. destruct (_ ?= _)%Z; reflexivity.
Qed.

Lemma ltb_key x y :
  fnonneg x -> fnonneg y -> (x <? y) = (fkey x <? fkey y)%Z.
Proof.
  intros Hx Hy. rewrite ltb_spec. unfold SFltb.
  rewrite SFcompare_key by (auto using Prim2SF_valid).
  unfold fkey. rewrite Z.ltb_compare. destruct (_ ?= _)%Z; reflexivity.
Qed.

Lemma sub_gt_zero x y :
  fnonneg x -> fnonneg y -> (0 <? y - x) = (fkey x <? fkey y)%Z.
Proof.
  intros Hx Hy. rewrite ltb_spec, sub_spec, Prim2SF_zero.
  apply SFsub_gt_zero; auto using Prim2SF_valid.
Qed.

Lemma leb_nonneg_right x y : fnonneg x -> (x <=? y) = true -> fnonneg y.
Proof.
  unfold fnonneg. rewrite leb_spec.
  destruct (Prim2SF x) as [s1|[]| |[] m1 e1], (Prim2SF y) as [s2|[]| |[] m2 e2];
    simpl; intros; try contradiction; try discriminate; auto.
Qed.

Lemma leb_below x c K :
  fnonneg x -> fnonneg c -> (x <=? c) = true ->
  (fkey c < 2 ^ (K + 1074))%Z -> (-1074 <= K <= 1024)%Z ->
  below K (Prim2SF x).
Proof.
  intros Hx Hc Hle Hkey HK. rewrite leb_key in Hle by assumption.
  apply Z.leb_le in Hle.
  apply key_below; auto using Prim2SF_valid. unfold fkey in *. lia.
Qed.

Lemma leb_atleast c x K :
  fnonneg c -> fnonneg x -> (c <=? x) = true ->
  (2 ^ (K - 1 + 1074) <= fkey c)%Z -> (-1073 <= K)%Z ->
  atleast K (Prim2SF x) \/ Prim2SF x = S754_infinity false.
Proof.
  intros Hc Hx Hle Hkey HK. rewrite leb_key in Hle by assumption.
  apply Z.leb_le in Hle.
  apply key_atleast; auto using Prim2SF_valid. unfold fkey in *. lia.
Qed.

Lemma compare_zero_nonneg r c :
  SFcompare r (S754_zero false) = Some c -> c <> Lt -> nonneg r.
Proof.
  destruct r as [s|[]| |[] m e]; simpl; intros H Hc;
    try exact I; try reflexivity; try discriminate;
    injection H as <-; contradiction.
Qed.

(** [x - y] for [0 <= y <= x], both below [2^K]. *)
Lemma sub_nonneg x y K :
  fnonneg y -> (y <=? x) = true ->
  below K (Prim2SF x) -> below K (Prim2SF y) -> (K <= 1023)%Z ->
  fnonneg (x - y) /\ below (K + 1) (Prim2SF (x - y)).
Proof.
  intros Hy Hle Bx By HK.
  pose proof (leb_nonneg_right y x Hy Hle) as Hx.
  rewrite leb_key in Hle by assumption. apply Z.leb_le in Hle.
  unfold fnonneg. rewrite sub_spec.
  destruct (SFsub_finite (Prim2SF x) (Prim2SF y) K) as [Hc Hb];
    auto using Prim2SF_valid.
  split; [|apply Hb; assumption].
  eapply compare_zero_nonneg; [exact Hc|].
  unfold fkey in Hle. intros E. rewrite Z.compare_lt_iff in E. lia.
Qed.

Lemma nonpos_leb_zero x : nonpos (Prim2SF x) -> (x <=? 0) = true.
Proof.
  rewrite leb_spec, Prim2SF_zero.
  destruct (Prim2SF x) as [s|[]| |[] m e]; simpl; intros H;
    try reflexivity; try contradiction; discriminate.
Qed.

Lemma opp_nonpos x :
  fnonneg x -> finite_or_zero (Prim2SF x) ->
  nonpos (Prim2SF (- x)) /\ finite_or_zero (Prim2SF (- x)).
Proof.
  unfold fnonneg. rewrite opp_spec.
  destruct (Prim2SF x) as [s|[]| |[] m e]; simpl; intros; try contradiction;
    try discriminate; auto.
Qed.

Lemma ltb_infinity_finite x :
  fnonneg x -> (x <? infinity) = true -> finite_or_zero (Prim2SF x).
Proof.
  unfold fnonneg. rewrite ltb_spec.
  change (Prim2SF infinity) with (S754_infinity false).
  destruct (Prim2SF x) as [s|[]| |[] m e]; simpl; intros; try contradiction;
    try discriminate; auto.
Qed.

Lemma finite_ltb_infinity x :
  finite_or_zero (Prim2SF x) -> (x <? infinity) = true.
Proof.
  rewrite ltb_spec. change (Prim2SF infinity) with (S754_infinity false).
  destruct (Prim2SF x) as [s|[]| |[] m e]; simpl; intros; try contradiction;
    reflexivity.
Qed.

Lemma SFeqb_refl x : x <> S754_nan -> SFeqb x x = true.
Proof.
  destruct x as [s|[]| |[] m e]; intros H; try reflexivity; try contradiction;
    unfold SFeqb, SFcompare; rewrite Z.compare_refl, Pos.compare_cont_refl;
    reflexivity.
Qed.

Lemma leb_is_nan_left x y : (x <=? y) = true -> PrimFloat.is_nan x = false.
Proof.
  rewrite leb_spec. unfold PrimFloat.is_nan. rewrite eqb_spec. intros H.
  rewrite SFeqb_refl; [reflexivity|].
  intros E. rewrite E in H. discriminate.
Qed.

Lemma fnonneg_is_nan x : fnonneg x -> PrimFloat.is_nan x = false.
Proof. intros H. apply zero_leb in H. unfold PrimFloat.is_nan.
  rewrite eqb_spec, SFeqb_refl; [reflexivity|].
  intros E. unfold fnonneg in *. rewrite leb_spec, E in H. discriminate.
Qed.


End PrimitiveFloats.

(** ** Exact rounding *)

Lemma shr_1_double k :
  0 <= k ->
  shr_1 {| shr_m := 2 * k; shr_r := false; shr_s := false |} =
  {| shr_m := k; shr_r := false; shr_s := false |}.
Proof. intros Hk. destruct k as [|p|p]; try lia; reflexivity. Qed.

Lemma iter_shr_1_exact p : forall k,
  0 <= k ->
  iter_pos shr_1 p {| shr_m := k * 2 ^ Zpos p; shr_r := false; shr_s := false |} =
  {| shr_m := k; shr_r := false; shr_s := false |}.
Proof.
  induction p as [p IH|p IH|]; intros k Hk; cbn [iter_pos].
  - assert (H2 : 0 < 2 ^ Zpos p) by (apply Z.pow_pos_nonneg; lia).
    replace (k * 2 ^ Zpos p~1) with (2 * ((k * 2 ^ Zpos p) * 2 ^ Zpos p)).
    + rewrite shr_1_double by nia. rewrite IH by nia. apply IH. assumption.
    + rewrite (Pos2Z.inj_xI p).
      replace (2 * Zpos p + 1) with (1 + Zpos p + Zpos p) by lia.
      rewrite !Z.pow_add_r by lia. change (2 ^ 1) with 2. ring.
  - assert (H2 : 0 < 2 ^ Zpos p) by (apply Z.pow_pos_nonneg; lia).
    replace (k * 2 ^ Zpos p~0) with ((k * 2 ^ Zpos p) * 2 ^ Zpos p).
    + rewrite IH by nia. apply IH. assumption.
    + rewrite (Pos2Z.inj_xO p).
      replace (2 * Zpos p) with (Zpos p + Zpos p) by lia.
      rewrite !Z.pow_add_r by lia. ring.
  - change (2 ^ 1) with 2. rewrite Z.mul_comm. now apply shr_1_double.
Qed.

(** A mantissa whose low bits are zero is cut without loss. *)
Lemma shr_fexp_divisible k e n :
  0 <= k -> 0 <= n ->
  Z.max e (fexp64 (Zdigits2 (k * 2 ^ n) + e)) = e + n ->
  shr_fexp prec emax (k * 2 ^ n) e loc_Exact =
  ({| shr_m := k; shr_r := false; shr_s := false |}, e + n).
Proof.
  intros Hk Hn He. unfold shr_fexp, shr. cbn [shr_record_of_loc].
  destruct (fexp64 (Zdigits2 (k * 2 ^ n) + e) - e) as [|p|p] eqn:E.
  - replace n with 0 by lia. rewrite Z.pow_0_r, Z.mul_1_r, Z.add_0_r. reflexivity.
  - replace n with (Zpos p) by lia. rewrite iter_shr_1_exact by assumption.
    reflexivity.
  - replace n with 0 by lia. rewrite Z.pow_0_r, Z.mul_1_r, Z.add_0_r. reflexivity.
Qed.

Lemma binary_round_aux_exact s k e n :
  0 <= n ->
  Z.max e (fexp64 (Zdigits2 (Zpos k * 2 ^ n) + e)) = e + n ->
  e + n <= 971 ->
  binary_round_aux prec emax s (Zpos k * 2 ^ n) e loc_Exact =
  S754_finite s k (e + n).
Proof.
  intros Hn He Hmax. unfold binary_round_aux.
  rewrite shr_fexp_divisible by (assumption || lia).
  cbn [shr_m loc_of_shr_record round_nearest_even].
  assert (Hd : Zdigits2 (Zpos k * 2 ^ n) = Zdigits2 (Zpos k) + n)
    by (apply Zdigits2_mul_pow2; lia).
  assert (Hle : fexp64 (Zdigits2 (Zpos k) + (e + n)) <= e + n).
  { replace (Zdigits2 (Zpos k) + (e + n)) with (Zdigits2 (Zpos k * 2 ^ n) + e) by lia.
    lia. }
  rewrite shr_fexp_exact by exact Hle.
  cbn [shr_m]. change (emax - prec) with 971.
  destruct (Z.leb_spec (e + n) 971); [reflexivity|lia].
Qed.

(** [binary_round] of a value that fits the format is that value. *)
Lemma binary_round_exact s m e :
  let f := fexp64 (Zpos (digits2_pos m) + e) in
  f <= 971 ->
  (f <= e \/ exists k, Zpos m = Zpos k * 2 ^ (f - e)) ->
  exists K, binary_round prec emax s m e = S754_finite s K f /\
            forall b, 0 <= e + b -> 0 <= f + b ->
                      Zpos K * 2 ^ (f + b) = Zpos m * 2 ^ (e + b).
Proof.
  intros f Hf Hfit. unfold binary_round.
  destruct (shl_align_spec m e f) as [He Hm]. fold f.
  destruct (shl_align m e f) as [mz ez]. cbn [fst snd] in He, Hm.
  destruct (Z.le_gt_cases f e) as [Hle|Hgt].
  - (* the mantissa is moved left onto the exponent [f] *)
    replace (Z.min e f) with f in * by lia. subst ez.
    exists mz. split.
    + pose proof (binary_round_aux_exact s mz f 0) as H.
      rewrite Z.pow_0_r, Z.mul_1_r, Z.add_0_r in H. apply H; try lia.
      rewrite Hm, Zdigits2_mul_pow2 by lia.
      change (Zdigits2 (Zpos m)) with (Zpos (digits2_pos m)).
      replace (Zpos (digits2_pos m) + (e - f) + f) with (Zpos (digits2_pos m) + e) by lia.
      fold f. lia.
    + intros b He' Hf'. rewrite Hm, <- Z.mul_assoc, <- Z.pow_add_r by lia.
      f_equal. f_equal. lia.
  - (* the low bits are zero *)
    destruct Hfit as [Hfit|[k Hk]]; [lia|].
    replace (Z.min e f) with e in * by lia. subst ez.
    rewrite Z.sub_diag, Z.pow_0_r, Z.mul_1_r in Hm. injection Hm as ->.
    exists k. split.
    + pose proof (binary_round_aux_exact s k e (f - e)) as H.
      replace (e + (f - e)) with f in H by lia.
      rewrite Hk. apply H; try lia.
      rewrite <- Hk. change (Zdigits2 (Zpos m)) with (Zpos (digits2_pos m)).
      fold f. lia.
    + intros b He' Hf'. rewrite Hk, <- Z.mul_assoc, <- Z.pow_add_r by lia.
      f_equal. f_equal. lia.
Qed.

(** ** Integers held exactly *)

Lemma Zdigits2_below_2_53 a : 1 <= a < 2 ^ 53 -> 1 <= Zdigits2 a <= 53.
Proof.
  intros Ha. split.
  - destruct a; simpl; lia.
  - apply Zdigits2_le; lia.
Qed.

Lemma binary_round_integer p :
  Zpos p < 2 ^ 53 -> is_integer (binary_round prec emax false p 0) (Zpos p).
Proof.
  intros Hp.
  pose proof (Zdigits2_below_2_53 (Zpos p) ltac:(lia)) as Hd.
  change (Zdigits2 (Zpos p)) with (Zpos (digits2_pos p)) in Hd.
  destruct (binary_round_exact false p 0) as (K & HK & Hval).
  - rewrite fexp64_eq. lia.
  - left. rewrite fexp64_eq. lia.
  - cbv zeta in HK. split; [eauto|].
    rewrite HK. cbn [key]. rewrite (Hval 1074); [reflexivity|lia|].
    rewrite fexp64_eq. lia.
Qed.

Lemma is_integer_magnitude m e a :
  valid_binary (S754_finite false m e) = true ->
  is_integer (S754_finite false m e) a -> 1 <= a ->
  Zpos (digits2_pos m) + e = Zdigits2 a.
Proof.
  intros V [_ Hk] Ha. apply valid_finite in V.
  pose proof (Zdigits2_key false m e ltac:(lia)) as Hd.
  rewrite Hk, Zdigits2_mul_pow2 in Hd by lia. lia.
Qed.

(** An integer below 2^53 is held by one number only. *)
Lemma is_integer_unique x y a :
  valid_binary x = true -> valid_binary y = true ->
  is_integer x a -> is_integer y a -> 1 <= a -> x = y.
Proof.
  intros Vx Vy Hx Hy Ha.
  destruct Hx as [(m1 & e1 & ->) K1]. destruct Hy as [(m2 & e2 & ->) K2].
  pose proof (is_integer_magnitude m1 e1 a Vx
                (conj (ex_intro _ m1 (ex_intro _ e1 eq_refl)) K1) Ha) as D1.
  pose proof (is_integer_magnitude m2 e2 a Vy
                (conj (ex_intro _ m2 (ex_intro _ e2 eq_refl)) K2) Ha) as D2.
  pose proof (valid_finite _ _ _ Vx) as (B1 & _ & _).
  simpl in Vx, Vy. unfold bounded, canonical_mantissa in Vx, Vy.
  apply andb_prop in Vx as [C1 _]. apply andb_prop in Vy as [C2 _].
  apply Z.eqb_eq in C1, C2. rewrite D1 in C1. rewrite D2 in C2.
  assert (E : e1 = e2) by congruence.
  cbn [key] in K1, K2. rewrite <- E in K2.
  assert (Hp : 0 < 2 ^ (e1 + 1074)) by (apply Z.pow_pos_nonneg; lia).
  assert (Hm : Zpos m1 = Zpos m2).
  { apply Z.mul_reg_r with (p := 2 ^ (e1 + 1074)); [lia|congruence]. }
  injection Hm as Hm. now rewrite Hm, E.
Qed.

(** The sum of two integers held exactly is held exactly while it stays
    below 2^53. *)
Lemma SFadd_integer x y a b :
  valid_binary x = true -> valid_binary y = true ->
  is_integer x a -> is_integer y b -> 1 <= a -> 1 <= b -> a + b < 2 ^ 53 ->
  is_integer (SFadd prec emax x y) (a + b).
Proof.
  intros Vx Vy Hx Hy Ha Hb Hab.
  destruct Hx as [(mx & ex & ->) Kx], Hy as [(my & ey & ->) Ky].
  pose proof (valid_finite _ _ _ Vx) as Wx. pose proof (valid_finite _ _ _ Vy) as Wy.
  cbn [key] in Kx, Ky. cbn [SFadd cond_Zopp].
  destruct (shl_align_spec mx ex (Z.min ex ey)) as [_ HA].
  destruct (shl_align_spec my ey (Z.min ex ey)) as [_ HB].
  rewrite Z.min_assoc, Z.min_id in HA.
  rewrite (Z.min_comm ey), <- Z.min_assoc, Z.min_id in HB.
  set (ez := Z.min ex ey) in *.
  set (A := fst (shl_align mx ex ez)) in *. set (B := fst (shl_align my ey ez)) in *.
  change (Zpos A + Zpos B) with (Zpos (A + B)). cbn [binary_normalize].
  assert (Hez : -1074 <= ez <= 0).
  { split; [subst ez; lia|].
    pose proof (is_integer_magnitude mx ex a Vx (conj (ex_intro _ mx (ex_intro _ ex eq_refl)) Kx) Ha).
    pose proof (is_integer_magnitude my ey b Vy (conj (ex_intro _ my (ex_intro _ ey eq_refl)) Ky) Hb).
    pose proof (Zdigits2_below_2_53 a ltac:(lia)).
    pose proof (Zdigits2_below_2_53 b ltac:(lia)).
    subst ez. lia. }
  (* the value of the aligned sum *)
  assert (HM : Zpos (A + B) * 2 ^ (ez + 1074) = (a + b) * 2 ^ 1074).
  { rewrite Pos2Z.inj_add, HA, HB, Z.mul_add_distr_r, <- !Z.mul_assoc.
    rewrite <- !Z.pow_add_r by (subst ez; lia).
    replace (ex - ez + (ez + 1074)) with (ex + 1074) by lia.
    replace (ey - ez + (ez + 1074)) with (ey + 1074) by lia.
    rewrite Kx, Ky. ring. }
  assert (Hdig : Zpos (digits2_pos (A + B)) + ez = Zdigits2 (a + b)).
  { assert (H : Zdigits2 (Zpos (A + B) * 2 ^ (ez + 1074)) = Zdigits2 ((a + b) * 2 ^ 1074))
      by now rewrite HM.
    rewrite !Zdigits2_mul_pow2 in H by lia.
    change (Zdigits2 (Zpos (A + B))) with (Zpos (digits2_pos (A + B))) in H. lia. }
  pose proof (Zdigits2_below_2_53 (a + b) ltac:(lia)) as Hg.
  destruct (binary_round_exact false (A + B) ez) as (K & HK & Hval).
  - rewrite Hdig, fexp64_eq. lia.
  - rewrite Hdig, fexp64_eq.
    destruct (Z.le_gt_cases (Z.max (Zdigits2 (a + b) - 53) (-1074)) ez) as [Hle|Hgt];
      [left; exact Hle|right].
    set (f := Z.max (Zdigits2 (a + b) - 53) (-1074)) in *.
    assert (Hval : Zpos (A + B) = (a + b) * 2 ^ (- ez)).
    { apply Z.mul_cancel_r with (p := 2 ^ (ez + 1074));
        [apply Z.pow_nonzero; lia|].
      rewrite HM, <- Z.mul_assoc, <- Z.pow_add_r by lia.
      f_equal. f_equal. lia. }
    assert (Hk : 0 < (a + b) * 2 ^ (- f))
      by (apply Z.mul_pos_pos; [lia|apply Z.pow_pos_nonneg; subst f; lia]).
    exists (Z.to_pos ((a + b) * 2 ^ (- f))).
    rewrite Z2Pos.id by exact Hk.
    rewrite Hval, <- Z.mul_assoc, <- Z.pow_add_r by (subst f; lia).
    f_equal. f_equal. lia.
  - cbv zeta in HK. split; [eauto|].
    rewrite HK. cbn [key]. rewrite (Hval 1074); [exact HM|lia|].
    rewrite Hdig, fexp64_eq. lia.
Qed.


(** ** The quotient of two integers *)

Lemma is_integer_normal m e a :
  valid_binary (S754_finite false m e) = true ->
  is_integer (S754_finite false m e) a -> 1 <= a < 2 ^ 53 ->
  Zpos (digits2_pos m) = 53 /\ -52 <= e <= 0 /\
  2 ^ 52 <= Zpos m < 2 ^ 53.
Proof.
  intros V Hi Ha.
  pose proof (is_integer_magnitude m e a V Hi ltac:(lia)) as Hmag.
  pose proof (Zdigits2_below_2_53 a Ha) as Hd.
  apply valid_finite in V.
  assert (H53 : Zpos (digits2_pos m) = 53) by lia.
  split; [exact H53|]. split; [lia|].
  pose proof (digits2_pos_bounds m) as Hb. rewrite H53 in Hb. exact Hb.
Qed.

Lemma SFdiv_core_normal m1 e1 m2 e2 :
  Zpos (digits2_pos m1) = 53 -> Zpos (digits2_pos m2) = 53 ->
  -1021 <= e1 - e2 ->
  exists l,
    SFdiv_core_binary prec emax (Zpos m1) e1 (Zpos m2) e2 =
    (Zpos m1 * 2 ^ 53 / Zpos m2, e1 - e2 - 53, l).
Proof.
  intros H1 H2 He. unfold SFdiv_core_binary.
  change (Zdigits2 (Zpos m1)) with (Zpos (digits2_pos m1)).
  change (Zdigits2 (Zpos m2)) with (Zpos (digits2_pos m2)).
  rewrite H1, H2.
  replace (Z.min (fexp64 (53 + e1 - (53 + e2))) (e1 - e2)) with (e1 - e2 - 53)
    by (rewrite fexp64_eq; lia).
  replace (e1 - e2 - (e1 - e2 - 53)) with 53 by lia.
  rewrite Z.shiftl_mul_pow2 by lia.
  unfold Z.div.
  destruct (Z.div_eucl (Zpos m1 * 2 ^ 53) (Zpos m2)) as [q r]. eauto.
Qed.

Lemma quotient_bounds m1 m2 :
  2 ^ 52 <= m1 < 2 ^ 53 -> 2 ^ 52 <= m2 < 2 ^ 53 ->
  2 ^ 52 <= m1 * 2 ^ 53 / m2 < 2 ^ 54.
Proof.
  intros H1 H2. split.
  - apply Z.div_le_lower_bound; [lia|].
    change (2 ^ 52) with 4503599627370496 in *.
    change (2 ^ 53) with 9007199254740992 in *. nia.
  - apply Z.div_lt_upper_bound; [lia|].
    change (2 ^ 52) with 4503599627370496 in *.
    change (2 ^ 53) with 9007199254740992 in *.
    change (2 ^ 54) with 18014398509481984. nia.
Qed.

(** A mantissa between 2^52 and 2^54 cut to 53 digits. *)
Lemma cut_to_53 q :
  2 ^ 52 <= q < 2 ^ 54 ->
  let n := Zdigits2 q - 53 in
  0 <= n <= 1 /\ 2 ^ 52 <= q / 2 ^ n < 2 ^ 53 /\
  2 ^ n * (q / 2 ^ n) <= q < 2 ^ n * (q / 2 ^ n + 1).
Proof.
  intros Hq n.
  assert (Hd : 53 <= Zdigits2 q <= 54).
  { split.
    - pose proof (Zdigits2_gt q 52 ltac:(lia) ltac:(lia)). lia.
    - apply Zdigits2_le; lia. }
  assert (Hn : 0 <= n <= 1) by (subst n; lia).
  assert (H2n : 0 < 2 ^ n) by (apply Z.pow_pos_nonneg; lia).
  split; [exact Hn|]. split.
  - pose proof (Zdigits2_div_pow2 q n ltac:(lia) ltac:(lia)) as Hdq.
    replace (Zdigits2 q - n) with 53 in Hdq by (subst n; lia).
    assert (Hpos : 0 < q / 2 ^ n).
    { apply Z.div_str_pos. split; [lia|].
      assert (2 ^ n <= 2 ^ 1) by (apply Z.pow_le_mono_r; lia).
      change (2 ^ 1) with 2 in *. change (2 ^ 52) with 4503599627370496 in *. lia. }
    pose proof (Zdigits2_bounds _ Hpos) as Hb. rewrite Hdq in Hb. exact Hb.
  - split.
    + apply Z.mul_div_le. exact H2n.
    + rewrite Z.mul_add_distr_l, Z.mul_1_r.
      pose proof (Z.mod_pos_bound q (2 ^ n) H2n).
      pose proof (Z.div_mod q (2 ^ n) ltac:(lia)). lia.
Qed.

(** The quotient of two integers below 2^53 is correctly rounded to
    within one unit in the last place: its distance to [c / T] is at most
    [2^-52 * c / T]. Stated without fractions, on keys. *)
Lemma SFdiv_integers x y c T :
  valid_binary x = true -> valid_binary y = true ->
  is_integer x c -> is_integer y T -> 1 <= c < 2 ^ 53 -> 1 <= T < 2 ^ 53 ->
  (exists m e, SFdiv prec emax x y = S754_finite false m e) /\
  Z.abs (key (SFdiv prec emax x y) * T - c * 2 ^ 1074) <= c * 2 ^ 1022.
Proof.
  intros Vx Vy Hx Hy Hc HT.
  destruct Hx as [(mx & ex & ->) Kx], Hy as [(my & ey & ->) Ky].
  destruct (is_integer_normal mx ex c Vx (conj (ex_intro _ mx (ex_intro _ ex eq_refl)) Kx) Hc)
    as (Dx & Ex & Bx).
  destruct (is_integer_normal my ey T Vy (conj (ex_intro _ my (ex_intro _ ey eq_refl)) Ky) HT)
    as (Dy & Ey & By).
  cbn [key] in Kx, Ky. cbn [SFdiv].
  destruct (SFdiv_core_normal mx ex my ey Dx Dy ltac:(lia)) as [l ->].
  cbn [xorb].
  set (q := Zpos mx * 2 ^ 53 / Zpos my). set (e' := ex - ey - 53).
  pose proof (quotient_bounds (Zpos mx) (Zpos my) Bx By) as Hq. fold q in Hq.
  destruct (cut_to_53 q Hq) as (Hn & Hm1 & Hfloor).
  set (n := Zdigits2 q - 53) in *. set (m1 := q / 2 ^ n) in *.
  destruct (rounded_magnitude false q e' l ltac:(lia))
    as (mr & e2 & m2 & Heq & _ & Hmr & _ & He2 & Hm2eq & Hpos).
  assert (He1 : Z.max e' (fexp64 (Zdigits2 q + e')) = e' + n)
    by (rewrite fexp64_eq; subst n e'; lia).
  rewrite He1 in Hmr, He2, Hm2eq, Hpos.
  replace (e' + n - e') with n in Hmr by lia. fold m1 in Hmr.
  (* the mantissa after rounding, and after the second cut *)
  assert (Hmrb : 2 ^ 52 <= mr <= 2 ^ 53) by lia.
  remember (Zdigits2 mr - 53) as k eqn:Ek.
  assert (Hk : 0 <= k <= 1).
  { subst k. split.
    - pose proof (Zdigits2_gt mr 52 ltac:(lia) ltac:(lia)). lia.
    - assert (Zdigits2 mr <= 54) by (apply Zdigits2_le; lia). lia. }
  assert (He2' : e2 = e' + n + k) by (rewrite He2, fexp64_eq; subst k e'; lia).
  clear He2.
  assert (Hexact : m2 * 2 ^ k = mr).
  { rewrite Hm2eq. replace (e2 - (e' + n)) with k by lia.
    destruct (Z.eq_dec k 0) as [->|Hk1].
    - rewrite Z.pow_0_r, Z.div_1_r. lia.
    - assert (k = 1) by lia. subst k.
      assert (Hmr53 : mr = 2 ^ 53).
      { destruct (Z.lt_ge_cases mr (2 ^ 53)) as [Hlt|]; [exfalso|lia].
        pose proof (Zdigits2_le mr 53 ltac:(lia) ltac:(lia) Hlt). lia. }
      rewrite H, Hmr53. reflexivity. }
  destruct (Hpos ltac:(lia)) as [Hm2pos _].
  rewrite Heq.
  destruct (rounded_inv false m2 e2 Hm2pos) as [(_ & p & Hp & ->)|(Hgt & _)];
    [|exfalso; subst e'; lia].
  split; [eauto|]. cbn [key]. rewrite <- Hp.
  (* the quotient, between consecutive multiples *)
  assert (Hdiv : Zpos my * q <= Zpos mx * 2 ^ 53 < Zpos my * (q + 1)).
  { subst q. split.
    - apply Z.mul_div_le. lia.
    - rewrite Z.mul_add_distr_l, Z.mul_1_r.
      pose proof (Z.mod_pos_bound (Zpos mx * 2 ^ 53) (Zpos my) ltac:(lia)).
      pose proof (Z.div_mod (Zpos mx * 2 ^ 53) (Zpos my) ltac:(lia)). lia. }
  set (W := Zpos my * 2 ^ n).
  assert (H2n : 0 < 2 ^ n) by (apply Z.pow_pos_nonneg; lia).
  assert (HW1 : m1 * W <= Zpos mx * 2 ^ 53 < (m1 + 1) * W) by (subst W; nia).
  assert (HW2 : W <= 2 * Zpos mx).
  { change (2 ^ 52) with 4503599627370496 in *.
    change (2 ^ 53) with 9007199254740992 in *. nia. }
  assert (Herr : Z.abs (mr * W - Zpos mx * 2 ^ 53) <= 2 * Zpos mx) by nia.
  (* back to keys *)
  set (P := 2 ^ (ex + 2095)).
  assert (HP : 0 < P) by (apply Z.pow_pos_nonneg; lia).
  assert (H1074 : 0 < 2 ^ 1074) by (apply Z.pow_pos_nonneg; lia).
  assert (Hp1 : 2 ^ (e2 + 1074) = 2 ^ k * 2 ^ (e' + n + 1074)).
  { rewrite <- Z.pow_add_r by (subst e'; lia). f_equal. lia. }
  assert (Hp2 : 2 ^ (e' + n + 1074) * 2 ^ (ey + 1074) = 2 ^ n * P).
  { subst P. rewrite <- !Z.pow_add_r by (subst e'; lia). f_equal. subst e'. lia. }
  assert (HK : m2 * 2 ^ (e2 + 1074) * (T * 2 ^ 1074) = mr * W * P).
  { rewrite <- Ky, Hp1. subst W.
    transitivity ((m2 * 2 ^ k) * Zpos my * (2 ^ (e' + n + 1074) * 2 ^ (ey + 1074)));
      [ring|].
    rewrite Hp2, Hexact. ring. }
  assert (HX : c * 2 ^ 1074 * 2 ^ 1074 = Zpos mx * 2 ^ 53 * P).
  { rewrite <- Kx. subst P. rewrite <- !Z.mul_assoc, <- !Z.pow_add_r by lia.
    f_equal. f_equal. lia. }
  assert (HB : c * 2 ^ 1022 * 2 ^ 1074 = 2 * Zpos mx * P).
  { replace (c * 2 ^ 1022 * 2 ^ 1074) with (c * 2 ^ 1074 * 2 ^ 1022) by ring.
    rewrite <- Kx. subst P.
    replace (2 * Zpos mx * 2 ^ (ex + 2095)) with (Zpos mx * (2 ^ 1 * 2 ^ (ex + 2095)))
      by (change (2 ^ 1) with 2; ring).
    rewrite <- !Z.mul_assoc, <- !Z.pow_add_r by lia. f_equal. f_equal. lia. }
  apply Z.mul_le_mono_pos_r with (p := 2 ^ 1074); [exact H1074|].
  rewrite HB.
  assert (HD : (m2 * 2 ^ (e2 + 1074) * T - c * 2 ^ 1074) * 2 ^ 1074 =
               (mr * W - Zpos mx * 2 ^ 53) * P).
  { rewrite !Z.mul_sub_distr_r, <- (Z.mul_assoc _ T), HK, HX. reflexivity. }
  replace (Z.abs (m2 * 2 ^ (e2 + 1074) * T - c * 2 ^ 1074) * 2 ^ 1074)
    with (Z.abs ((m2 * 2 ^ (e2 + 1074) * T - c * 2 ^ 1074) * 2 ^ 1074))
    by (rewrite Z.abs_mul, (Z.abs_eq (2 ^ 1074)); lia).
  rewrite HD, Z.abs_mul, (Z.abs_eq P) by lia.
  apply Z.mul_le_mono_nonneg_r; lia.
Qed.

(** * Properties *)

(** ** Frame lemmas: which fields a method can touch *)

Lemma exec_bind {A B} (m : M A) (f : A -> M B) h :
  exec (bind m f) h = exec (f (eval m h)) (exec m h).
Proof. unfold exec, eval, bind. destruct (m h); reflexivity. Qed.

Lemma eval_bind {A B} (m : M A) (f : A -> M B) h :
  eval (bind m f) h = eval (f (eval m h)) (exec m h).
Proof. unfold exec, eval, bind. destruct (m h); reflexivity. Qed.

Lemma predictNext_pure h : exec predictNext h = h.
Proof.
  unfold predictNext, exec, bind, read, ret; simpl.
  destruct (currentState (this h)) as [c|]; [|reflexivity].
  destruct (negb _); [reflexivity|].
  destruct (JSMap.get _ c); reflexivity.
Qed.

Lemma scoreResources_pure ps h : exec (scoreResources ps) h = h.
Proof. reflexivity. Qed.

Lemma track_host e s h : host (exec (track e s) h) = host h.
Proof.
  unfold track, exec, bind, read, ret; simpl.
  destruct (currentState (this h)) as [c|]; [|reflexivity].
  destruct (_ && _); reflexivity.
Qed.

Lemma track_currentState e s h :
  currentState (this (exec (track e s) h)) = Some s.
Proof.
  unfold track, exec, bind, read, ret; simpl.
  destruct (currentState (this h)) as [c|]; [|reflexivity].
  destruct (_ && _); reflexivity.
Qed.

Lemma track_transitions e s h :
  transitions (this (exec (track e s) h)) =
  match currentState (this h) with
  | Some c =>
      if truthy_state (Some c) && negb (c =? s)%string then
        let nextMap := match JSMap.get (transitions (this h)) c with
                       | Some m => m
                       | None => JSMap.empty
                       end in
        JSMap.set (transitions (this h)) c
          (JSMap.set nextMap s (incr (count_or_zero (JSMap.get nextMap s))))
      else transitions (this h)
  | None => transitions (this h)
  end.
Proof.
  unfold track, exec, bind, read, ret; simpl.
  destruct (currentState (this h)) as [c|]; [|reflexivity].
  destruct (_ && _); reflexivity.
Qed.

Lemma track_resources e s h :
  resources (this (exec (track e s) h)) = resources (this h).
Proof.
  unfold track, exec, bind, read, ret; simpl.
  destruct (currentState (this h)) as [c|]; [|reflexivity].
  destruct (_ && _); reflexivity.
Qed.

(** ** Map lemmas *)

Lemma get_set_same {V} (m : JSMap.t V) k v : JSMap.get (JSMap.set m k v) k = Some v.
Proof.
  induction m as [|[k' v'] m IH]; simpl.
  - now rewrite String.eqb_refl.
  - destruct (String.eqb k' k) eqn:E; simpl; rewrite E; auto.
Qed.

Lemma get_set_other {V} (m : JSMap.t V) k k' v :
  k <> k' -> JSMap.get (JSMap.set m k v) k' = JSMap.get m k'.
Proof.
  intros Hk. induction m as [|[k0 v0] m IH]; simpl.
  - destruct (String.eqb k k') eqn:E; [apply String.eqb_eq in E; contradiction|reflexivity].
  - destruct (String.eqb k0 k) eqn:E; simpl.
    + apply String.eqb_eq in E; subst k0.
      destruct (String.eqb k k') eqn:E'; [apply String.eqb_eq in E'; contradiction|reflexivity].
    + destruct (String.eqb k0 k'); auto.
Qed.

Lemma keys_set_present {V} (m : JSMap.t V) k v r :
  JSMap.get m k = Some r -> JSMap.keys (JSMap.set m k v) = JSMap.keys m.
Proof.
  induction m as [|[k0 v0] m IH]; simpl; [discriminate|].
  destruct (String.eqb k0 k) eqn:E; simpl; intros H; [reflexivity|].
  f_equal. auto.
Qed.

Lemma in_set {V} (m : JSMap.t V) k v k' v' :
  In (k', v') (JSMap.set m k v) -> In (k', v') m \/ (k' = k /\ v' = v).
Proof.
  induction m as [|[k0 v0] m IH]; simpl.
  - intros [H|[]]. inversion H; auto.
  - destruct (String.eqb k0 k) eqn:E; simpl.
    + apply String.eqb_eq in E; subst k0.
      intros [H|H]; [inversion H; auto | auto].
    + intros [H|H]; [auto|]. destruct (IH H) as [H'|H']; auto.
Qed.

Lemma get_in {V} (m : JSMap.t V) k v : JSMap.get m k = Some v -> In (k, v) m.
Proof.
  induction m as [|[k0 v0] m IH]; simpl; [discriminate|].
  destruct (String.eqb k0 k) eqn:E.
  - apply String.eqb_eq in E; subst. intros H; inversion H; auto.
  - auto.
Qed.

Lemma keys_set_nodup {V} (m : JSMap.t V) k v :
  NoDup (JSMap.keys m) -> NoDup (JSMap.keys (JSMap.set m k v)).
Proof.
  unfold JSMap.keys.
  induction m as [|[k0 v0] m IH]; simpl; intros H.
  - constructor; [intros []|constructor].
  - inversion H as [|? ? Hn Hd]; subst.
    destruct (String.eqb k0 k) eqn:E; simpl.
    + constructor; auto.
    + constructor; auto.
      intros Hin. apply in_map_iff in Hin as [[k1 v1] [E1 Hin]]; simpl in E1; subst k1.
      apply in_set in Hin as [Hin|[Hk _]].
      * apply Hn. apply in_map_iff. exists (k0, v1); auto.
      * subst. rewrite String.eqb_refl in E; discriminate.
Qed.

(** ** The effect of [prefetch] *)

Lemma forEach_fetch_this l h :
  this (exec (forEach (fun c => fetch (url c)) l) h) = this h.
Proof.
  revert h; induction l as [|c l IH]; intros h; [reflexivity|].
  simpl. rewrite exec_bind, IH. reflexivity.
Qed.

Lemma forEach_fetch_fetched l h :
  fetched (host (exec (forEach (fun c => fetch (url c)) l) h)) =
  fetched (host h) ++ map url l.
Proof.
  revert h; induction l as [|c l IH]; intros h; simpl.
  - now rewrite app_nil_r.
  - rewrite exec_bind, IH. simpl. now rewrite <- app_assoc.
Qed.

Lemma same_but_resources_refl h : same_but_resources h h.
Proof. repeat split. Qed.

Lemma same_but_resources_trans h1 h2 h3 :
  same_but_resources h1 h2 -> same_but_resources h2 h3 -> same_but_resources h1 h3.
Proof.
  unfold same_but_resources. intuition congruence.
Qed.

Lemma on_fulfilled_this u h :
  this (exec (on_fulfilled u) h) =
  {| maxPrefetch := maxPrefetch (this h);
     decayRate := decayRate (this h);
     transitions := transitions (this h);
     resources := touch (resources (this h)) u (clock (host h));
     currentState := currentState (this h) |}.
Proof.
  unfold touch. cbv [on_fulfilled exec bind read ret Date_now console_log write_resources].
  cbn. destruct (JSMap.get (resources (this h)) u); cbn; [reflexivity|].
  destruct h as [[] ?]; reflexivity.
Qed.

Lemma on_fulfilled_host u h :
  host (exec (on_fulfilled u) h) =
  {| Math_exp := Math_exp (host h);
     clock := clock (host h);
     fetched := fetched (host h);
     console := console (host h) ++ ["Prefetched: " ++ u]%string |}.
Proof.
  cbv [on_fulfilled exec bind read ret Date_now console_log write_resources].
  cbn. destruct (JSMap.get (resources (this h)) u); reflexivity.
Qed.

Lemma keys_touch rs u t : JSMap.keys (touch rs u t) = JSMap.keys rs.
Proof.
  unfold touch. destruct (JSMap.get rs u) eqn:E; [|reflexivity].
  eapply keys_set_present; eauto.
Qed.

Lemma chain_eval u b h : eval (chain u b) h = Fulfilled.
Proof.
  destruct b.
  - cbv [chain eval bind then_ catch_ ret]. destruct (on_fulfilled u h). reflexivity.
  - reflexivity.
Qed.

Lemma chain_exec_ok u h : exec (chain u true) h = exec (on_fulfilled u) h.
Proof.
  cbv [chain exec bind then_ catch_ ret]. destruct (on_fulfilled u h). reflexivity.
Qed.

Lemma chain_exec_failed u h :
  exec (chain u false) h =
  {| this := this h;
     host := {| Math_exp := Math_exp (host h);
                clock := clock (host h);
                fetched := fetched (host h);
                console := console (host h) ++ ["Prefetch failed: " ++ u]%string |} |}.
Proof. reflexivity. Qed.

Lemma deliver_frame toFetch ps s h :
  same_but_resources h (exec (deliver toFetch ps s) h).
Proof.
  unfold deliver.
  destruct (nth_error toFetch (which s)) as [c|]; [|apply same_but_resources_refl].
  destruct (nth_error ps (which s)) as [[| |]|]; try apply same_but_resources_refl.
  rewrite !exec_bind. unfold ret at 1. unfold exec at 1. cbn [snd].
  destruct (ok s).
  - rewrite chain_exec_ok.
    unfold same_but_resources.
    rewrite on_fulfilled_this, on_fulfilled_host. cbn.
    repeat split. apply keys_touch.
  - rewrite chain_exec_failed. repeat split.
Qed.

Lemma settle_frame toFetch sched : forall ps h,
  same_but_resources h (exec (settle toFetch ps sched) h).
Proof.
  induction sched as [|s sched IH]; intros ps h; simpl.
  - apply same_but_resources_refl.
  - rewrite exec_bind. eapply same_but_resources_trans; [apply deliver_frame|apply IH].
Qed.

Lemma prefetch_exec urls sched h :
  exec (prefetch urls sched) h =
  let toFetch := Arr.slice0 urls (maxPrefetch (this h)) in
  exec (settle toFetch (repeat Pending (List.length toFetch)) sched)
       (exec (forEach (fun c => fetch (url c)) toFetch) h).
Proof.
  unfold prefetch. rewrite exec_bind.
  change (exec (read maxPrefetch) h) with h.
  change (eval (read maxPrefetch) h) with (maxPrefetch (this h)).
  rewrite !exec_bind. reflexivity.
Qed.

Lemma prefetch_eval urls sched h :
  eval (prefetch urls sched) h =
  let toFetch := Arr.slice0 urls (maxPrefetch (this h)) in
  Promise_all
    (eval (settle toFetch (repeat Pending (List.length toFetch)) sched)
          (exec (forEach (fun c => fetch (url c)) toFetch) h)).
Proof.
  unfold prefetch. rewrite eval_bind.
  change (exec (read maxPrefetch) h) with h.
  change (eval (read maxPrefetch) h) with (maxPrefetch (this h)).
  rewrite !eval_bind. reflexivity.
Qed.

Lemma prefetch_frame urls sched h :
  let h' := exec (prefetch urls sched) h in
  maxPrefetch (this h') = maxPrefetch (this h) /\
  decayRate (this h') = decayRate (this h) /\
  transitions (this h') = transitions (this h) /\
  currentState (this h') = currentState (this h) /\
  JSMap.keys (resources (this h')) = JSMap.keys (resources (this h)) /\
  fetched (host h') =
    fetched (host h) ++ map url (Arr.slice0 urls (maxPrefetch (this h))).
Proof.
  intros h'. subst h'. rewrite prefetch_exec. cbv zeta.
  set (toFetch := Arr.slice0 urls (maxPrefetch (this h))).
  destruct (settle_frame toFetch sched (repeat Pending (List.length toFetch))
              (exec (forEach (fun c => fetch (url c)) toFetch) h))
    as (H1 & H2 & H3 & H4 & H5 & H6 & H7).
  rewrite forEach_fetch_this in H1, H2, H3, H4, H7.
  rewrite forEach_fetch_fetched in H5.
  repeat split; assumption.
Qed.

(** ** The transition table of a reachable state *)

Lemma Forall_set {V} (P : string * V -> Prop) (m : JSMap.t V) k v :
  Forall P m -> P (k, v) -> Forall P (JSMap.set m k v).
Proof.
  intros Hm Hk. induction m as [|[k0 v0] m IH]; simpl.
  - constructor; auto.
  - inversion Hm; subst.
    destruct (String.eqb k0 k) eqn:E.
    + apply String.eqb_eq in E; subst. constructor; auto.
    + constructor; auto.
Qed.

Lemma set_not_nil {V} (m : JSMap.t V) k v : JSMap.set m k v <> [].
Proof.
  destruct m as [|[k0 v0] m]; simpl; [discriminate|].
  destruct (String.eqb k0 k); discriminate.
Qed.

Lemma incr_range c : 0 <= c <= two53 -> 1 <= incr c <= two53.
Proof.
  unfold incr. destruct (Z.ltb_spec c two53); unfold two53 in *; lia.
Qed.

Lemma count_or_zero_range (m : JSMap.t Z) k :
  Forall (fun kc => 1 <= snd kc <= two53) m ->
  0 <= count_or_zero (JSMap.get m k) <= two53.
Proof.
  intros Hm. unfold count_or_zero.
  destruct (JSMap.get m k) as [c|] eqn:E; [|unfold two53; lia].
  apply get_in in E. rewrite Forall_forall in Hm. specialize (Hm _ E); simpl in Hm.
  destruct (Z.eqb_spec c 0); lia.
Qed.

Lemma row_ok_set m k :
  row_ok m \/ m = [] ->
  row_ok (JSMap.set m k (incr (count_or_zero (JSMap.get m k)))).
Proof.
  intros Hm.
  assert (Hc : Forall (fun kc => 1 <= snd kc <= two53) m).
  { destruct Hm as [(_ & _ & H)| ->]; [assumption|constructor]. }
  assert (Hd : NoDup (JSMap.keys m)).
  { destruct Hm as [(H & _)| ->]; [assumption|constructor]. }
  split; [|split].
  - now apply keys_set_nodup.
  - apply set_not_nil.
  - apply Forall_set; auto. simpl. apply incr_range, count_or_zero_range, Hc.
Qed.

Lemma table_ok_track e s h :
  table_ok (transitions (this h)) ->
  table_ok (transitions (this (exec (track e s) h))).
Proof.
  intros [Hd Hr]. rewrite track_transitions.
  destruct (currentState (this h)) as [c|]; [|split; assumption].
  destruct (_ && _); [|split; assumption].
  cbv zeta. split.
  - now apply keys_set_nodup.
  - apply Forall_set; auto. simpl. apply row_ok_set.
    destruct (JSMap.get (transitions (this h)) c) as [m|] eqn:E; [left|right; reflexivity].
    apply get_in in E. rewrite Forall_forall in Hr. apply (Hr _ E).
Qed.

Lemma optimize_cases sched h :
  let ps := eval predictNext h in
  let sc := eval (scoreResources ps) h in
  (ps = [] /\
   optimize sched h =
     (Fulfilled, exec (console_log "No predictions yet—need more tracking data.") h)) \/
  (ps <> [] /\ sc = [] /\
   optimize sched h =
     (Fulfilled, exec (console_log "No matching resources to prefetch.") h)) \/
  (ps <> [] /\ sc <> [] /\ optimize sched h = prefetch sc sched h).
Proof.
  intros ps sc. unfold optimize, bind.
  pose proof (predictNext_pure h) as Hp. unfold exec in Hp.
  fold ps in sc. unfold eval in ps.
  destruct (predictNext h) as [ps' h'] eqn:E. simpl in Hp, ps. subst h' ps.
  destruct ps' as [|p ps'].
  - left. split; reflexivity.
  - right. cbn [List.length Nat.eqb].
    change (scoreResources (p :: ps') h) with (sc, h).
    destruct sc as [|c sc'] eqn:Esc.
    + left. repeat split. discriminate.
    + right. repeat split; discriminate.
Qed.

Lemma optimize_transitions sched h :
  transitions (this (exec (optimize sched) h)) = transitions (this h).
Proof.
  unfold exec.
  destruct (optimize_cases sched h) as [[_ E]|[[_ [_ E]]|[_ [_ E]]]];
    rewrite E; try reflexivity.
  apply (prefetch_frame _ sched h).
Qed.

Lemma reachable_table_ok h : reachable h -> table_ok (transitions (this h)).
Proof.
  induction 1 as [options hst|h h' _ IH Hstep].
  - split; constructor.
  - destruct Hstep.
    + now apply table_ok_track.
    + exact IH.
    + now rewrite optimize_transitions.
    + exact IH.
Qed.

(** ** Settlements, one at a time *)

Lemma get_touch_same rs u t :
  JSMap.get (touch rs u t) u =
  match JSMap.get rs u with
  | Some r => Some (refreshed r t)
  | None => None
  end.
Proof.
  unfold touch. destruct (JSMap.get rs u) as [r|] eqn:E; [|exact E].
  apply get_set_same.
Qed.

Lemma get_touch_other rs u u' t :
  u <> u' -> JSMap.get (touch rs u t) u' = JSMap.get rs u'.
Proof.
  intros Hu. unfold touch. destruct (JSMap.get rs u); [|reflexivity].
  now apply get_set_other.
Qed.

Lemma nth_error_update_nth_same {A} (l : list A) n a :
  (n < List.length l)%nat -> nth_error (update_nth n a l) n = Some a.
Proof.
  revert n; induction l as [|b l IH]; intros [|n] Hn; simpl in *; try lia; auto.
  apply IH. lia.
Qed.

Lemma nth_error_update_nth_other {A} (l : list A) n m a :
  n <> m -> nth_error (update_nth n a l) m = nth_error l m.
Proof.
  revert n m; induction l as [|b l IH]; intros [|n] [|m] Hn; simpl; auto.
  congruence.
Qed.

Lemma length_update_nth {A} (l : list A) n a :
  List.length (update_nth n a l) = List.length l.
Proof.
  revert n; induction l as [|b l IH]; intros [|n]; simpl; auto.
Qed.

Lemma deliver_resources toFetch ps s h :
  resources (this (exec (deliver toFetch ps s) h)) =
  match nth_error toFetch (which s), nth_error ps (which s) with
  | Some c, Some Pending =>
      if ok s then touch (resources (this h)) (url c) (at_time s)
      else resources (this h)
  | _, _ => resources (this h)
  end.
Proof.
  unfold deliver.
  destruct (nth_error toFetch (which s)) as [c|]; [|reflexivity].
  destruct (nth_error ps (which s)) as [[| |]|]; try reflexivity.
  rewrite !exec_bind. unfold ret at 1. unfold exec at 1. cbn [snd].
  destruct (ok s).
  - rewrite chain_exec_ok, on_fulfilled_this. reflexivity.
  - reflexivity.
Qed.

Lemma deliver_eval toFetch ps s h :
  eval (deliver toFetch ps s) h =
  match nth_error toFetch (which s), nth_error ps (which s) with
  | Some c, Some Pending => update_nth (which s) Fulfilled ps
  | _, _ => ps
  end.
Proof.
  unfold deliver.
  destruct (nth_error toFetch (which s)) as [c|]; [|reflexivity].
  destruct (nth_error ps (which s)) as [[| |]|]; try reflexivity.
  rewrite !eval_bind. unfold ret at 1. unfold eval at 1. cbn [fst].
  rewrite chain_eval. reflexivity.
Qed.

(** *** The promise returned by [prefetch] *)

Lemma Forall_update_nth {A} (P : A -> Prop) (l : list A) n a :
  Forall P l -> P a -> Forall P (update_nth n a l).
Proof.
  intros Hl Ha. revert n.
  induction Hl as [|b l Hb Hl IH]; intros n.
  - destruct n; constructor.
  - destruct n as [|n]; simpl; constructor; auto.
Qed.

Lemma deliver_no_rejected toFetch ps s h :
  Forall (fun p => p <> Rejected) ps ->
  Forall (fun p => p <> Rejected) (eval (deliver toFetch ps s) h).
Proof.
  intros Hps. rewrite deliver_eval.
  destruct (nth_error toFetch (which s)); [|assumption].
  destruct (nth_error ps (which s)) as [[| |]|]; try assumption.
  apply Forall_update_nth; [assumption|discriminate].
Qed.

Lemma settle_no_rejected toFetch sched : forall ps h,
  Forall (fun p => p <> Rejected) ps ->
  Forall (fun p => p <> Rejected) (eval (settle toFetch ps sched) h).
Proof.
  induction sched as [|s sched IH]; intros ps h Hps; simpl; [assumption|].
  rewrite eval_bind. apply IH. now apply deliver_no_rejected.
Qed.

Lemma settle_length toFetch sched : forall ps h,
  List.length (eval (settle toFetch ps sched) h) = List.length ps.
Proof.
  induction sched as [|s sched IH]; intros ps h; simpl; [reflexivity|].
  rewrite eval_bind, IH, deliver_eval.
  destruct (nth_error toFetch (which s)); [|reflexivity].
  destruct (nth_error ps (which s)) as [[| |]|]; try reflexivity.
  apply length_update_nth.
Qed.

Lemma settle_fulfils toFetch sched : forall ps h i,
  List.length ps = List.length toFetch ->
  Forall (fun p => p <> Rejected) ps ->
  (i < List.length toFetch)%nat ->
  nth_error ps i = Some Fulfilled \/ In i (map which sched) ->
  nth_error (eval (settle toFetch ps sched) h) i = Some Fulfilled.
Proof.
  induction sched as [|s sched IH]; intros ps h i Hlen Hnr Hi Hor; simpl.
  - destruct Hor as [H|[]]. exact H.
  - rewrite eval_bind. apply IH; auto.
    + rewrite deliver_eval.
      destruct (nth_error toFetch (which s)); [|assumption].
      destruct (nth_error ps (which s)) as [[| |]|]; try assumption.
      now rewrite length_update_nth.
    + now apply deliver_no_rejected.
    + rewrite deliver_eval.
      destruct (Nat.eq_dec (which s) i) as [E|E].
      * left. rewrite E.
        destruct (nth_error toFetch i) as [c|] eqn:Ec;
          [|apply nth_error_None in Ec; lia].
        destruct (nth_error ps i) as [[| |]|] eqn:Ep.
        -- apply nth_error_update_nth_same. lia.
        -- exact Ep.
        -- exfalso. rewrite Forall_forall in Hnr.
           apply (Hnr Rejected); [eapply nth_error_In; eauto|reflexivity].
        -- apply nth_error_None in Ep. lia.
      * destruct Hor as [H|[H|H]]; [left|contradiction|right; exact H].
        destruct (nth_error toFetch (which s)); [|assumption].
        destruct (nth_error ps (which s)) as [[| |]|]; try assumption.
        now rewrite nth_error_update_nth_other.
Qed.

Lemma Promise_all_not_rejected ps :
  Forall (fun p => p <> Rejected) ps -> Promise_all ps <> Rejected.
Proof.
  intros H. unfold Promise_all.
  replace (existsb _ ps) with false.
  - destruct (forallb _ ps); discriminate.
  - symmetry. induction H as [|p ps Hp _ IH]; simpl; [reflexivity|].
    rewrite IH. destruct p; auto. contradiction.
Qed.

Lemma Promise_all_fulfilled ps :
  (forall i, (i < List.length ps)%nat -> nth_error ps i = Some Fulfilled) ->
  Promise_all ps = Fulfilled.
Proof.
  intros H.
  assert (Hall : Forall (fun p => p = Fulfilled) ps).
  { apply Forall_forall. intros p Hp. apply In_nth_error in Hp as [i Hi].
    assert (Hlt : (i < List.length ps)%nat) by (apply nth_error_Some; congruence).
    specialize (H i Hlt). congruence. }
  clear H. unfold Promise_all.
  replace (existsb _ ps) with false; [replace (forallb _ ps) with true; auto|].
  - symmetry. induction Hall as [|p ps Hp _ IH]; simpl; [reflexivity|].
    now rewrite Hp, IH.
  - symmetry. induction Hall as [|p ps Hp _ IH]; simpl; [reflexivity|].
    now rewrite Hp, IH.
Qed.

Lemma repeat_Pending_no_rejected n : Forall (fun p => p <> Rejected) (repeat Pending n).
Proof. induction n; simpl; constructor; auto; discriminate. Qed.

(** *** The registry after the batch *)

Lemma succeeds_for_dec_aux toFetch u s :
  succeeds_for toFetch u s \/ ~ succeeds_for toFetch u s.
Proof.
  unfold succeeds_for.
  destruct (ok s); [|right; intros [H _]; discriminate].
  destruct (nth_error toFetch (which s)) as [c|];
    [|right; intros [_ (c & H & _)]; discriminate].
  destruct (String.eqb (url c) u) eqn:E.
  - apply String.eqb_eq in E. left. split; [reflexivity|]. now exists c.
  - apply String.eqb_neq in E. right. intros [_ (c' & H & Hu)].
    injection H as ->. contradiction.
Qed.


Lemma settle_unchanged toFetch u sched : forall ps h,
  (forall s, In s sched -> ~ succeeds_for toFetch u s) ->
  JSMap.get (resources (this (exec (settle toFetch ps sched) h))) u =
  JSMap.get (resources (this h)) u.
Proof.
  induction sched as [|s sched IH]; intros ps h Hfail; simpl; [reflexivity|].
  rewrite exec_bind, IH by (intros s' Hs'; apply Hfail; now right).
  rewrite deliver_resources.
  destruct (nth_error toFetch (which s)) as [c|] eqn:Ec; [|reflexivity].
  destruct (nth_error ps (which s)) as [[| |]|]; try reflexivity.
  destruct (ok s) eqn:Eok; [|reflexivity].
  apply get_touch_other. intros Hu.
  apply (Hfail s); [now left|]. split; [assumption|]. now exists c.
Qed.

Lemma settle_refreshes toFetch u r sched : forall ps h t0,
  JSMap.get (resources (this h)) u = Some (refreshed r t0) ->
  exists t,
    JSMap.get (resources (this (exec (settle toFetch ps sched) h))) u =
      Some (refreshed r t) /\
    (t = t0 \/ exists s, In s sched /\ succeeds_for toFetch u s /\ t = at_time s).
Proof.
  induction sched as [|s sched IH]; intros ps h t0 Ht0; simpl.
  - exists t0. split; [exact Ht0|now left].
  - rewrite exec_bind.
    set (h1 := exec (deliver toFetch ps s) h).
    assert (H1 : JSMap.get (resources (this h1)) u = Some (refreshed r t0) \/
                 (succeeds_for toFetch u s /\
                  JSMap.get (resources (this h1)) u = Some (refreshed r (at_time s)))).
    { subst h1. rewrite deliver_resources.
      destruct (nth_error toFetch (which s)) as [c|] eqn:Ec; [|now left].
      destruct (nth_error ps (which s)) as [[| |]|]; try (now left).
      destruct (ok s) eqn:Eok; [|now left].
      destruct (String.eqb (url c) u) eqn:Eu.
      - apply String.eqb_eq in Eu. right. split.
        + split; [assumption|]. now exists c.
        + rewrite Eu, get_touch_same, Ht0. reflexivity.
      - apply String.eqb_neq in Eu. left. now rewrite get_touch_other. }
    destruct H1 as [H1|[Hs H1]].
    + destruct (IH (eval (deliver toFetch ps s) h) h1 t0 H1) as (t & Hfin & Hsrc).
      exists t. split; [exact Hfin|].
      destruct Hsrc as [Hsrc|(s' & Hin & Hs' & Ht)]; [now left|right].
      exists s'. split; [now right|]. split; assumption.
    + destruct (IH (eval (deliver toFetch ps s) h) h1 (at_time s) H1) as (t & Hfin & Hsrc).
      exists t. split; [exact Hfin|]. right.
      destruct Hsrc as [Hsrc|(s' & Hin & Hs' & Ht)].
      * exists s. split; [now left|]. split; assumption.
      * exists s'. split; [now right|]. split; assumption.
Qed.

(** With each fetch settling at most once, a settlement that reports a
    success for a dispatched candidate is delivered: the entry of its URL
    ends with the time of a successful settlement for that URL. *)
Lemma settle_success toFetch u r sched : forall ps h t0,
  NoDup (map which sched) ->
  (forall s, In s sched -> (which s < List.length toFetch)%nat ->
             nth_error ps (which s) = Some Pending) ->
  JSMap.get (resources (this h)) u = Some (refreshed r t0) ->
  (exists s, In s sched /\ succeeds_for toFetch u s) ->
  exists s,
    In s sched /\ succeeds_for toFetch u s /\
    JSMap.get (resources (this (exec (settle toFetch ps sched) h))) u =
      Some (refreshed r (at_time s)).
Proof.
  induction sched as [|s sched IH]; intros ps h t0 Hnd Hpend Ht0 (s1 & Hin1 & Hs1);
    [destruct Hin1|].
  simpl. rewrite exec_bind.
  set (h1 := exec (deliver toFetch ps s) h).
  set (ps1 := eval (deliver toFetch ps s) h).
  inversion Hnd as [|? ? Hnotin Hnd']; subst.
  assert (Hpend1 : forall s', In s' sched -> (which s' < List.length toFetch)%nat ->
                              nth_error ps1 (which s') = Some Pending).
  { intros s' Hs' Hlt. subst ps1. rewrite deliver_eval.
    destruct (nth_error toFetch (which s)); [|apply Hpend; auto; now right].
    destruct (nth_error ps (which s)) as [[| |]|]; try (apply Hpend; auto; now right).
    rewrite nth_error_update_nth_other; [apply Hpend; auto; now right|].
    intros E. apply Hnotin. rewrite E. now apply in_map. }
  destruct (succeeds_for_dec_aux toFetch u s) as [Hs|Hs].
  - (* [s] itself succeeds for [u] and is delivered *)
    assert (H1 : JSMap.get (resources (this h1)) u = Some (refreshed r (at_time s))).
    { subst h1. rewrite deliver_resources.
      destruct Hs as (Hok & c & Hc & Hu).
      rewrite Hc, (Hpend s (or_introl eq_refl)), Hok.
      - rewrite Hu, get_touch_same, Ht0. reflexivity.
      - apply nth_error_Some. congruence. }
    destruct (settle_refreshes toFetch u r sched ps1 h1 _ H1) as (t & Hfin & Hsrc).
    destruct Hsrc as [->|(s' & Hin & Hs' & ->)].
    + exists s. split; [now left|]. split; assumption.
    + exists s'. split; [now right|]. split; assumption.
  - (* the success is later in the schedule *)
    assert (H1 : JSMap.get (resources (this h1)) u = Some (refreshed r t0)).
    { subst h1. rewrite deliver_resources.
      destruct (nth_error toFetch (which s)) as [c|] eqn:Ec; [|assumption].
      destruct (nth_error ps (which s)) as [[| |]|]; try assumption.
      destruct (ok s) eqn:Eok; [|assumption].
      rewrite get_touch_other; [assumption|].
      intros Hu. apply Hs. split; [assumption|]. now exists c. }
    destruct Hin1 as [->|Hin1]; [contradiction|].
    destruct (IH ps1 h1 t0 Hnd' Hpend1 H1 (ex_intro _ s1 (conj Hin1 Hs1)))
      as (s' & Hin & Hs' & Hfin).
    exists s'. split; [now right|]. split; assumption.
Qed.

(** ** Counts as floats *)

Lemma num_finite c :
  1 <= c <= two53 -> exists m e, Prim2SF (num c) = S754_finite false m e.
Proof.
  intros Hc. unfold num. rewrite of_uint63_spec, Uint63.of_Z_spec.
  rewrite Z.mod_small by (unfold two53 in Hc; change Uint63.wB with (2 ^ 63); lia).
  destruct c as [|p|p]; try lia. cbn [binary_normalize].
  assert (Hd : 1 <= Zpos (digits2_pos p) <= 54).
  { split; [lia|]. change (Zpos (digits2_pos p)) with (Zdigits2 (Zpos p)).
    apply Zdigits2_le; unfold two53 in Hc; lia. }
  destruct (binary_round_cases false p 0 1 54) as (Hs & Hlo & Hhi); [lia|lia|].
  specialize (Hhi ltac:(lia)).
  destruct (binary_round prec emax false p 0) as [s|s| |s m e];
    cbn [signed below] in *; try contradiction.
  - destruct Hlo as [H|H]; [discriminate|contradiction].
  - subst s. eauto.
Qed.

Lemma totalTransitions_signed (nextMap : JSMap.t Z) :
  Forall (fun kc => 1 <= snd kc <= two53) nextMap ->
  signed false (Prim2SF (totalTransitions nextMap)).
Proof.
  unfold totalTransitions, JSMap.values.
  assert (H0 : signed false (Prim2SF 0%float)) by reflexivity.
  revert H0. generalize 0%float as acc.
  induction nextMap as [|[k c] m IH]; intros acc Hacc Hm; simpl; [exact Hacc|].
  inversion Hm as [|? ? Hc Hm']; subst. simpl in Hc.
  apply IH; [|assumption].
  rewrite add_spec. apply SFadd_signed_false; [assumption|].
  destruct (num_finite c Hc) as (mc & ec & ->). reflexivity.
Qed.

Lemma probability_nonneg c total :
  1 <= c <= two53 -> signed false (Prim2SF total) ->
  fnonneg (num c / total)%float.
Proof.
  intros Hc Ht. unfold fnonneg. rewrite div_spec.
  destruct (num_finite c Hc) as (mc & ec & E). rewrite E.
  apply signed_nonneg.
  apply (SFdiv_signed false false); simpl; auto.
Qed.

(** ** Sorting by a non-negative field *)

Section Sorting.

Context {A : Type} (f : A -> float).

Let cmp (a b : A) : float := (f b - f a)%float.
Let R (a b : A) : Prop := fkey (f b) <= fkey (f a).

Lemma insert_Permutation x l : Permutation (Arr.insert cmp x l) (x :: l).
Proof.
  induction l as [|y l IH]; simpl; [reflexivity|].
  destruct (0 <? cmp x y)%float; [|reflexivity].
  rewrite IH. apply perm_swap.
Qed.

Lemma sort_Permutation l : Permutation (Arr.sort cmp l) l.
Proof.
  induction l as [|x l IH]; simpl; [reflexivity|].
  unfold Arr.sort in *. simpl. rewrite insert_Permutation. now constructor.
Qed.

Lemma insert_sorted x l :
  fnonneg (f x) -> Forall (fun a => fnonneg (f a)) l ->
  StronglySorted R l -> StronglySorted R (Arr.insert cmp x l).
Proof.
  intros Hx Hl Hs. induction Hs as [|y l Hs IH Hy]; simpl.
  - constructor; constructor.
  - inversion Hl as [|? ? Hny Hl']; subst.
    unfold cmp at 1. rewrite sub_gt_zero by assumption.
    destruct (Z.ltb_spec (fkey (f x)) (fkey (f y))) as [Hlt|Hge].
    + constructor; [apply IH; assumption|].
      rewrite (insert_Permutation x l). constructor; [unfold R; lia|assumption].
    + constructor; [constructor; assumption|].
      constructor; [exact Hge|].
      eapply Forall_impl; [|exact Hy]. unfold R. intros a Ha. lia.
Qed.

Lemma sort_sorted l :
  Forall (fun a => fnonneg (f a)) l -> StronglySorted R (Arr.sort cmp l).
Proof.
  induction 1 as [|x l Hx Hl IH]; [constructor|].
  unfold Arr.sort in *. simpl. apply insert_sorted; auto.
  eapply Permutation_Forall; [symmetry; apply sort_Permutation|assumption].
Qed.

Lemma sort_descending l :
  Forall (fun a => fnonneg (f a)) l ->
  StronglySorted (fun a b => (f b <=? f a)%float = true) (Arr.sort cmp l).
Proof.
  intros Hl. pose proof (sort_sorted l Hl) as Hs.
  assert (Hn : Forall (fun a => fnonneg (f a)) (Arr.sort cmp l))
    by (eapply Permutation_Forall; [symmetry; apply sort_Permutation|assumption]).
  induction Hs as [|x s Hs IH Hx]; [constructor|].
  inversion Hn as [|? ? Hnx Hns]; subst.
  constructor; [auto|].
  rewrite Forall_forall in *. intros a Ha.
  rewrite leb_key by auto. apply Z.leb_le. apply (Hx a Ha).
Qed.

End Sorting.

(** ** Ranked predictions *)

Lemma truthy_state_Some c : c <> ""%string -> truthy_state (Some c) = true.
Proof. destruct c; [contradiction|reflexivity]. Qed.

Lemma predictNext_eval h c nextMap :
  currentState (this h) = Some c -> c <> ""%string ->
  JSMap.get (transitions (this h)) c = Some nextMap ->
  eval predictNext h =
  Arr.sort by_probability
    (map (fun '(nextState, count) =>
            {| state := nextState;
               probability := (num count / totalTransitions nextMap)%float |})
         nextMap).
Proof.
  intros Hc Hne Hget. unfold predictNext, eval, bind, read; simpl.
  rewrite Hc, (truthy_state_Some c Hne), Hget. reflexivity.
Qed.

Lemma table_ok_row ts c nextMap :
  table_ok ts -> JSMap.get ts c = Some nextMap -> row_ok nextMap.
Proof.
  intros [_ Hrows] Hget. apply get_in in Hget.
  rewrite Forall_forall in Hrows. apply (Hrows _ Hget).
Qed.

(** ** Scores *)

Section Scores.

Local Open Scope float_scope.

(** The specification value of a float constant, by evaluation. *)
Ltac spec_of_constant c :=
  let v := eval vm_compute in (Prim2SF c) in
  change (Prim2SF c) with v.

Lemma unit_interval_below x :
  unit_interval x -> fnonneg x /\ below 1 (Prim2SF x).
Proof.
  intros [H0 H1]. apply zero_leb in H0. split; [assumption|].
  apply (leb_below x 1 1); auto.
  - apply zero_leb. reflexivity.
  - vm_compute. reflexivity.
  - lia.
Qed.

Lemma Reference_exp_decays : exp_decays Reference.exp.
Proof.
  intros x Hx. unfold Reference.exp. rewrite (leb_is_nan_left x 0 Hx).
  rewrite leb_spec, Prim2SF_zero in Hx.
  rewrite (eqb_spec x 0), (eqb_spec x infinity), (ltb_spec x (-746)),
    (ltb_spec 710 x), (ltb_spec x 0).
  spec_of_constant 0. spec_of_constant infinity.
  spec_of_constant (-746). spec_of_constant 710.
  destruct (Prim2SF x) as [s|[]| |[] m e]; simpl in Hx; try discriminate;
    cbn [SFeqb SFltb SFcompare negb].
  - split; reflexivity.
  - split; reflexivity.
  - destruct (match (e ?= -43)%Z with Lt => Gt | Eq => _ | Gt => Lt end);
      try (split; reflexivity).
    all: destruct (_ <=? 1) eqn:E1; [|split; reflexivity].
    all: destruct (0 <=? _) eqn:E0; [|split; reflexivity].
    all: split; assumption.
Qed.

Lemma truthy_spec x :
  truthy x = true ->
  match Prim2SF x with
  | S754_zero _ | S754_nan => False
  | _ => True
  end.
Proof.
  unfold truthy, PrimFloat.is_zero, PrimFloat.is_nan.
  rewrite (eqb_spec x zero), (eqb_spec x x).
  change (Prim2SF zero) with (S754_zero false).
  destruct (Prim2SF x) as [s|s| |s m e]; simpl; auto; discriminate.
Qed.

(** The divisor [cost || 1] is a positive number. *)
Lemma divisor_positive sz lat :
  fnonneg sz -> fnonneg lat -> positive_value (Prim2SF (or_else (sz * lat) 1)).
Proof.
  intros Hs Hl. unfold or_else.
  destruct (truthy (sz * lat)) eqn:T; [|reflexivity].
  apply truthy_spec in T. rewrite mul_spec in *. unfold SF64mul in *.
  destruct (SFmul_nonneg_or_nan _ _ Hs Hl) as [H|H].
  - destruct (SFmul prec emax (Prim2SF sz) (Prim2SF lat)); simpl in *; auto;
      contradiction.
  - rewrite H in T. contradiction.
Qed.

Lemma divisor_atleast r :
  (0 <=? size r) = true -> (0 <=? latency r) = true ->
  cost_floored_or_normal r ->
  atleast (-1019) (Prim2SF (or_else (size r * latency r) 1)) \/
  Prim2SF (or_else (size r * latency r) 1) = S754_infinity false.
Proof.
  intros Hs Hl Hc. unfold or_else.
  destruct (truthy (size r * latency r)) eqn:T.
  - destruct Hc as [Hc|Hc]; [congruence|].
    apply (leb_atleast 0x1p-1020); auto.
    + apply zero_leb. reflexivity.
    + eapply leb_nonneg_right; [|exact Hc]. apply zero_leb. reflexivity.
    + vm_compute. discriminate.
    + lia.
  - left. vm_compute. discriminate.
Qed.

Lemma score_of_range exp rate now p r :
  exp_decays exp ->
  (0 <=? rate) = true -> (rate <? infinity) = true ->
  (now <=? max_time) = true ->
  unit_interval p -> resource_ok now r ->
  (0 <=? score_of exp rate now p r) = true /\
  (cost_floored_or_normal r -> (score_of exp rate now p r <? infinity) = true).
Proof.
  intros Hexp Hr0 Hrfin Hnow Hp (Hsz & Hlat & Hl0 & Hlnow).
  apply zero_leb in Hr0, Hl0.
  pose proof (leb_nonneg_right _ _ Hl0 Hlnow) as Hn0.
  assert (Hmax : fnonneg max_time) by (apply zero_leb; reflexivity).
  assert (Hkmax : (fkey max_time < 2 ^ (53 + 1074))%Z) by (vm_compute; reflexivity).
  (* the clock and the last use are below 2^53 *)
  assert (Bnow : below 53 (Prim2SF now))
    by (apply (leb_below now max_time 53); auto; lia).
  assert (Blast : below 53 (Prim2SF (lastUsed r))).
  { apply (leb_below (lastUsed r) max_time 53); auto; try lia.
    rewrite leb_key in * by assumption. apply Z.leb_le. apply Z.leb_le in Hlnow, Hnow. lia. }
  (* elapsed time *)
  destruct (sub_nonneg now (lastUsed r) 53 Hl0 Hlnow Bnow Blast ltac:(lia))
    as [Hd0 Bd0].
  set (elapsed := (now - lastUsed r) / 1000).
  assert (He : fnonneg elapsed /\ finite_or_zero (Prim2SF elapsed)).
  { unfold fnonneg. subst elapsed. rewrite div_spec. split.
    - apply SFdiv_nonneg; [exact Hd0|eapply below_finite_or_zero; exact Bd0|].
      vm_compute. reflexivity.
    - eapply below_finite_or_zero.
      apply (SFdiv_below _ _ (53 + 1) 10); [exact Bd0| |lia].
      vm_compute. discriminate. }
  destruct He as [He0 Hefin].
  (* the argument of Math.exp is not positive *)
  destruct (opp_nonpos rate Hr0 (ltb_infinity_finite rate Hr0 Hrfin)) as [Hn Hnfin].
  assert (Harg : (- rate * elapsed <=? 0) = true).
  { apply nonpos_leb_zero. rewrite mul_spec. apply SFmul_nonpos; assumption. }
  destruct (unit_interval_below _ (Hexp _ Harg)) as [Hdec0 Bdec].
  destruct (unit_interval_below _ Hp) as [Hp0 Bp].
  (* the numerator *)
  set (decay := exp (- rate * elapsed)) in *.
  assert (Hpd : fnonneg (p * decay) /\ below 3 (Prim2SF (p * decay))).
  { unfold fnonneg. rewrite mul_spec. split.
    - apply SFmul_nonneg; eauto using below_finite_or_zero.
    - apply (SFmul_below _ _ 1 1); auto. lia. }
  destruct Hpd as [Hpd0 Bpd].
  apply zero_leb in Hsz, Hlat.
  pose proof (divisor_positive _ _ Hsz Hlat) as Hdiv.
  unfold score_of. fold elapsed. fold decay.
  set (divisor := or_else (size r * latency r) 1) in *.
  split.
  - apply zero_leb. unfold fnonneg. rewrite div_spec.
    apply SFdiv_nonneg; eauto using below_finite_or_zero.
  - intros Hc. apply finite_ltb_infinity. rewrite div_spec.
    destruct (divisor_atleast r) as [Ha|Hinf];
      [apply zero_leb; assumption|apply zero_leb; assumption|assumption| |].
    + eapply below_finite_or_zero.
      apply (SFdiv_below _ _ 3 (-1019)); [exact Bpd|exact Ha|lia].
    + fold divisor in Hinf. unfold SF64div. rewrite Hinf.
      apply SFdiv_by_infinity. eapply below_finite_or_zero; exact Bpd.
Qed.


End Scores.

(** ** Exact totals *)

Lemma num_integer c : 1 <= c < 2 ^ 53 -> is_integer (Prim2SF (num c)) c.
Proof.
  intros Hc. unfold num. rewrite of_uint63_spec, Uint63.of_Z_spec.
  rewrite Z.mod_small by (change Uint63.wB with (2 ^ 63); lia).
  destruct c as [|p|p]; try lia. cbn [binary_normalize].
  apply binary_round_integer. lia.
Qed.

Lemma Zsum_ge l : Forall (fun c => 1 <= c) l -> 0 <= Zsum l.
Proof. induction 1; simpl; lia. Qed.

Lemma fold_total_integer l : forall acc S,
  (S = 0 /\ Prim2SF acc = S754_zero false) \/
  (1 <= S /\ is_integer (Prim2SF acc) S) ->
  Forall (fun c => 1 <= c) l -> S + Zsum l < 2 ^ 53 ->
  let r := fold_left (fun sum count => (sum + num count)%float) l acc in
  (S + Zsum l = 0 /\ Prim2SF r = S754_zero false) \/
  (1 <= S + Zsum l /\ is_integer (Prim2SF r) (S + Zsum l)).
Proof.
  induction l as [|c l IH]; intros acc S Hacc Hl Hlt; simpl in *.
  - rewrite Z.add_0_r. exact Hacc.
  - inversion Hl as [|? ? Hc Hl']; subst.
    pose proof (Zsum_ge l Hl') as Hs.
    replace (S + (c + Zsum l)) with ((S + c) + Zsum l) by lia.
    apply IH; [|assumption|lia].
    right. split; [destruct Hacc as [[-> _]|[H _]]; lia|].
    rewrite add_spec.
    pose proof (num_integer c ltac:(destruct Hacc as [[-> _]|[H _]]; lia)) as Hn.
    destruct Hacc as [[-> Hz]|[HS Hi]].
    + rewrite Hz. destruct Hn as [(m & e & E) Hk]. unfold SF64add.
      rewrite E in *. cbn [SFadd]. rewrite Z.add_0_l. split; [eauto|exact Hk].
    + apply SFadd_integer; auto using Prim2SF_valid. lia.
Qed.

Lemma totalTransitions_integer nextMap :
  Forall (fun kc => 1 <= snd kc) nextMap -> nextMap <> [] ->
  row_total nextMap < 2 ^ 53 ->
  1 <= row_total nextMap /\
  is_integer (Prim2SF (totalTransitions nextMap)) (row_total nextMap).
Proof.
  intros Hc Hne Hlt. unfold totalTransitions, row_total in *.
  assert (Hv : Forall (fun c => 1 <= c) (JSMap.values nextMap)).
  { unfold JSMap.values. apply Forall_map. exact Hc. }
  destruct (fold_total_integer (JSMap.values nextMap) 0%float 0) as [[H0 _]|H];
    auto.
  exfalso. destruct nextMap as [|[k c] m]; [contradiction|].
  simpl in *. inversion Hv; subst. pose proof (Zsum_ge _ H3). lia.
Qed.

(** ** The sum of the probabilities *)

(** Below 2^53 the total the code computes is the sum of the counts. *)
Lemma totalTransitions_row_total nextMap :
  Forall (fun kc => 1 <= snd kc) nextMap -> nextMap <> [] ->
  row_total nextMap < 2 ^ 53 ->
  totalTransitions nextMap = num (row_total nextMap) /\
  (value (totalTransitions nextMap) == inject_Z (row_total nextMap))%Q.
Proof.
  intros Hc Hnil Hlt.
  destruct (totalTransitions_integer nextMap Hc Hnil Hlt) as [H1 Hint].
  split.
  - apply Prim2SF_inj.
    apply (is_integer_unique _ _ (row_total nextMap)); auto using Prim2SF_valid.
    apply num_integer. lia.
  - unfold value, fkey. destruct Hint as [_ ->].
    unfold Qeq, inject_Z. cbn [Qnum Qden]. rewrite Z.mul_1_r.
    reflexivity.
Qed.

Lemma Zsum_Permutation l l' : Permutation l l' -> Zsum l = Zsum l'.
Proof. induction 1; simpl; lia. Qed.

Lemma probabilities_error total T (l : JSMap.t Z) :
  is_integer (Prim2SF total) T -> 1 <= T < 2 ^ 53 ->
  Forall (fun kc => 1 <= snd kc < 2 ^ 53) l ->
  Forall (fun kc => finite_or_zero (Prim2SF (num (snd kc) / total)%float)) l /\
  Z.abs (Zsum (map (fun kc => fkey (num (snd kc) / total)%float) l) * T
         - row_total l * 2 ^ 1074)
  <= row_total l * 2 ^ 1022.
Proof.
  intros Ht HT Hl. induction Hl as [|[k c] l Hc Hl IH].
  - split; [constructor|]. simpl. lia.
  - destruct IH as [IHf IHe]. cbn [snd] in Hc.
    destruct (SFdiv_integers (Prim2SF (num c)) (Prim2SF total) c T)
      as [(m & e & Hfin) Herr]; auto using Prim2SF_valid, num_integer.
    rewrite <- div_spec in Hfin, Herr.
    split.
    + constructor; [|exact IHf]. cbn [snd]. rewrite Hfin. exact I.
    + unfold row_total, Zsum, JSMap.values in *. cbn [map fold_right snd] in *.
      unfold fkey at 1.
      set (R := key (Prim2SF (num c / total)%float)) in *.
      set (S := fold_right Z.add 0 (map (fun kc => fkey (num (snd kc) / total)%float) l)) in *.
      set (C := fold_right Z.add 0 (map snd l)) in *.
      replace ((R + S) * T - (c + C) * 2 ^ 1074)
        with ((R * T - c * 2 ^ 1074) + (S * T - C * 2 ^ 1074)) by ring.
      eapply Z.le_trans; [apply Z.abs_triangle|]. lia.
Qed.

(** ** As rationals *)

Lemma Qsum_scaled (D : positive) (l : list Z) :
  (Qsum (map (fun k => k # D) l) == Zsum l # D)%Q.
Proof.
  induction l as [|k l IH]; simpl.
  - reflexivity.
  - rewrite IH. unfold Qeq, Qplus. cbn [Qnum Qden].
    rewrite Pos2Z.inj_mul. ring.
Qed.

Lemma counts_below_total (l : JSMap.t Z) B :
  Forall (fun kc => 1 <= snd kc) l -> row_total l < B ->
  Forall (fun kc => 1 <= snd kc < B) l.
Proof.
  unfold row_total, JSMap.values.
  induction 1 as [|[k c] l Hc Hl IH]; intros Hlt; constructor; simpl in *.
  - pose proof (Zsum_ge (map snd l) ltac:(apply Forall_map; exact Hl)). lia.
  - apply IH. pose proof (Zsum_ge (map snd l) ltac:(apply Forall_map; exact Hl)). lia.
Qed.

Lemma within_ulp_of_one (S : Z) :
  Z.abs (S - 2 ^ 1074) <= 2 ^ 1022 ->
  (1 - (1 # 2 ^ 52) <= S # 2 ^ 1074 <= 1 + (1 # 2 ^ 52))%Q.
Proof.
  intros H.
  assert (HD : Zpos (2 ^ 1074)%positive = 2 ^ 1074) by apply Pos2Z.inj_pow.
  assert (HB : Zpos (2 ^ 52)%positive = 2 ^ 52) by apply Pos2Z.inj_pow.
  assert (Hsplit : 2 ^ 1074 = 2 ^ 52 * 2 ^ 1022)
    by (rewrite <- Z.pow_add_r by lia; reflexivity).
  assert (0 < 2 ^ 1022) by (apply Z.pow_pos_nonneg; lia).
  assert (0 < 2 ^ 52) by (apply Z.pow_pos_nonneg; lia).
  revert HD HB. generalize (2 ^ 1074)%positive (2 ^ 52)%positive. intros D B HD HB.
  unfold Qle, Qminus, Qplus, Qopp. cbn [Qnum Qden].
  rewrite ?Pos2Z.inj_mul, HD, HB, Hsplit in *.
  set (a := 2 ^ 1022) in *. set (b := 2 ^ 52) in *.
  split; nia.
Qed.


(** * The claims *)

(** ** Admission bound *)

Lemma slice0_length {A} (l : list A) (e : number) k :
  ToIntegerOrInfinity e = Int k -> 0 <= k ->
  Z.of_nat (List.length (Arr.slice0 l e)) <= k.
Proof.
  intros He Hk. unfold Arr.slice0. rewrite He.
  destruct (Z.ltb_spec k 0); [lia|].
  rewrite length_firstn. lia.
Qed.

Lemma prefetch_dispatches urls sched h :
  fetched (host (exec (prefetch urls sched) h)) =
  fetched (host h) ++ map url (Arr.slice0 urls (maxPrefetch (this h))).
Proof. apply (prefetch_frame urls sched h). Qed.

(** C1 (failing input): an instance constructed with [maxPrefetch: 0]
    holds [maxPrefetch = 3], because [0 || 3] is [3], and [prefetch] on
    four ranked candidates dispatches three fetches where the option asks
    for none. *)
Theorem maxPrefetch_zero_dispatches_three :
  maxPrefetch (this Sample.zero_prefetch) = 3%float /\
  fetched (host (exec (prefetch Sample.four_candidates []) Sample.zero_prefetch)) =
    ["/a"; "/b"; "/c"]%string.
Proof. split; reflexivity. Qed.

(** ** Tracking *)

(** C4: when the tracked state is the current state, [track] leaves the
    transition table as it is (no self-loop edge) and the current state
    is still that state. *)
Theorem track_current_state_is_noop eventType s h :
  currentState (this h) = Some s ->
  transitions (this (exec (track eventType s) h)) = transitions (this h) /\
  currentState (this (exec (track eventType s) h)) = Some s.
Proof.
  intros Hc. split; [|apply track_currentState].
  rewrite track_transitions, Hc, String.eqb_refl, andb_false_r. reflexivity.
Qed.

Lemma track_current_state_is_noop_witness :
  currentState (this Sample.two_pages) = Some "/products"%string /\
  transitions (this (exec (track "click" "/products") Sample.two_pages)) =
    transitions (this Sample.two_pages) /\
  currentState (this (exec (track "click" "/products") Sample.two_pages)) =
    Some "/products"%string.
Proof.
  split; [reflexivity|].
  apply (track_current_state_is_noop "click" "/products" Sample.two_pages).
  reflexivity.
Defined.

(** C5: in every state reachable through [track], [addResource],
    [optimize] and the passing of time, every count stored in the
    transition table is at least 1. *)
Theorem stored_counts_at_least_one h :
  reachable h ->
  Forall (fun row => Forall (fun kc => 1 <= snd kc) (snd row))
         (transitions (this h)).
Proof.
  intros Hr. destruct (reachable_table_ok h Hr) as [_ Hrows].
  eapply Forall_impl; [|exact Hrows].
  intros [src row] (_ & _ & Hc); simpl in *.
  eapply Forall_impl; [|exact Hc]. intros kc Hkc; simpl in *; lia.
Qed.

Lemma stored_counts_at_least_one_witness :
  Forall (fun row => Forall (fun kc => 1 <= snd kc) (snd row))
         (transitions (this Sample.two_pages)).
Proof.
  apply (stored_counts_at_least_one Sample.two_pages).
  unfold Sample.two_pages.
  eapply reachable_step; [|apply step_track].
  eapply reachable_step; [|apply step_track].
  apply reachable_new.
Defined.

(** C10: the empty string counts as no current state. With
    [currentState = ""], [track] records no edge out of [""] and only
    reassigns the current state, and [predictNext] returns the empty
    list. *)
Theorem empty_string_is_no_state eventType s h :
  currentState (this h) = Some ""%string ->
  transitions (this (exec (track eventType s) h)) = transitions (this h) /\
  currentState (this (exec (track eventType s) h)) = Some s /\
  eval predictNext h = [].
Proof.
  intros Hc. split; [|split].
  - rewrite track_transitions, Hc. reflexivity.
  - apply track_currentState.
  - unfold predictNext, eval, bind, read; simpl. rewrite Hc. reflexivity.
Qed.

Lemma empty_string_is_no_state_witness :
  currentState (this Sample.empty_first) = Some ""%string /\
  transitions (this (exec (track "pageview" "/home") Sample.empty_first)) =
    transitions (this Sample.empty_first) /\
  currentState (this (exec (track "pageview" "/home") Sample.empty_first)) =
    Some "/home"%string /\
  eval predictNext Sample.empty_first = [].
Proof.
  split; [reflexivity|].
  apply (empty_string_is_no_state "pageview" "/home" Sample.empty_first).
  reflexivity.
Defined.

(** ** Readers *)

(** C9: [predictNext] and [scoreResources] return with the heap they were
    called on: the transition table, the registry, the current state and
    every other field and host component are unchanged. *)
Theorem predictNext_scoreResources_read_only h predictions :
  exec predictNext h = h /\ exec (scoreResources predictions) h = h.
Proof. split; [apply predictNext_pure|apply scoreResources_pure]. Qed.

(** ** The entry point with nothing to do *)

(** C6: when [predictNext] returns no prediction, or [scoreResources]
    returns no candidate, [optimize] fulfils its promise, dispatches no
    fetch and leaves the instance (table, registry, current state,
    options) as it was. *)
Theorem optimize_without_candidates sched h :
  eval predictNext h = [] \/
  eval (scoreResources (eval predictNext h)) h = [] ->
  eval (optimize sched) h = Fulfilled /\
  this (exec (optimize sched) h) = this h /\
  fetched (host (exec (optimize sched) h)) = fetched (host h).
Proof.
  intros Hempty.
  change (eval (optimize sched) h) with (fst (optimize sched h)).
  unfold exec.
  destruct (optimize_cases sched h) as [[_ E]|[[_ [_ E]]|[Hp [Hs _]]]].
  - rewrite E. repeat split.
  - rewrite E. repeat split.
  - destruct Hempty as [H|H]; contradiction.
Qed.

Lemma optimize_without_candidates_witness :
  eval (optimize []) Sample.two_pages = Fulfilled /\
  this (exec (optimize []) Sample.two_pages) = this Sample.two_pages /\
  fetched (host (exec (optimize []) Sample.two_pages)) =
    fetched (host Sample.two_pages).
Proof.
  apply (optimize_without_candidates [] Sample.two_pages).
  left. reflexivity.
Defined.

(** ** Failure isolation in a batch *)

Lemma deliver_failure_this toFetch ps s h :
  ok s = false -> this (exec (deliver toFetch ps s) h) = this h.
Proof.
  intros Hok. unfold deliver.
  destruct (nth_error toFetch (which s)) as [c|]; [|reflexivity].
  destruct (nth_error ps (which s)) as [[| |]|]; try reflexivity.
  rewrite !exec_bind. unfold ret at 1. unfold exec at 1. cbn [snd].
  rewrite Hok. reflexivity.
Qed.

Lemma refreshed_self r : refreshed r (lastUsed r) = r.
Proof. destruct r; reflexivity. Qed.

(** C8: in a batch of [prefetch] whose fetches settle at most once each,
    in any order: the delivery of a failure leaves the instance untouched;
    a URL none of whose fetches succeeded keeps its registry entry; a
    registered URL with a successful fetch ends with [lastUsed] set to the
    time of a successful settlement for it, whatever happened to the other
    candidates; and the promise returned is never rejected, and is
    fulfilled once every dispatched fetch has settled. *)
Theorem failed_fetch_is_isolated urls sched h :
  NoDup (map which sched) ->
  let toFetch := Arr.slice0 urls (maxPrefetch (this h)) in
  let h' := exec (prefetch urls sched) h in
  (forall ps s h0, ok s = false -> this (exec (deliver toFetch ps s) h0) = this h0) /\
  (forall u, (forall s, In s sched -> ~ succeeds_for toFetch u s) ->
             JSMap.get (resources (this h')) u = JSMap.get (resources (this h)) u) /\
  (forall u r, JSMap.get (resources (this h)) u = Some r ->
               (exists s, In s sched /\ succeeds_for toFetch u s) ->
               exists s, In s sched /\ succeeds_for toFetch u s /\
                         JSMap.get (resources (this h')) u =
                           Some (refreshed r (at_time s))) /\
  eval (prefetch urls sched) h <> Rejected /\
  ((forall i, (i < List.length toFetch)%nat -> In i (map which sched)) ->
   eval (prefetch urls sched) h = Fulfilled).
Proof.
  intros Hnd toFetch h'. subst h'. rewrite prefetch_exec, prefetch_eval. cbv zeta.
  fold toFetch.
  set (h1 := exec (forEach (fun c => fetch (url c)) toFetch) h).
  assert (Hthis : this h1 = this h) by apply forEach_fetch_this.
  split; [|split; [|split; [|split]]].
  - intros ps s h0. apply deliver_failure_this.
  - intros u Hfail. rewrite settle_unchanged by assumption. now rewrite Hthis.
  - intros u r Hget Hsucc.
    apply (settle_success toFetch u r sched _ h1 (lastUsed r)); auto.
    + intros s _ Hlt. apply nth_error_repeat. exact Hlt.
    + now rewrite Hthis, refreshed_self.
  - apply Promise_all_not_rejected, settle_no_rejected, repeat_Pending_no_rejected.
  - intros Hall. apply Promise_all_fulfilled. intros i Hi.
    rewrite settle_length, repeat_length in Hi.
    apply settle_fulfils; auto.
    + apply repeat_length.
    + apply repeat_Pending_no_rejected.
Qed.

Lemma failed_fetch_is_isolated_witness :
  JSMap.get (resources (this (exec (prefetch Batch.candidates Batch.schedule)
                                   Batch.registry))) "/api/a" =
    JSMap.get (resources (this Batch.registry)) "/api/a" /\
  eval (prefetch Batch.candidates Batch.schedule) Batch.registry = Fulfilled.
Proof.
  destruct (failed_fetch_is_isolated Batch.candidates Batch.schedule Batch.registry)
    as (_ & Hkeep & _ & _ & Hall).
  - repeat constructor; simpl; intuition discriminate.
  - split.
    + apply Hkeep. intros s [<-|[<-|[]]] [Hok (c & Hc & Hu)]; simpl in *.
      * injection Hc as <-. discriminate.
      * discriminate.
    + apply Hall. intros [|[|i]] Hi; simpl in *; [auto|auto|].
      exfalso. revert Hi. vm_compute. lia.
Defined.
(** ** Ranked predictions *)

(** C7: when the current state has recorded outgoing transitions,
    [predictNext] returns, in some order, exactly one prediction per entry
    of the current state's row, carrying the destination and
    [count / total], and the list is sorted by probability, largest
    first. [total] is the sum of the row's counts: for a row of fewer than
    2^53 transitions, the range in which a number holds every integer,
    the total the code computes is the number that holds the sum of the
    counts, and its value is that sum. *)
Theorem predictNext_ranked h c nextMap :
  reachable h ->
  currentState (this h) = Some c -> c <> ""%string ->
  JSMap.get (transitions (this h)) c = Some nextMap ->
  Permutation
    (eval predictNext h)
    (map (fun '(nextState, count) =>
            {| state := nextState;
               probability := (num count / totalTransitions nextMap)%float |})
         nextMap) /\
  StronglySorted (fun a b => (probability b <=? probability a)%float = true)
                 (eval predictNext h) /\
  (row_total nextMap < 2 ^ 53 ->
   totalTransitions nextMap = num (row_total nextMap) /\
   (value (totalTransitions nextMap) == inject_Z (row_total nextMap))%Q).
Proof.
  intros Hr Hc Hne Hget.
  rewrite (predictNext_eval h c nextMap Hc Hne Hget).
  destruct (table_ok_row _ _ _ (reachable_table_ok h Hr) Hget) as (_ & Hnil & Hcounts).
  split; [apply (sort_Permutation probability)|]. split.
  - apply (sort_descending probability).
    pose proof (totalTransitions_signed nextMap Hcounts) as Ht.
    apply Forall_forall. intros p Hp.
    apply in_map_iff in Hp as ([d n] & <- & Hin). simpl.
    rewrite Forall_forall in Hcounts.
    apply probability_nonneg; [apply (Hcounts _ Hin)|exact Ht].
  - intros Hlt. apply totalTransitions_row_total; [|exact Hnil|exact Hlt].
    eapply Forall_impl; [|exact Hcounts]. simpl. intros; lia.
Qed.

Lemma predictNext_ranked_witness :
  Permutation
    (eval predictNext Reference.readme_session)
    [ {| state := "/products"; probability := 0.75%float |};
      {| state := "/about"; probability := 0.25%float |} ] /\
  StronglySorted (fun a b => (probability b <=? probability a)%float = true)
                 (eval predictNext Reference.readme_session) /\
  totalTransitions [("/products", 3); ("/about", 1)]%string = num 4 /\
  (value (totalTransitions [("/products", 3%Z); ("/about", 1%Z)]%string) == 4)%Q.
Proof.
  destruct (predictNext_ranked Reference.readme_session "/home"
              [("/products", 3); ("/about", 1)]%string) as (HP & HS & HT).
  - unfold Reference.readme_session. rewrite !exec_bind.
    eapply reachable_step; [|apply step_addResource].
    do 9 (eapply reachable_step; [|apply step_track]).
    apply reachable_new.
  - reflexivity.
  - discriminate.
  - reflexivity.
  - split; [exact HP|]. split; [exact HS|]. apply HT. reflexivity.
Defined.

(** The scenario of the README: /products at 0.75 ranked above /about at
    0.25. *)
Example readme_predictions :
  eval predictNext Reference.readme_session =
  [ {| state := "/products"; probability := 0.75%float |};
    {| state := "/about"; probability := 0.25%float |} ].
Proof. reflexivity. Qed.

(** ** Scores *)

Section ScoreClaims.

Local Open Scope float_scope.

Lemma scoreResources_eval predictions h :
  eval (scoreResources predictions) h =
  Arr.sort by_score
    (flat_map (fun p =>
       flat_map (fun '(u, r) =>
         if includes u (state p)
         then [ {| url := u;
                   score := score_of (Math_exp (host h)) (decayRate (this h))
                                     (clock (host h)) (probability p) r |} ]
         else [])
         (resources (this h)))
       predictions).
Proof. reflexivity. Qed.

Lemma or_else_floor x d : (x =? 0)%float = true -> or_else x d = d.
Proof.
  intros H. unfold or_else, truthy, PrimFloat.is_zero.
  change zero with 0%float. now rewrite H.
Qed.

(** C3 (amended): with probabilities in [0, 1], sizes and latencies
    [>= 0], a finite [decayRate >= 0], a clock that is not behind any
    [lastUsed >= 0] and not beyond the largest time value, and a
    [Math.exp] that maps non-positive arguments into [0, 1],
    [scoreResources] returns a list each of whose entries is the score of
    a prediction and a matching registered resource; when size times
    latency evaluates to 0 the divisor used is 1, the score being
    probability times decay divided by 1, and when it is another number
    the divisor is that number; every score is [>= 0], hence not NaN; and
    a score is finite whenever size times latency is 0 or NaN or at least
    2^-1020. *)
Theorem scoreResources_scores h predictions :
  exp_decays (Math_exp (host h)) ->
  (0 <=? decayRate (this h))%float = true ->
  (decayRate (this h) <? infinity)%float = true ->
  (clock (host h) <=? max_time)%float = true ->
  Forall (fun p => unit_interval (probability p)) predictions ->
  Forall (fun ur => resource_ok (clock (host h)) (snd ur)) (resources (this h)) ->
  Forall (fun c =>
    exists p r,
      In p predictions /\ In (url c, r) (resources (this h)) /\
      includes (url c) (state p) = true /\
      ((size r * latency r =? 0)%float = true ->
       score c =
       (probability p *
        Math_exp (host h)
          (- decayRate (this h) * ((clock (host h) - lastUsed r) / 1000)) / 1)) /\
      (truthy (size r * latency r) = true ->
       score c =
       (probability p *
        Math_exp (host h)
          (- decayRate (this h) * ((clock (host h) - lastUsed r) / 1000)) /
        (size r * latency r))) /\
      (0 <=? score c)%float = true /\
      (cost_floored_or_normal r -> (score c <? infinity)%float = true))
    (eval (scoreResources predictions) h).
Proof.
  intros Hexp Hr0 Hrfin Hnow Hps Hrs.
  rewrite scoreResources_eval.
  eapply Permutation_Forall; [symmetry; apply (sort_Permutation score)|].
  apply Forall_forall. intros c Hc.
  apply in_flat_map in Hc as (p & Hp & Hc).
  apply in_flat_map in Hc as ([u r] & Hur & Hc).
  destruct (includes u (state p)) eqn:Hinc; [|destruct Hc].
  destruct Hc as [<-|[]]. cbn [url score].
  rewrite Forall_forall in Hps, Hrs.
  destruct (score_of_range (Math_exp (host h)) (decayRate (this h)) (clock (host h))
              (probability p) r Hexp Hr0 Hrfin Hnow (Hps _ Hp) (Hrs _ Hur))
    as [Hnn Hfin].
  exists p, r. repeat split; auto.
  - intros H0. unfold score_of. now rewrite (or_else_floor _ 1 H0).
  - intros Ht. unfold score_of, or_else. now rewrite Ht.
Qed.

Lemma scoreResources_scores_witness :
  Forall (fun c =>
    exists p r,
      In p (eval predictNext Sample.ten_seconds_later) /\
      In (url c, r) (resources (this Sample.ten_seconds_later)) /\
      includes (url c) (state p) = true /\
      ((size r * latency r =? 0)%float = true ->
       score c =
       (probability p *
        Reference.exp (- 0.1 * ((1700000010000 - lastUsed r) / 1000)) / 1)) /\
      (truthy (size r * latency r) = true ->
       score c =
       (probability p *
        Reference.exp (- 0.1 * ((1700000010000 - lastUsed r) / 1000)) /
        (size r * latency r))) /\
      (0 <=? score c)%float = true /\
      (cost_floored_or_normal r -> (score c <? infinity)%float = true))
    (eval (scoreResources (eval predictNext Sample.ten_seconds_later))
          Sample.ten_seconds_later).
Proof.
  apply (scoreResources_scores Sample.ten_seconds_later
           (eval predictNext Sample.ten_seconds_later)).
  - exact Reference_exp_decays.
  - reflexivity.
  - reflexivity.
  - reflexivity.
  - vm_compute. repeat constructor.
  - vm_compute. repeat constructor.
Defined.

(** C3 (counterexample): a resource of size 1e-310 and latency 1 has a
    subnormal cost, which is truthy; the score of the prediction
    (/products, 1) for it is [1 / 1e-310], which is [Infinity]. With
    [decayRate = Infinity] and no time elapsed the exponent is
    [-Infinity * 0], NaN, and so is the score, which is not [>= 0]. *)
Lemma subnormal_cost_scores_infinity :
  (Forall (fun p => unit_interval (probability p))
          (eval predictNext Sample.tiny_cost) /\
   Forall (fun ur => (0 <=? size (snd ur))%float = true /\
                     (0 <=? latency (snd ur))%float = true)
          (resources (this Sample.tiny_cost)) /\
   (0 <=? decayRate (this Sample.tiny_cost))%float = true /\
   eval (scoreResources (eval predictNext Sample.tiny_cost)) Sample.tiny_cost =
     [ {| url := "/api/products"; score := infinity |} ] /\
   (infinity <? infinity)%float = false) /\
  ((0 <=? decayRate (this Sample.infinite_decay))%float = true /\
   eval (scoreResources (eval predictNext Sample.infinite_decay))
        Sample.infinite_decay =
     [ {| url := "/api/products"; score := nan |} ] /\
   (0 <=? nan)%float = false).
Proof.
  vm_compute. repeat constructor.
Qed.

End ScoreClaims.

(** ** The probabilities sum to one *)

Lemma sorted_key_sum nextMap total :
  Zsum (map (fun p => fkey (probability p))
            (Arr.sort by_probability
               (map (fun '(nextState, count) =>
                       {| state := nextState;
                          probability := (num count / total)%float |})
                    nextMap))) =
  Zsum (map (fun kc => fkey (num (snd kc) / total)%float) nextMap).
Proof.
  rewrite (Zsum_Permutation _ _
             (Permutation_map _ (sort_Permutation probability _))).
  rewrite map_map. f_equal. apply map_ext. intros [d n]. reflexivity.
Qed.

(** C2: when the current state has recorded outgoing transitions, fewer
    than 2^53 of them in all, every probability returned by [predictNext]
    is a finite number [>= 0] and the exact sum of the returned numbers is
    within 2^-52 of 1. *)
Theorem predictNext_probabilities_sum_to_one h c nextMap :
  reachable h ->
  currentState (this h) = Some c -> c <> ""%string ->
  JSMap.get (transitions (this h)) c = Some nextMap ->
  row_total nextMap < 2 ^ 53 ->
  Forall (fun p => (0 <=? probability p)%float = true /\
                   (probability p <? infinity)%float = true)
         (eval predictNext h) /\
  (1 - (1 # 2 ^ 52) <=
   Qsum (map (fun p => value (probability p)) (eval predictNext h)) <=
   1 + (1 # 2 ^ 52))%Q.
Proof.
  intros Hr Hc Hne Hget Hlt.
  rewrite (predictNext_eval h c nextMap Hc Hne Hget).
  destruct (table_ok_row _ _ _ (reachable_table_ok h Hr) Hget) as (_ & Hnil & Hcounts).
  assert (Hge : Forall (fun kc => 1 <= snd kc) nextMap)
    by (eapply Forall_impl; [|exact Hcounts]; simpl; intros; lia).
  destruct (totalTransitions_integer nextMap Hge Hnil Hlt) as [HT Htot].
  set (total := totalTransitions nextMap) in *.
  destruct (probabilities_error total (row_total nextMap) nextMap Htot
              ltac:(lia) (counts_below_total nextMap _ Hge Hlt)) as [Hfin Herr].
  split.
  - eapply Permutation_Forall; [symmetry; apply (sort_Permutation probability)|].
    apply Forall_forall. intros p Hp.
    apply in_map_iff in Hp as ([d n] & <- & Hin). cbn [probability].
    rewrite Forall_forall in Hfin, Hcounts. split.
    + apply zero_leb. apply probability_nonneg; [apply (Hcounts _ Hin)|].
      destruct Htot as [(m & e & ->) _]. reflexivity.
    + apply finite_ltb_infinity. apply (Hfin _ Hin).
  - unfold value.
    rewrite <- (map_map (fun p => fkey (probability p))
                        (fun k => k # (2 ^ 1074)%positive)).
    rewrite Qsum_scaled, sorted_key_sum.
    apply within_ulp_of_one.
    set (S := Zsum _) in *.
    replace (S * row_total nextMap - row_total nextMap * 2 ^ 1074)
      with ((S - 2 ^ 1074) * row_total nextMap) in Herr by ring.
    rewrite Z.abs_mul, (Z.abs_eq (row_total nextMap)) in Herr by lia.
    apply Z.mul_le_mono_pos_r with (p := row_total nextMap); lia.
Qed.

Lemma predictNext_probabilities_sum_to_one_witness :
  Forall (fun p => (0 <=? probability p)%float = true /\
                   (probability p <? infinity)%float = true)
         (eval predictNext Reference.readme_session) /\
  (1 - (1 # 2 ^ 52) <=
   Qsum (map (fun p => value (probability p))
             (eval predictNext Reference.readme_session)) <=
   1 + (1 # 2 ^ 52))%Q.
Proof.
  apply (predictNext_probabilities_sum_to_one Reference.readme_session "/home"
           [("/products", 3); ("/about", 1)]%string).
  - unfold Reference.readme_session. rewrite !exec_bind.
    eapply reachable_step; [|apply step_addResource].
    do 9 (eapply reachable_step; [|apply step_track]).
    apply reachable_new.
  - reflexivity.
  - discriminate.
  - reflexivity.
  - reflexivity.
Defined.
(** * Further properties of the class *)

(** ** The options *)

Lemma track_options e s h :
  maxPrefetch (this (exec (track e s) h)) = maxPrefetch (this h) /\
  decayRate (this (exec (track e s) h)) = decayRate (this h).
Proof.
  unfold track, exec, bind, read, ret; simpl.
  destruct (currentState (this h)) as [c|]; [|split; reflexivity].
  destruct (_ && _); split; reflexivity.
Qed.

Lemma optimize_frame sched h :
  let h' := exec (optimize sched) h in
  maxPrefetch (this h') = maxPrefetch (this h) /\
  decayRate (this h') = decayRate (this h) /\
  transitions (this h') = transitions (this h) /\
  currentState (this h') = currentState (this h) /\
  JSMap.keys (resources (this h')) = JSMap.keys (resources (this h)).
Proof.
  intros h'. subst h'. unfold exec.
  destruct (optimize_cases sched h) as [[_ E]|[[_ [_ E]]|[_ [_ E]]]];
    rewrite E; try (repeat split; reflexivity).
  destruct (prefetch_frame (eval (scoreResources (eval predictNext h)) h) sched h)
    as (H1 & H2 & H3 & H4 & H5 & _).
  repeat split; assumption.
Qed.





Lemma two_pages_reachable : reachable Sample.two_pages.
Proof.
  unfold Sample.two_pages.
  eapply reachable_step; [|apply step_track].
  eapply reachable_step; [|apply step_track].
  apply reachable_new.
Qed.


(** ** Tracking *)

Lemma count_or_zero_incr c : 0 <= c -> count_or_zero (Some (incr c)) = incr c.
Proof.
  intros Hc. unfold count_or_zero, incr.
  destruct (Z.ltb_spec c two53).
  - destruct (Z.eqb_spec (c + 1) 0); lia.
  - destruct (Z.eqb_spec c 0); lia.
Qed.

Lemma count_or_zero_nonneg (m : JSMap.t Z) k :
  Forall (fun kc => 1 <= snd kc <= two53) m -> 0 <= count_or_zero (JSMap.get m k).
Proof. intros H. apply (count_or_zero_range m k H). Qed.

Lemma count_of_set ts c row a b :
  count_of (JSMap.set ts c row) a b =
  if (c =? a)%string then count_or_zero (JSMap.get row b) else count_of ts a b.
Proof.
  unfold count_of. destruct (String.eqb_spec c a) as [->|Hne].
  - now rewrite get_set_same.
  - now rewrite get_set_other.
Qed.

Lemma row_of_count_of ts c b :
  count_or_zero
    (JSMap.get (match JSMap.get ts c with Some m => m | None => JSMap.empty end) b) =
  count_of ts c b.
Proof. unfold count_of. destruct (JSMap.get ts c); reflexivity. Qed.

(** One [track], read on the counts. *)
Lemma track_count_of e s h a b :
  table_ok (transitions (this h)) ->
  count_of (transitions (this (exec (track e s) h))) a b =
  match currentState (this h) with
  | Some c =>
      if truthy_state (Some c) && negb (c =? s)%string &&
         (c =? a)%string && (s =? b)%string
      then incr (count_of (transitions (this h)) a b)
      else count_of (transitions (this h)) a b
  | None => count_of (transitions (this h)) a b
  end.
Proof.
  intros Hok. rewrite track_transitions.
  destruct (currentState (this h)) as [c|]; [|reflexivity].
  destruct (truthy_state (Some c) && negb (c =? s)%string) eqn:G; [|reflexivity].
  cbv zeta. rewrite count_of_set.
  destruct (String.eqb_spec c a) as [->|Hne]; [|reflexivity].
  set (row := match JSMap.get (transitions (this h)) a with
              | Some m => m | None => JSMap.empty end).
  assert (Hrow : Forall (fun kc => 1 <= snd kc <= two53) row).
  { subst row. destruct (JSMap.get (transitions (this h)) a) as [m|] eqn:E;
      [|constructor].
    apply (table_ok_row _ _ _ Hok E). }
  destruct (String.eqb_spec s b) as [->|Hsb]; cbn [andb].
  - rewrite get_set_same, count_or_zero_incr by (apply count_or_zero_nonneg, Hrow).
    subst row. now rewrite row_of_count_of.
  - rewrite get_set_other by assumption. subst row. apply row_of_count_of.
Qed.

Lemma incr_spec c : incr c = if c <? two53 then c + 1 else c.
Proof. reflexivity. Qed.

(** X2: a [track] that leaves a non-empty current state [c] for another
    state [s] adds one to the count of the edge from [c] to [s] (creating
    the row or the entry when missing; a count of 2^53 stays, as
    2^53 + 1 is not a number), leaves every other count as it was and
    makes [s] the current state. *)
Theorem track_records_transition eventType s h c :
  reachable h ->
  currentState (this h) = Some c -> c <> ""%string -> c <> s ->
  let ts := transitions (this h) in
  let ts' := transitions (this (exec (track eventType s) h)) in
  count_of ts' c s = Z.min 9007199254740992 (count_of ts c s + 1) /\
  1 <= count_of ts' c s /\
  (forall a b, a <> c \/ b <> s -> count_of ts' a b = count_of ts a b) /\
  currentState (this (exec (track eventType s) h)) = Some s.
Proof.
  intros Hr Hc Hne Hcs ts ts'. subst ts ts'.
  pose proof (reachable_table_ok h Hr) as Hok.
  assert (G : truthy_state (Some c) && negb (c =? s)%string = true).
  { rewrite (truthy_state_Some c Hne). apply String.eqb_neq in Hcs. now rewrite Hcs. }
  assert (E : count_of (transitions (this (exec (track eventType s) h))) c s =
              incr (count_of (transitions (this h)) c s)).
  { rewrite (track_count_of eventType s h c s Hok), Hc, G, !String.eqb_refl.
    reflexivity. }
  assert (Hrange : 0 <= count_of (transitions (this h)) c s <= two53).
  { unfold count_of.
    destruct (JSMap.get (transitions (this h)) c) as [m|] eqn:Em;
      [|unfold two53; lia].
    apply count_or_zero_range. apply (table_ok_row _ _ _ Hok Em). }
  split; [|split].
  - rewrite E, incr_spec. unfold two53 in *.
    destruct (Z.ltb_spec (count_of (transitions (this h)) c s) 9007199254740992); lia.
  - rewrite E. now apply incr_range.
  - split; [|apply track_currentState].
    intros a b Hab. rewrite (track_count_of eventType s h a b Hok), Hc, G.
    destruct (String.eqb_spec c a) as [->|]; [|reflexivity].
    destruct (String.eqb_spec s b) as [->|]; [|reflexivity].
    destruct Hab; contradiction.
Qed.

Lemma track_records_transition_witness :
  count_of (transitions (this (exec (track "click" "/home") Sample.two_pages)))
           "/products" "/home" =
    Z.min 9007199254740992
          (count_of (transitions (this Sample.two_pages)) "/products" "/home" + 1) /\
  1 <= count_of (transitions (this (exec (track "click" "/home") Sample.two_pages)))
                "/products" "/home" /\
  (forall a b, a <> "/products"%string \/ b <> "/home"%string ->
     count_of (transitions (this (exec (track "click" "/home") Sample.two_pages))) a b =
     count_of (transitions (this Sample.two_pages)) a b) /\
  currentState (this (exec (track "click" "/home") Sample.two_pages)) =
    Some "/home"%string.
Proof.
  apply (track_records_transition "click" "/home" Sample.two_pages "/products").
  - exact two_pages_reachable.
  - reflexivity.
  - discriminate.
  - discriminate.
Defined.

(** X3: [track] touches the transition table and the current state
    only: the registry, the options and the host (no request, no console
    line, no clock change) are as before, whatever is tracked; and the
    event type plays no part in what it does. *)
Theorem track_leaves_registry_and_host eventType s h :
  (forall eventType', exec (track eventType' s) h = exec (track eventType s) h) /\
  resources (this (exec (track eventType s) h)) = resources (this h) /\
  maxPrefetch (this (exec (track eventType s) h)) = maxPrefetch (this h) /\
  decayRate (this (exec (track eventType s) h)) = decayRate (this h) /\
  host (exec (track eventType s) h) = host h.
Proof.
  split; [reflexivity|].
  split; [apply track_resources|]. split; [apply track_options|].
  split; [apply track_options|apply track_host].
Qed.

(** *** The table counts the history *)

Lemma incr_min n : 0 <= n -> incr (Z.min two53 n) = Z.min two53 (n + 1).
Proof. intros Hn. unfold incr. destruct (Z.ltb_spec (Z.min two53 n) two53); lia. Qed.

Lemma track_all_cons e s l h :
  exec (track_all ((e, s) :: l)) h = exec (track_all l) (exec (track e s) h).
Proof. unfold track_all. simpl. now rewrite exec_bind. Qed.

Lemma follows_cons a b x l :
  follows a b (x :: l) =
  match l with
  | [] => 0
  | y :: _ => (if (x =? a)%string && (y =? b)%string then 1 else 0) + follows a b l
  end.
Proof. reflexivity. Qed.

Lemma follows_nonneg a b l : 0 <= follows a b l.
Proof.
  induction l as [|x l IH]; [reflexivity|]. rewrite follows_cons.
  destruct l as [|y l]; [reflexivity|].
  destruct (_ && _); lia.
Qed.

Lemma track_all_counts a b l : forall h n,
  a <> ""%string -> a <> b ->
  table_ok (transitions (this h)) -> 0 <= n ->
  count_of (transitions (this h)) a b = Z.min two53 n ->
  count_of (transitions (this (exec (track_all l) h))) a b =
  Z.min two53 (n + follows a b (history_from (currentState (this h)) (map snd l))).
Proof.
  induction l as [|[e s] l IH]; intros h n Ha Hab Hok Hn Hcount.
  - simpl. unfold track_all, exec; simpl.
    destruct (currentState (this h)); simpl; rewrite Z.add_0_r; exact Hcount.
  - rewrite track_all_cons.
    pose proof (track_count_of e s h a b Hok) as Hstep.
    pose proof (table_ok_track e s h Hok) as Hok'.
    assert (Hcur : currentState (this (exec (track e s) h)) = Some s)
      by apply track_currentState.
    destruct (currentState (this h)) as [c|] eqn:Ec.
    + cbn [history_from map snd]. rewrite follows_cons.
      destruct (truthy_state (Some c) && negb (c =? s)%string &&
                (c =? a)%string && (s =? b)%string) eqn:G.
      * apply andb_prop in G as [G Gs]. apply andb_prop in G as [G Ga].
        rewrite Ga, Gs. cbn [andb].
        rewrite (IH (exec (track e s) h) (n + 1)); auto; try lia.
        -- rewrite Hcur. cbn [history_from]. f_equal. lia.
        -- rewrite Hstep, Hcount. now apply incr_min.
      * assert (G' : (c =? a)%string && (s =? b)%string = false).
        { destruct (String.eqb_spec c a) as [->|]; [|reflexivity].
          destruct (String.eqb_spec s b) as [->|]; [|reflexivity].
          rewrite (truthy_state_Some a Ha) in G.
          apply String.eqb_neq in Hab. rewrite Hab in G. discriminate. }
        rewrite G'.
        rewrite (IH (exec (track e s) h) n); auto.
        -- rewrite Hcur. reflexivity.
        -- rewrite Hstep. exact Hcount.
    + cbn [history_from map snd].
      rewrite (IH (exec (track e s) h) n); auto.
      * rewrite Hcur. reflexivity.
      * rewrite Hstep. exact Hcount.
Qed.

Lemma track_all_keeps_count a b l : forall h,
  a = ""%string \/ a = b ->
  table_ok (transitions (this h)) ->
  count_of (transitions (this (exec (track_all l) h))) a b =
  count_of (transitions (this h)) a b.
Proof.
  induction l as [|[e s] l IH]; intros h Hab Hok; [reflexivity|].
  rewrite track_all_cons, IH by (auto using table_ok_track).
  rewrite (track_count_of e s h a b Hok).
  destruct (currentState (this h)) as [c|]; [|reflexivity].
  destruct (String.eqb_spec c a) as [->|]; [|now rewrite !andb_false_r].
  destruct (String.eqb_spec s b) as [->|]; [|now rewrite !andb_false_r].
  destruct Hab as [->| ->]; [reflexivity|].
  now rewrite String.eqb_refl, andb_false_r.
Qed.

(** X4: the table counts the navigation history. After any sequence of
    [track] calls on a new instance, the count stored for the edge from
    [a] to [b] is the number of times [b] was tracked directly after [a]
    (capped at 2^53, where a number stops growing by 1); edges out of the
    empty string and self-loops are not counted at all. *)
Theorem table_counts_the_history options hst events a b :
  count_of (transitions (this (exec (track_all events)
                                    {| this := new options; host := hst |}))) a b =
  if (a =? "")%string || (a =? b)%string then 0
  else Z.min two53 (follows a b (map snd events)).
Proof.
  set (h := {| this := new options; host := hst |}).
  assert (Hok : table_ok (transitions (this h))) by (split; constructor).
  destruct (String.eqb_spec a "") as [Ha|Ha]; cbn [orb].
  - rewrite track_all_keeps_count by auto. reflexivity.
  - destruct (String.eqb_spec a b) as [Hab|Hab].
    + rewrite track_all_keeps_count by auto. reflexivity.
    + rewrite (track_all_counts a b events h 0 Ha Hab Hok); [reflexivity|lia|reflexivity].
Qed.

(** ** The shape of the table *)

Lemma keys_set_in {V} (m : JSMap.t V) k v x :
  In x (JSMap.keys (JSMap.set m k v)) -> In x (JSMap.keys m) \/ x = k.
Proof.
  unfold JSMap.keys. intros H. apply in_map_iff in H as ([k1 v1] & <- & Hin).
  apply in_set in Hin as [Hin|[-> _]]; [left|now right].
  apply in_map_iff. now exists (k1, v1).
Qed.

Lemma no_loops_track e s h :
  no_loops (transitions (this h)) ->
  no_loops (transitions (this (exec (track e s) h))).
Proof.
  intros Hn. rewrite track_transitions.
  destruct (currentState (this h)) as [c|]; [|assumption].
  destruct (truthy_state (Some c) && negb (c =? s)%string) eqn:G; [|assumption].
  apply andb_prop in G as [Gt Gs]. cbv zeta.
  apply Forall_set; [assumption|]. cbn [fst snd]. split.
  - intros ->. discriminate.
  - intros Hin. apply keys_set_in in Hin as [Hin| ->].
    + destruct (JSMap.get (transitions (this h)) c) as [m|] eqn:E; [|destruct Hin].
      apply get_in in E. unfold no_loops in Hn. rewrite Forall_forall in Hn.
      apply (Hn _ E). exact Hin.
    + rewrite String.eqb_refl in Gs. discriminate.
Qed.

Lemma reachable_no_loops h : reachable h -> no_loops (transitions (this h)).
Proof.
  induction 1 as [options hst|h h' _ IH Hstep].
  - constructor.
  - destruct Hstep.
    + now apply no_loops_track.
    + exact IH.
    + now rewrite optimize_transitions.
    + exact IH.
Qed.

(** X5: in every reachable state the table holds each source state
    once, never the empty string; each row holds each destination once,
    is not empty, and does not hold its own source state (no
    self-loop). *)
Theorem table_shape h :
  reachable h ->
  NoDup (JSMap.keys (transitions (this h))) /\
  Forall (fun km =>
            fst km <> ""%string /\
            snd km <> [] /\
            NoDup (JSMap.keys (snd km)) /\
            ~ In (fst km) (JSMap.keys (snd km)))
         (transitions (this h)).
Proof.
  intros Hr. destruct (reachable_table_ok h Hr) as [Hd Hrows].
  pose proof (reachable_no_loops h Hr) as Hn. unfold no_loops in Hn.
  split; [exact Hd|].
  rewrite Forall_forall in *. intros km Hin.
  destruct (Hrows km Hin) as (H1 & H2 & _). destruct (Hn km Hin) as [H3 H4].
  auto.
Qed.

Lemma readme_session_reachable : reachable Reference.readme_session.
Proof.
  unfold Reference.readme_session. rewrite !exec_bind.
  eapply reachable_step; [|apply step_addResource].
  do 9 (eapply reachable_step; [|apply step_track]).
  apply reachable_new.
Qed.

Lemma table_shape_witness :
  NoDup (JSMap.keys (transitions (this Reference.readme_session))) /\
  Forall (fun km =>
            fst km <> ""%string /\
            snd km <> [] /\
            NoDup (JSMap.keys (snd km)) /\
            ~ In (fst km) (JSMap.keys (snd km)))
         (transitions (this Reference.readme_session)).
Proof.
  apply (table_shape Reference.readme_session).
  exact readme_session_reachable.
Defined.

(** ** Registering a resource *)

Lemma keys_set_absent {V} (m : JSMap.t V) k v :
  JSMap.get m k = None -> JSMap.keys (JSMap.set m k v) = JSMap.keys m ++ [k].
Proof.
  induction m as [|[k0 v0] m IH]; simpl; [reflexivity|].
  destruct (String.eqb k0 k) eqn:E; [discriminate|].
  intros H. simpl. f_equal. auto.
Qed.

Lemma addResource_resources u metadata h :
  resources (this (exec (addResource u metadata) h)) =
  JSMap.set (resources (this h)) u
    {| size := match metadata with
               | Some {| meta_size := Some v |} => v
               | _ => 100%float
               end;
       latency := match metadata with
                  | Some {| meta_latency := Some v |} => v
                  | _ => 100%float
                  end;
       lastUsed := clock (host h) |}.
Proof. destruct metadata as [[[sz|] [lat|]]|]; reflexivity. Qed.

(** X6: [addResource] stores, under the URL, the size and the latency
    it was given (100 for one that is missing; a given 0 is kept) and the
    current time as [lastUsed], replacing an entry the URL had; a known
    URL keeps its place in the registry and a new one goes last; every
    other entry, the table, the current state, the options and the host
    are as before. *)
Theorem addResource_registers u metadata h :
  let h' := exec (addResource u metadata) h in
  JSMap.get (resources (this h')) u =
    Some {| size := match metadata with
                    | Some {| meta_size := Some v |} => v
                    | _ => 100%float
                    end;
            latency := match metadata with
                       | Some {| meta_latency := Some v |} => v
                       | _ => 100%float
                       end;
            lastUsed := clock (host h) |} /\
  (forall u', u' <> u ->
     JSMap.get (resources (this h')) u' = JSMap.get (resources (this h)) u') /\
  JSMap.keys (resources (this h')) =
    (if JSMap.has (resources (this h)) u
     then JSMap.keys (resources (this h))
     else JSMap.keys (resources (this h)) ++ [u]) /\
  transitions (this h') = transitions (this h) /\
  currentState (this h') = currentState (this h) /\
  maxPrefetch (this h') = maxPrefetch (this h) /\
  decayRate (this h') = decayRate (this h) /\
  host h' = host h.
Proof.
  intros h'. subst h'. rewrite addResource_resources.
  split; [apply get_set_same|].
  split; [intros u' Hu; apply get_set_other; congruence|].
  split; [|repeat split].
  unfold JSMap.has. destruct (JSMap.get (resources (this h)) u) eqn:E.
  - eapply keys_set_present; eauto.
  - now apply keys_set_absent.
Qed.

(** ** What [predictNext] returns *)

Lemma predictNext_cases h :
  eval predictNext h =
  match currentState (this h) with
  | Some c =>
      if truthy_state (Some c)
      then match JSMap.get (transitions (this h)) c with
           | Some nextMap =>
               Arr.sort by_probability
                 (map (fun '(nextState, count) =>
                         {| state := nextState;
                            probability :=
                              (num count / totalTransitions nextMap)%float |})
                      nextMap)
           | None => []
           end
      else []
  | None => []
  end.
Proof.
  unfold predictNext, eval, bind, read; simpl.
  destruct (currentState (this h)) as [c|]; [|reflexivity].
  destruct c as [|a c]; [reflexivity|]. simpl.
  destruct (JSMap.get (transitions (this h)) (String a c)); reflexivity.
Qed.

Lemma truthy_state_spec c : truthy_state (Some c) = negb (c =? "")%string.
Proof. destruct c; reflexivity. Qed.

Lemma sort_nil_iff {A} (cmp : A -> A -> number) l : Arr.sort cmp l = [] <-> l = [].
Proof.
  split; [|intros ->; reflexivity].
  destruct l as [|x l]; [reflexivity|]. unfold Arr.sort. simpl.
  destruct (fold_right (Arr.insert cmp) [] l) as [|y l']; simpl; [discriminate|].
  destruct (0 <? cmp x y)%float; discriminate.
Qed.

(** X7: in a reachable state [predictNext] returns the empty list
    exactly when there is no current state, or it is the empty string, or
    the table has no row for it; a row that exists always yields at least
    one prediction. *)
Theorem predictNext_empty_iff h :
  reachable h ->
  (eval predictNext h = [] <->
   match currentState (this h) with
   | None => True
   | Some c => c = ""%string \/ JSMap.get (transitions (this h)) c = None
   end).
Proof.
  intros Hr. rewrite predictNext_cases.
  destruct (currentState (this h)) as [c|]; [|tauto].
  rewrite truthy_state_spec.
  destruct (String.eqb_spec c "") as [->|Hne]; cbn [negb]; [tauto|].
  destruct (JSMap.get (transitions (this h)) c) as [nextMap|] eqn:E; [|tauto].
  destruct (table_ok_row _ _ _ (reachable_table_ok h Hr) E) as (_ & Hnil & _).
  rewrite sort_nil_iff. split.
  - intros H. apply map_eq_nil in H. contradiction.
  - intros [H|H]; [contradiction|discriminate].
Qed.

Lemma predictNext_empty_iff_witness :
  eval predictNext Sample.two_pages = [] <->
  match currentState (this Sample.two_pages) with
  | None => True
  | Some c => c = ""%string \/ JSMap.get (transitions (this Sample.two_pages)) c = None
  end.
Proof.
  apply (predictNext_empty_iff Sample.two_pages).
  exact two_pages_reachable.
Defined.

Lemma predictNext_states h c nextMap :
  currentState (this h) = Some c -> c <> ""%string ->
  JSMap.get (transitions (this h)) c = Some nextMap ->
  Permutation (map state (eval predictNext h)) (JSMap.keys nextMap).
Proof.
  intros Hc Hne Hget. rewrite (predictNext_eval h c nextMap Hc Hne Hget).
  rewrite (Permutation_map state (sort_Permutation probability _)).
  rewrite map_map. unfold JSMap.keys.
  erewrite map_ext; [reflexivity|]. intros [d n]. reflexivity.
Qed.

(** X8: in a reachable state [predictNext] returns one prediction per
    destination recorded for the current state, no destination twice,
    and never predicts the current state itself. *)
Theorem predictNext_distinct_destinations h :
  reachable h ->
  NoDup (map state (eval predictNext h)) /\
  (forall c nextMap,
     currentState (this h) = Some c -> c <> ""%string ->
     JSMap.get (transitions (this h)) c = Some nextMap ->
     Permutation (map state (eval predictNext h)) (JSMap.keys nextMap)) /\
  (forall c, currentState (this h) = Some c ->
             ~ In c (map state (eval predictNext h))).
Proof.
  intros Hr.
  pose proof (reachable_table_ok h Hr) as Hok.
  pose proof (reachable_no_loops h Hr) as Hn.
  assert (Hcases :
    eval predictNext h = [] \/
    exists c nextMap, currentState (this h) = Some c /\ c <> ""%string /\
                      JSMap.get (transitions (this h)) c = Some nextMap).
  { rewrite predictNext_cases.
    destruct (currentState (this h)) as [c|]; [|now left].
    rewrite truthy_state_spec.
    destruct (String.eqb_spec c "") as [->|Hne]; cbn [negb]; [now left|].
    destruct (JSMap.get (transitions (this h)) c) as [nextMap|] eqn:E; [|now left].
    right. exists c, nextMap. auto. }
  split; [|split].
  - destruct Hcases as [->|(c & nextMap & Hc & Hne & Hget)]; [constructor|].
    eapply Permutation_NoDup;
      [symmetry; apply (predictNext_states h c nextMap Hc Hne Hget)|].
    apply (table_ok_row _ _ _ Hok Hget).
  - intros c nextMap. apply predictNext_states.
  - intros c Hc Hin.
    destruct Hcases as [E|(c' & nextMap & Hc' & Hne & Hget)];
      [rewrite E in Hin; destruct Hin|].
    assert (c' = c) by congruence. subst c'.
    apply (Permutation_in _ (predictNext_states h c nextMap Hc Hne Hget)) in Hin.
    apply get_in in Hget. unfold no_loops in Hn. rewrite Forall_forall in Hn.
    apply (Hn _ Hget). exact Hin.
Qed.

Lemma predictNext_distinct_destinations_witness :
  NoDup (map state (eval predictNext Reference.readme_session)) /\
  (forall c nextMap,
     currentState (this Reference.readme_session) = Some c -> c <> ""%string ->
     JSMap.get (transitions (this Reference.readme_session)) c = Some nextMap ->
     Permutation (map state (eval predictNext Reference.readme_session))
                 (JSMap.keys nextMap)) /\
  (forall c, currentState (this Reference.readme_session) = Some c ->
             ~ In c (map state (eval predictNext Reference.readme_session))).
Proof.
  apply (predictNext_distinct_destinations Reference.readme_session).
  exact readme_session_reachable.
Defined.

(** *** A single destination *)

Lemma div_eucl_multiple q m :
  0 < m -> Z.div_eucl (m * q) m = (q, 0).
Proof.
  intros Hm.
  pose proof (Z.div_mul q m ltac:(lia)) as Hd.
  pose proof (Z.mod_mul q m ltac:(lia)) as Hr.
  rewrite (Z.mul_comm q m) in Hd, Hr.
  unfold Z.div, Z.modulo in Hd, Hr.
  destruct (Z.div_eucl (m * q) m) as [q' r']. simpl in Hd, Hr. congruence.
Qed.

(** A positive finite number divided by itself is 1. *)
Lemma SFdiv_self m e :
  SFdiv prec emax (S754_finite false m e) (S754_finite false m e) = Prim2SF 1.
Proof.
  cbn [SFdiv xorb]. unfold SFdiv_core_binary.
  rewrite !Z.sub_diag.
  change (Z.min (fexp64 0) 0) with (-53).
  change (0 - -53) with 53.
  rewrite Z.shiftl_mul_pow2 by lia.
  rewrite (div_eucl_multiple (2 ^ 53) (Zpos m)) by lia.
  unfold new_location.
  assert (Hloc : (if Z.even (Zpos m) then new_location_even (Zpos m)
                  else new_location_odd (Zpos m)) 0 = loc_Exact)
    by (destruct (Z.even (Zpos m)); reflexivity).
  rewrite Hloc.
  change (2 ^ 53) with (Zpos 4503599627370496 * 2 ^ 1).
  rewrite (binary_round_aux_exact false 4503599627370496 (-53) 1); [reflexivity|lia| |lia].
  reflexivity.
Qed.

Lemma div_self x :
  (exists m e, Prim2SF x = S754_finite false m e) -> (x / x)%float = 1%float.
Proof.
  intros (m & e & E). apply Prim2SF_inj. rewrite div_spec, E. apply SFdiv_self.
Qed.

Lemma zero_add x :
  (exists m e, Prim2SF x = S754_finite false m e) -> (0 + x)%float = x.
Proof.
  intros (m & e & E). apply Prim2SF_inj. rewrite add_spec, E. reflexivity.
Qed.

(** X9: when the current state has a single recorded destination,
    whatever its count, [predictNext] returns that destination alone,
    with probability exactly 1. *)
Theorem single_destination_is_certain h c d n :
  reachable h ->
  currentState (this h) = Some c -> c <> ""%string ->
  JSMap.get (transitions (this h)) c = Some [(d, n)] ->
  eval predictNext h = [ {| state := d; probability := 1%float |} ].
Proof.
  intros Hr Hc Hne Hget.
  rewrite (predictNext_eval h c _ Hc Hne Hget).
  destruct (table_ok_row _ _ _ (reachable_table_ok h Hr) Hget) as (_ & _ & Hcounts).
  inversion Hcounts as [|? ? Hn _]; subst. cbn [snd] in Hn.
  pose proof (num_finite n Hn) as Hfin.
  unfold totalTransitions. cbn [JSMap.values map snd fold_left].
  rewrite (zero_add _ Hfin), (div_self _ Hfin). reflexivity.
Qed.

Lemma single_destination_is_certain_witness :
  eval predictNext (exec (track "pageview" "/home") Sample.two_pages) =
  [ {| state := "/products"; probability := 1%float |} ].
Proof.
  apply (single_destination_is_certain
           (exec (track "pageview" "/home") Sample.two_pages) "/home" "/products" 1).
  - eapply reachable_step; [exact two_pages_reachable|apply step_track].
  - reflexivity.
  - discriminate.
  - reflexivity.
Defined.

(** *** Ranking follows the counts *)

Lemma Zsum_app l1 l2 : Zsum (l1 ++ l2) = Zsum l1 + Zsum l2.
Proof. induction l1; simpl; lia. Qed.

Lemma Zsum_ge0 l : Forall (fun c => 0 <= c) l -> 0 <= Zsum l.
Proof. induction 1; simpl; lia. Qed.

Lemma Zsum_in l x : Forall (fun c => 0 <= c) l -> In x l -> x <= Zsum l.
Proof.
  induction 1 as [|y l Hy Hl IH]; intros Hin; [destruct Hin|].
  pose proof (Zsum_ge0 l Hl).
  simpl. destruct Hin as [->|Hin]; [lia|]. specialize (IH Hin). lia.
Qed.

Lemma two_counts_below_total (nextMap : JSMap.t Z) d1 n1 d2 n2 :
  Forall (fun kc => 1 <= snd kc) nextMap ->
  In (d1, n1) nextMap -> In (d2, n2) nextMap -> n1 <> n2 ->
  n1 + n2 <= row_total nextMap.
Proof.
  intros Hc H1 H2 Hne.
  apply in_split in H1 as (l1 & l2 & ->).
  assert (Hpos : Forall (fun c => 0 <= c) (map snd (l1 ++ (d1, n1) :: l2))).
  { apply Forall_map. eapply Forall_impl; [|exact Hc]. simpl; intros; lia. }
  unfold row_total, JSMap.values in *. rewrite map_app in *. cbn [map snd] in *.
  apply Forall_app in Hpos as [Hp1 Hp2]. inversion Hp2 as [|? ? _ Hp3]; subst.
  rewrite Zsum_app.
  change (Zsum (n1 :: map snd l2)) with (n1 + Zsum (map snd l2)).
  pose proof (Zsum_ge0 _ Hp1). pose proof (Zsum_ge0 _ Hp3).
  apply in_app_or in H2 as [H2|[H2|H2]].
  - apply (in_map snd) in H2. apply (Zsum_in _ _ Hp1) in H2. simpl in H2. lia.
  - congruence.
  - apply (in_map snd) in H2. apply (Zsum_in _ _ Hp3) in H2. simpl in H2. lia.
Qed.

(** With fewer than 2^52 transitions in the row, the quotient of a
    larger count is a strictly larger number. *)
Lemma quotient_strictly_monotone total T n1 n2 :
  is_integer (Prim2SF total) T ->
  1 <= n1 -> n1 < n2 -> n1 + n2 <= T -> T < 2 ^ 52 ->
  fkey (num n1 / total)%float < fkey (num n2 / total)%float.
Proof.
  intros HT H1 H12 Hsum Hlt.
  destruct (SFdiv_integers (Prim2SF (num n1)) (Prim2SF total) n1 T)
    as [_ E1]; auto using Prim2SF_valid, num_integer; try lia.
  { apply num_integer. lia. }
  destruct (SFdiv_integers (Prim2SF (num n2)) (Prim2SF total) n2 T)
    as [_ E2]; auto using Prim2SF_valid, num_integer; try lia.
  { apply num_integer. lia. }
  rewrite <- div_spec in E1, E2. fold (fkey (num n1 / total)) in E1.
  fold (fkey (num n2 / total)) in E2.
  set (K1 := fkey (num n1 / total)) in *. set (K2 := fkey (num n2 / total)) in *.
  change (2 ^ 1074) with (4503599627370496 * 2 ^ 1022) in E1, E2.
  assert (HA : 0 < 2 ^ 1022) by (apply Z.pow_pos_nonneg; lia).
  set (A := 2 ^ 1022) in *.
  change (2 ^ 52) with 4503599627370496 in Hlt.
  apply Z.mul_lt_mono_pos_r with (p := T); [lia|].
  assert (Hx : A <= n2 * A - n1 * A) by nia.
  assert (Hy : n1 * A + n2 * A <= T * A) by nia.
  assert (Hz : T * A < 4503599627370496 * A) by nia.
  lia.
Qed.

Lemma sorted_before {A} (R : A -> A -> Prop) l1 x l2 y :
  StronglySorted R (l1 ++ x :: l2) -> In y l1 -> R y x.
Proof.
  induction l1 as [|z l1 IH]; intros Hs Hin; [destruct Hin|].
  simpl in Hs. inversion Hs as [|? ? Hs' Hz]; subst.
  destruct Hin as [->|Hin]; [|auto].
  rewrite Forall_forall in Hz. apply Hz. apply in_or_app. right. now left.
Qed.

(** X10: ranking follows the counts. With fewer than 2^52 transitions
    recorded for the current state, a destination with a larger count
    gets a strictly larger probability and comes earlier in the list
    [predictNext] returns. *)
Theorem more_frequent_ranks_higher h c nextMap d1 n1 d2 n2 :
  reachable h ->
  currentState (this h) = Some c -> c <> ""%string ->
  JSMap.get (transitions (this h)) c = Some nextMap ->
  row_total nextMap < 2 ^ 52 ->
  In (d1, n1) nextMap -> In (d2, n2) nextMap -> n1 < n2 ->
  exists p1 p2 before between after,
    eval predictNext h = before ++ p2 :: between ++ p1 :: after /\
    state p1 = d1 /\ state p2 = d2 /\
    (probability p1 <? probability p2)%float = true.
Proof.
  intros Hr Hc Hne Hget Hlt Hin1 Hin2 H12.
  rewrite (predictNext_eval h c nextMap Hc Hne Hget).
  destruct (table_ok_row _ _ _ (reachable_table_ok h Hr) Hget) as (_ & Hnil & Hcounts).
  assert (Hge : Forall (fun kc => 1 <= snd kc) nextMap)
    by (eapply Forall_impl; [|exact Hcounts]; simpl; intros; lia).
  destruct (totalTransitions_integer nextMap Hge Hnil ltac:(lia)) as [HT Htot].
  set (total := totalTransitions nextMap) in *.
  set (l := map _ nextMap).
  set (p1 := {| state := d1; probability := (num n1 / total)%float |}).
  set (p2 := {| state := d2; probability := (num n2 / total)%float |}).
  assert (Hnn : Forall (fun p => fnonneg (probability p)) l).
  { apply Forall_forall. intros p Hp. subst l.
    apply in_map_iff in Hp as ([d n] & <- & Hin). cbn [probability].
    rewrite Forall_forall in Hcounts.
    apply probability_nonneg; [apply (Hcounts _ Hin)|].
    destruct Htot as [(m & e & ->) _]. reflexivity. }
  assert (Hl1 : In p1 l) by (subst l; apply in_map_iff; exists (d1, n1); auto).
  assert (Hl2 : In p2 l) by (subst l; apply in_map_iff; exists (d2, n2); auto).
  rewrite Forall_forall in Hge.
  pose proof (Hge _ Hin1) as G1. cbn [snd] in G1.
  assert (Hkey : fkey (probability p1) < fkey (probability p2)).
  { apply (quotient_strictly_monotone total (row_total nextMap)); auto.
    apply (two_counts_below_total nextMap d1 n1 d2 n2); auto.
    - apply Forall_forall. exact Hge.
    - lia. }
  pose proof (sort_sorted probability l Hnn) as Hs.
  pose proof (sort_Permutation probability l) as Hp.
  change (Arr.sort (fun a b => (probability b - probability a)%float) l)
    with (Arr.sort by_probability l) in Hs, Hp.
  assert (Hs1 : In p1 (Arr.sort by_probability l))
    by (eapply Permutation_in; [symmetry; exact Hp|exact Hl1]).
  assert (Hs2 : In p2 (Arr.sort by_probability l))
    by (eapply Permutation_in; [symmetry; exact Hp|exact Hl2]).
  apply in_split in Hs2 as (before & rest & E). rewrite E in Hs1, Hs.
  apply in_app_or in Hs1 as [Hb|[Hb|Hb]].
  - pose proof (sorted_before _ _ _ _ _ Hs Hb) as Hle. cbv beta in Hle. lia.
  - rewrite Hb in Hkey. lia.
  - apply in_split in Hb as (between & after & ->).
    exists p1, p2, before, between, after.
    split; [exact E|]. split; [reflexivity|]. split; [reflexivity|].
    rewrite Forall_forall in Hnn.
    rewrite ltb_key by (apply Hnn; assumption).
    now apply Z.ltb_lt.
Qed.

Lemma more_frequent_ranks_higher_witness :
  exists p1 p2 before between after,
    eval predictNext Reference.readme_session =
      before ++ p2 :: between ++ p1 :: after /\
    state p1 = "/about"%string /\ state p2 = "/products"%string /\
    (probability p1 <? probability p2)%float = true.
Proof.
  apply (more_frequent_ranks_higher Reference.readme_session "/home"
           [("/products", 3); ("/about", 1)]%string "/about" 1 "/products" 3).
  - exact readme_session_reachable.
  - reflexivity.
  - discriminate.
  - reflexivity.
  - reflexivity.
  - right. left. reflexivity.
  - left. reflexivity.
  - reflexivity.
Defined.

(** *** Ties *)

Lemma sort_of_descending {A} (f : A -> float) l :
  Forall (fun a => fnonneg (f a)) l ->
  StronglySorted (fun a b => fkey (f b) <= fkey (f a)) l ->
  Arr.sort (fun a b => (f b - f a)%float) l = l.
Proof.
  intros Hn Hs. induction Hs as [|x l Hs IH Hx]; [reflexivity|].
  inversion Hn as [|? ? Hnx Hnl]; subst.
  unfold Arr.sort in *. cbn [fold_right]. rewrite (IH Hnl).
  destruct l as [|y l]; [reflexivity|].
  inversion Hnl as [|? ? Hny _]; subst. inversion Hx as [|? ? Hxy _]; subst.
  cbn [Arr.insert]. rewrite sub_gt_zero by assumption.
  destruct (Z.ltb_spec (fkey (f x)) (fkey (f y))); [lia|reflexivity].
Qed.

Lemma constant_sorted {A} (f : A -> float) l v :
  Forall (fun a => f a = v) l ->
  StronglySorted (fun a b => fkey (f b) <= fkey (f a)) l.
Proof.
  induction 1 as [|x l Hx Hl IH]; constructor; [assumption|].
  eapply Forall_impl; [|exact Hl]. cbv beta. intros a Ha. rewrite Ha, Hx. lia.
Qed.

(** X11: ties keep the order of first observation. When every
    destination of the current state has been observed the same number of
    times, [predictNext] lists them in the order in which they were first
    recorded. *)
Theorem ties_keep_first_seen_order h c nextMap n :
  reachable h ->
  currentState (this h) = Some c -> c <> ""%string ->
  JSMap.get (transitions (this h)) c = Some nextMap ->
  Forall (fun kc => snd kc = n) nextMap ->
  map state (eval predictNext h) = JSMap.keys nextMap.
Proof.
  intros Hr Hc Hne Hget Heq.
  rewrite (predictNext_eval h c nextMap Hc Hne Hget).
  destruct (table_ok_row _ _ _ (reachable_table_ok h Hr) Hget) as (_ & _ & Hcounts).
  pose proof (totalTransitions_signed nextMap Hcounts) as Ht.
  set (total := totalTransitions nextMap) in *.
  set (l := map _ nextMap).
  assert (Hv : Forall (fun p => probability p = (num n / total)%float) l).
  { apply Forall_forall. intros p Hp. subst l.
    apply in_map_iff in Hp as ([d k] & <- & Hin). cbn [probability].
    rewrite Forall_forall in Heq. specialize (Heq _ Hin). cbn [snd] in Heq.
    now subst k. }
  assert (Hnn : Forall (fun p => fnonneg (probability p)) l).
  { apply Forall_forall. intros p Hp. subst l.
    apply in_map_iff in Hp as ([d k] & <- & Hin). cbn [probability].
    rewrite Forall_forall in Hcounts.
    apply probability_nonneg; [apply (Hcounts _ Hin)|exact Ht]. }
  assert (E : Arr.sort by_probability l = l).
  { apply (sort_of_descending probability l Hnn).
    apply (constant_sorted probability l _ Hv). }
  rewrite E. subst l. rewrite map_map. unfold JSMap.keys.
  apply map_ext. intros [d k]. reflexivity.
Qed.

Lemma ties_keep_first_seen_order_witness :
  map state (eval predictNext Scenario.two_ties) = ["/b"; "/a"]%string.
Proof.
  apply (ties_keep_first_seen_order Scenario.two_ties "/home"
           [("/b", 1); ("/a", 1)]%string 1).
  - unfold Scenario.two_ties. rewrite !exec_bind.
    do 5 (eapply reachable_step; [|apply step_track]).
    apply reachable_new.
  - reflexivity.
  - discriminate.
  - reflexivity.
  - repeat constructor.
Defined.

(** ** What [scoreResources] returns *)

Lemma prefix_spec sub s :
  String.prefix sub s = true <-> exists after, s = (sub ++ after)%string.
Proof.
  revert s. induction sub as [|a sub IH]; intros s.
  - split; [intros _; now exists s|intros _; destruct s; reflexivity].
  - destruct s as [|b s]; [split; [discriminate|intros [t Ht]; discriminate]|].
    cbn [String.prefix]. destruct (ascii_dec a b) as [->|Hne].
    + rewrite IH. split; intros [t Ht]; exists t; [simpl; now rewrite Ht|].
      simpl in Ht. now injection Ht.
    + split; [discriminate|]. intros [t Ht]. simpl in Ht. injection Ht as Hab _.
      symmetry in Hab. contradiction.
Qed.

Lemma includes_spec s sub : includes s sub = true <-> substring_of sub s.
Proof.
  unfold substring_of. induction s as [|a s IH]; cbn [includes].
  - destruct (String.prefix sub "") eqn:E.
    + split; [intros _|intros _; reflexivity].
      apply prefix_spec in E as [t Ht]. now exists ""%string, t.
    + split; [discriminate|]. intros (b & t & Ht). exfalso.
      destruct b; [|discriminate]. cbn [append] in Ht.
      assert (String.prefix sub "" = true) by (apply prefix_spec; now exists t).
      congruence.
  - destruct (String.prefix sub (String a s)) eqn:E.
    + split; [intros _|intros _; reflexivity].
      apply prefix_spec in E as [t Ht]. now exists ""%string, t.
    + rewrite IH. split.
      * intros (b & t & ->). now exists (String a b), t.
      * intros (b & t & Ht). destruct b as [|a' b].
        -- cbn [append] in Ht.
           assert (String.prefix sub (String a s) = true)
             by (apply prefix_spec; now exists t).
           congruence.
        -- cbn [append] in Ht. injection Ht as _ ->. now exists b, t.
Qed.


Lemma flat_map_nil_iff {A B} (f : A -> list B) l :
  flat_map f l = [] <-> forall x, In x l -> f x = [].
Proof.
  induction l as [|a l IH]; simpl.
  - split; [intros _ x []|reflexivity].
  - split.
    + intros H. apply app_eq_nil in H as [Ha Hl]. intros x [<-|Hx]; [exact Ha|].
      now apply IH.
    + intros H. rewrite (H a (or_introl eq_refl)). simpl.
      apply IH. intros x Hx. apply H. now right.
Qed.

(** X12: [scoreResources] returns nothing exactly when no registered
    URL contains the state of any of the predictions as a substring; in
    particular for an empty list of predictions and for an empty
    registry. *)
Theorem scoreResources_empty_iff h predictions :
  eval (scoreResources predictions) h = [] <->
  (forall p u r, In p predictions -> In (u, r) (resources (this h)) ->
                 ~ substring_of (state p) u).
Proof.
  rewrite scoreResources_eval, sort_nil_iff, flat_map_nil_iff. split.
  - intros H p u r Hp Hur Hsub. specialize (H p Hp).
    rewrite flat_map_nil_iff in H. specialize (H (u, r) Hur). cbv beta iota in H.
    apply includes_spec in Hsub. rewrite Hsub in H. discriminate.
  - intros H p Hp. apply flat_map_nil_iff. intros [u r] Hur.
    destruct (includes u (state p)) eqn:E; [|reflexivity].
    exfalso. apply (H p u r Hp Hur). now apply includes_spec.
Qed.

(** X13: on the inputs [scoreResources] is meant for (probabilities in
    [0, 1], sizes and latencies [>= 0], a finite [decayRate >= 0], a
    clock not behind any [lastUsed >= 0], a [Math.exp] that maps
    non-positive arguments into [0, 1]) the list it returns is sorted by
    score, largest first. *)
Theorem scoreResources_ranked h predictions :
  exp_decays (Math_exp (host h)) ->
  (0 <=? decayRate (this h))%float = true ->
  (decayRate (this h) <? infinity)%float = true ->
  (clock (host h) <=? max_time)%float = true ->
  Forall (fun p => unit_interval (probability p)) predictions ->
  Forall (fun ur => resource_ok (clock (host h)) (snd ur)) (resources (this h)) ->
  StronglySorted (fun a b => (score b <=? score a)%float = true)
                 (eval (scoreResources predictions) h).
Proof.
  intros Hexp Hr0 Hrfin Hnow Hps Hrs.
  rewrite scoreResources_eval. apply (sort_descending score).
  apply Forall_forall. intros c Hc.
  apply in_flat_map in Hc as (p & Hp & Hc).
  apply in_flat_map in Hc as ([u r] & Hur & Hc).
  destruct (includes u (state p)); [|destruct Hc].
  destruct Hc as [<-|[]]. cbn [score].
  rewrite Forall_forall in Hps, Hrs.
  apply zero_leb.
  apply (score_of_range (Math_exp (host h)) (decayRate (this h)) (clock (host h))
           (probability p) r Hexp Hr0 Hrfin Hnow (Hps _ Hp) (Hrs _ Hur)).
Qed.

Lemma scoreResources_ranked_witness :
  StronglySorted (fun a b => (score b <=? score a)%float = true)
    (eval (scoreResources (eval predictNext Scenario.two_resources))
          Scenario.two_resources).
Proof.
  apply (scoreResources_ranked Scenario.two_resources
           (eval predictNext Scenario.two_resources)).
  - exact Reference_exp_decays.
  - reflexivity.
  - reflexivity.
  - reflexivity.
  - vm_compute. repeat constructor.
  - vm_compute. repeat constructor.
Defined.

(** *** One entry per match *)

Lemma registry_keys_unique h : reachable h -> NoDup (JSMap.keys (resources (this h))).
Proof.
  induction 1 as [options hst|h h' _ IH Hstep]; [constructor|].
  destruct Hstep as [e s h0|u m h0|sched h0|t h0].
  - now rewrite track_resources.
  - rewrite addResource_resources. now apply keys_set_nodup.
  - pose proof (optimize_frame sched h0) as H. cbv zeta in H.
    destruct H as (_ & _ & _ & _ & ->). exact IH.
  - exact IH.
Qed.

Lemma get_none_not_in {V} (m : JSMap.t V) k :
  JSMap.get m k = None <-> ~ In k (JSMap.keys m).
Proof.
  induction m as [|[k0 v0] m IH]; simpl; [tauto|].
  destruct (String.eqb_spec k0 k) as [->|Hne].
  - split; [discriminate|]. intros H. exfalso. apply H. now left.
  - rewrite IH. split; [intros H [E|Hin]; [contradiction|auto]|tauto].
Qed.

Lemma count_matches (rs : JSMap.t Resource) (f : string -> Resource -> float) s u :
  NoDup (JSMap.keys rs) ->
  count_occ string_dec
    (map url (flat_map (fun '(u', r) =>
                          if includes u' s then [ {| url := u'; score := f u' r |} ]
                          else []) rs)) u =
  if JSMap.has rs u && includes u s then 1%nat else 0%nat.
Proof.
  unfold JSMap.has. induction rs as [|[u0 r0] rs IH]; intros Hnd; [reflexivity|].
  inversion Hnd as [|? ? Hnotin Hnd']; subst.
  cbn [flat_map JSMap.get]. rewrite map_app, count_occ_app, (IH Hnd').
  destruct (String.eqb_spec u0 u) as [->|Hne].
  - apply get_none_not_in in Hnotin. rewrite Hnotin. cbn [andb].
    destruct (includes u s); cbn [map url count_occ]; [|reflexivity].
    destruct (string_dec u u); [reflexivity|contradiction].
  - destruct (includes u0 s); cbn [map url count_occ]; [|reflexivity].
    destruct (string_dec u0 u); [contradiction|reflexivity].
Qed.

(** X14: [scoreResources] lists a registered URL once for every
    prediction whose state it contains, so a URL that matches several
    predictions is a candidate several times; a URL that is not
    registered is never listed. *)
Theorem scoreResources_lists_url_per_match h predictions u :
  reachable h ->
  count_occ string_dec (map url (eval (scoreResources predictions) h)) u =
  if JSMap.has (resources (this h)) u
  then List.length (filter (fun p => includes u (state p)) predictions)
  else 0%nat.
Proof.
  intros Hr. pose proof (registry_keys_unique h Hr) as Hnd.
  rewrite scoreResources_eval.
  rewrite (proj1 (Permutation_count_occ string_dec _ _)
             (Permutation_map url (sort_Permutation score _))).
  induction predictions as [|p ps IH].
  - simpl. destruct (JSMap.has _ u); reflexivity.
  - cbn [flat_map filter]. rewrite map_app, count_occ_app, IH.
    rewrite (count_matches (resources (this h))
               (fun _ r => score_of (Math_exp (host h)) (decayRate (this h))
                                    (clock (host h)) (probability p) r)
               (state p) u Hnd).
    destruct (JSMap.has (resources (this h)) u); cbn [andb]; [|reflexivity].
    destruct (includes u (state p)); reflexivity.
Qed.

Lemma scoreResources_lists_url_per_match_witness :
  count_occ string_dec
    (map url (eval (scoreResources (eval predictNext Reference.readme_session))
                   Reference.readme_session)) "/api/products"%string =
  if JSMap.has (resources (this Reference.readme_session)) "/api/products"%string
  then List.length (filter (fun p => includes "/api/products"%string (state p))
                           (eval predictNext Reference.readme_session))
  else 0%nat.
Proof.
  apply (scoreResources_lists_url_per_match Reference.readme_session
           (eval predictNext Reference.readme_session) "/api/products"%string).
  exact readme_session_reachable.
Defined.

(** ** The batch [prefetch] dispatches *)

Lemma firstn_min {A} (l : list A) k :
  0 <= k ->
  firstn (Z.to_nat (Z.min k (Z.of_nat (List.length l)))) l = firstn (Z.to_nat k) l.
Proof.
  intros Hk. destruct (Z.le_gt_cases k (Z.of_nat (List.length l))) as [H|H].
  - now rewrite Z.min_l.
  - rewrite Z.min_r, Nat2Z.id, firstn_all by lia.
    symmetry. apply firstn_all2. lia.
Qed.

Lemma slice0_cases {A} (l : list A) (e : number) :
  Arr.slice0 l e =
  match ToIntegerOrInfinity e with
  | Int k => if k <? 0 then firstn (List.length l - Z.to_nat (- k)) l
             else firstn (Z.to_nat k) l
  | PosInf => l
  | NegInf => []
  end.
Proof.
  unfold Arr.slice0. destruct (ToIntegerOrInfinity e) as [k| |].
  - destruct (Z.ltb_spec k 0).
    + f_equal. lia.
    + now apply firstn_min.
  - rewrite Nat2Z.id. apply firstn_all.
  - reflexivity.
Qed.

(** X15: [prefetch] issues its requests before any callback runs, for a
    prefix of the candidates in their ranked order: the first [k] when
    [maxPrefetch] truncates to an integer [k >= 0] (all of them when
    there are fewer), all but the last [-k] when it truncates to a
    negative [k], all of them when it is [Infinity] and none when it is
    [-Infinity]. Settlements add no request. *)
Theorem prefetch_batch urls sched h :
  fetched (host (exec (prefetch urls sched) h)) =
  fetched (host h) ++
  map url
    match ToIntegerOrInfinity (maxPrefetch (this h)) with
    | Int k => if k <? 0 then firstn (List.length urls - Z.to_nat (- k)) urls
               else firstn (Z.to_nat k) urls
    | PosInf => urls
    | NegInf => []
    end.
Proof.
  pose proof (prefetch_frame urls sched h) as H. cbv zeta in H.
  destruct H as (_ & _ & _ & _ & _ & ->). now rewrite slice0_cases.
Qed.

(** *** What a batch can change *)

Lemma touch_costs rs u t u' :
  option_map (fun r => (size r, latency r)) (JSMap.get (touch rs u t) u') =
  option_map (fun r => (size r, latency r)) (JSMap.get rs u').
Proof.
  destruct (String.eqb_spec u u') as [->|Hne].
  - rewrite get_touch_same. destruct (JSMap.get rs u'); reflexivity.
  - now rewrite get_touch_other.
Qed.

Lemma deliver_costs toFetch ps s h u :
  option_map (fun r => (size r, latency r))
             (JSMap.get (resources (this (exec (deliver toFetch ps s) h))) u) =
  option_map (fun r => (size r, latency r)) (JSMap.get (resources (this h)) u).
Proof.
  rewrite deliver_resources.
  destruct (nth_error toFetch (which s)) as [c|]; [|reflexivity].
  destruct (nth_error ps (which s)) as [[| |]|]; try reflexivity.
  destruct (ok s); [apply touch_costs|reflexivity].
Qed.

Lemma settle_costs toFetch sched u : forall ps h,
  option_map (fun r => (size r, latency r))
             (JSMap.get (resources (this (exec (settle toFetch ps sched) h))) u) =
  option_map (fun r => (size r, latency r)) (JSMap.get (resources (this h)) u).
Proof.
  induction sched as [|s sched IH]; intros ps h; [reflexivity|].
  simpl. rewrite exec_bind, IH. apply deliver_costs.
Qed.

Lemma prefetch_costs urls sched h u :
  option_map (fun r => (size r, latency r))
             (JSMap.get (resources (this (exec (prefetch urls sched) h))) u) =
  option_map (fun r => (size r, latency r)) (JSMap.get (resources (this h)) u).
Proof.
  rewrite prefetch_exec. cbv zeta. rewrite settle_costs, forEach_fetch_this.
  reflexivity.
Qed.

(** X16: whatever the network reports, [prefetch] changes nothing of
    the instance but [lastUsed] fields: the options, the table and the
    current state are as before, the registry holds the same URLs in the
    same order, none added for a fetched URL that was not registered, and
    every entry keeps its size and its latency. *)
Theorem prefetch_only_refreshes_recency urls sched h :
  let h' := exec (prefetch urls sched) h in
  maxPrefetch (this h') = maxPrefetch (this h) /\
  decayRate (this h') = decayRate (this h) /\
  transitions (this h') = transitions (this h) /\
  currentState (this h') = currentState (this h) /\
  JSMap.keys (resources (this h')) = JSMap.keys (resources (this h)) /\
  (forall u,
     option_map (fun r => (size r, latency r)) (JSMap.get (resources (this h')) u) =
     option_map (fun r => (size r, latency r)) (JSMap.get (resources (this h)) u)).
Proof.
  intros h'. subst h'.
  pose proof (prefetch_frame urls sched h) as H. cbv zeta in H.
  destruct H as (H1 & H2 & H3 & H4 & H5 & _).
  repeat (split; [assumption|]). intros u. apply prefetch_costs.
Qed.

(** *** When the batch is over *)

Lemma settle_pending toFetch sched i : forall ps h,
  nth_error ps i = Some Pending -> ~ In i (map which sched) ->
  nth_error (eval (settle toFetch ps sched) h) i = Some Pending.
Proof.
  induction sched as [|s sched IH]; intros ps h Hi Hnot; [exact Hi|].
  simpl. rewrite eval_bind. apply IH; [|intros H; apply Hnot; now right].
  rewrite deliver_eval.
  destruct (nth_error toFetch (which s)); [|exact Hi].
  destruct (nth_error ps (which s)) as [[| |]|]; try exact Hi.
  rewrite nth_error_update_nth_other; [exact Hi|].
  intros E. apply Hnot. left. exact E.
Qed.

Lemma Promise_all_fulfilled_inv ps i :
  Promise_all ps = Fulfilled -> nth_error ps i <> Some Pending.
Proof.
  unfold Promise_all. destruct (existsb _ ps); [discriminate|].
  destruct (forallb _ ps) eqn:E; [|discriminate].
  intros _ Hi. rewrite forallb_forall in E.
  specialize (E Pending (nth_error_In _ _ Hi)). discriminate.
Qed.

(** X17: the promise [prefetch] returns is fulfilled exactly when every
    request of the batch has settled, by a success or by a failure; while
    one is outstanding it is pending. An empty batch is fulfilled at
    once. *)
Theorem prefetch_fulfils_when_all_settled urls sched h :
  eval (prefetch urls sched) h = Fulfilled <->
  (forall i, (i < List.length (Arr.slice0 urls (maxPrefetch (this h))))%nat ->
             In i (map which sched)).
Proof.
  rewrite prefetch_eval. cbv zeta.
  set (toFetch := Arr.slice0 urls (maxPrefetch (this h))).
  set (h1 := exec (forEach (fun c => fetch (url c)) toFetch) h).
  split.
  - intros Hall i Hi.
    destruct (in_dec Nat.eq_dec i (map which sched)) as [Hin|Hnot]; [exact Hin|].
    exfalso. apply (Promise_all_fulfilled_inv _ i Hall).
    apply settle_pending; [|exact Hnot].
    now apply nth_error_repeat.
  - intros Hall. apply Promise_all_fulfilled. intros i Hi.
    rewrite settle_length, repeat_length in Hi.
    apply settle_fulfils; auto.
    + apply repeat_length.
    + apply repeat_Pending_no_rejected.
Qed.

(** ** What [optimize] fetches *)

Lemma slice0_incl {A} (l : list A) e x : In x (Arr.slice0 l e) -> In x l.
Proof.
  unfold Arr.slice0. intros H.
  rewrite <- (firstn_skipn (Z.to_nat
    match ToIntegerOrInfinity e with
    | Int r => if r <? 0 then Z.max (Z.of_nat (List.length l) + r) 0
               else Z.min r (Z.of_nat (List.length l))
    | PosInf => Z.of_nat (List.length l)
    | NegInf => 0
    end) l).
  apply in_or_app. now left.
Qed.

Lemma predictNext_in h p :
  In p (eval predictNext h) ->
  exists c nextMap n,
    currentState (this h) = Some c /\
    JSMap.get (transitions (this h)) c = Some nextMap /\
    In (state p, n) nextMap.
Proof.
  rewrite predictNext_cases.
  destruct (currentState (this h)) as [c|]; [|intros []].
  destruct (truthy_state (Some c)); [|intros []].
  destruct (JSMap.get (transitions (this h)) c) as [nextMap|] eqn:E; [|intros []].
  intros Hin. apply (Permutation_in _ (sort_Permutation probability _)) in Hin.
  apply in_map_iff in Hin as ([d n] & <- & Hin).
  exists c, nextMap, n. split; [reflexivity|]. split; [exact E|exact Hin].
Qed.

Lemma scoreResources_in h predictions c :
  In c (eval (scoreResources predictions) h) ->
  In (url c) (JSMap.keys (resources (this h))) /\
  exists p, In p predictions /\ includes (url c) (state p) = true.
Proof.
  rewrite scoreResources_eval. intros Hin.
  apply (Permutation_in _ (sort_Permutation score _)) in Hin.
  apply in_flat_map in Hin as (p & Hp & Hin).
  apply in_flat_map in Hin as ([u r] & Hur & Hin).
  destruct (includes u (state p)) eqn:E; [|destruct Hin].
  destruct Hin as [<-|[]]. cbn [url]. split.
  - unfold JSMap.keys. apply in_map_iff. now exists (u, r).
  - now exists p.
Qed.

(** X18: [optimize] only ever requests registered URLs that contain, as
    a substring, a destination recorded for the current state; what it
    requests is appended to the requests made before. *)
Theorem optimize_fetches_registered_matches sched h :
  exists batch,
    fetched (host (exec (optimize sched) h)) = fetched (host h) ++ batch /\
    Forall (fun u =>
              In u (JSMap.keys (resources (this h))) /\
              exists c nextMap d n,
                currentState (this h) = Some c /\
                JSMap.get (transitions (this h)) c = Some nextMap /\
                In (d, n) nextMap /\
                substring_of d u)
           batch.
Proof.
  unfold exec.
  destruct (optimize_cases sched h) as [[_ E]|[[_ [_ E]]|[_ [_ E]]]]; rewrite E.
  - exists []. split; [now rewrite app_nil_r|constructor].
  - exists []. split; [now rewrite app_nil_r|constructor].
  - set (scored := eval (scoreResources (eval predictNext h)) h).
    exists (map url (Arr.slice0 scored (maxPrefetch (this h)))).
    split; [apply (prefetch_frame scored sched h)|].
    apply Forall_forall. intros u Hu.
    apply in_map_iff in Hu as (c & <- & Hc). apply slice0_incl in Hc.
    apply scoreResources_in in Hc as (Hkey & p & Hp & Hinc).
    split; [exact Hkey|].
    apply predictNext_in in Hp as (cur & nextMap & n & Hcur & Hget & Hin).
    exists cur, nextMap, (state p), n. repeat split; auto.
    now apply includes_spec.
Qed.

Lemma optimize_not_rejected sched h : eval (optimize sched) h <> Rejected.
Proof.
  change (eval (optimize sched) h) with (fst (optimize sched h)).
  destruct (optimize_cases sched h) as [[_ E]|[[_ [_ E]]|[_ [_ E]]]]; rewrite E;
    try discriminate.
  change (fst (prefetch (eval (scoreResources (eval predictNext h)) h) sched h))
    with (eval (prefetch (eval (scoreResources (eval predictNext h)) h) sched) h).
  rewrite prefetch_eval. cbv zeta.
  apply Promise_all_not_rejected, settle_no_rejected, repeat_Pending_no_rejected.
Qed.

Lemma optimize_costs sched h u :
  option_map (fun r => (size r, latency r))
             (JSMap.get (resources (this (exec (optimize sched) h))) u) =
  option_map (fun r => (size r, latency r)) (JSMap.get (resources (this h)) u).
Proof.
  unfold exec.
  destruct (optimize_cases sched h) as [[_ E]|[[_ [_ E]]|[_ [_ E]]]]; rewrite E;
    try reflexivity.
  apply prefetch_costs.
Qed.

(** X19: [optimize] never changes what the instance has learned or was
    told: the table, the current state, the options, the registered URLs
    with their sizes and latencies are as before, whatever the network
    reports; and the promise it returns is never rejected. *)
Theorem optimize_keeps_the_model sched h :
  let h' := exec (optimize sched) h in
  (transitions (this h') = transitions (this h) /\
   currentState (this h') = currentState (this h) /\
   maxPrefetch (this h') = maxPrefetch (this h) /\
   decayRate (this h') = decayRate (this h) /\
   JSMap.keys (resources (this h')) = JSMap.keys (resources (this h)) /\
   (forall u,
      option_map (fun r => (size r, latency r)) (JSMap.get (resources (this h')) u) =
      option_map (fun r => (size r, latency r)) (JSMap.get (resources (this h)) u))) /\
  (eval (optimize sched) h = Fulfilled \/ eval (optimize sched) h = Pending).
Proof.
  intros h'. subst h'.
  pose proof (optimize_frame sched h) as H. cbv zeta in H.
  destruct H as (H1 & H2 & H3 & H4 & H5).
  split.
  - repeat (split; [assumption|]). intros u. apply optimize_costs.
  - pose proof (optimize_not_rejected sched h) as Hn.
    destruct (eval (optimize sched) h); auto. contradiction.
Qed.

(** ** Scores of resources without a cost *)

Lemma location_of_zero n : new_location n 0 = loc_Exact.
Proof. unfold new_location. destruct (Z.even n); reflexivity. Qed.

(** Division by 1 is exact. *)
Lemma SFdiv_one x :
  valid_binary x = true -> SFdiv prec emax x (Prim2SF 1) = x.
Proof.
  intros V. change (Prim2SF 1) with (S754_finite false 4503599627370496 (-52)).
  destruct x as [s|s| |s m e]; cbn [SFdiv];
    try reflexivity; try (now rewrite xorb_false_r).
  rewrite xorb_false_r.
  pose proof V as V'. simpl in V'. unfold bounded, canonical_mantissa in V'.
  apply andb_prop in V' as [Hcan _]. apply Z.eqb_eq in Hcan.
  rewrite fexp64_eq in Hcan.
  apply valid_finite in V. destruct V as (He & Hd & Hn).
  unfold SFdiv_core_binary.
  change (Zdigits2 (Zpos m)) with (Zpos (digits2_pos m)).
  change (Zdigits2 4503599627370496) with 53.
  rewrite fexp64_eq.
  destruct (Z.eq_dec e (-1074)) as [->|Hne].
  - (* the least exponent *)
    replace (Z.min (Z.max (Zpos (digits2_pos m) + -1074 - (53 + -52) - 53) (-1074))
                   (-1074 - -52)) with (-1074) by lia.
    change (-1074 - -52 - -1074) with 52.
    rewrite Z.shiftl_mul_pow2 by lia.
    change (2 ^ 52) with 4503599627370496.
    rewrite (Z.mul_comm (Zpos m)), (div_eucl_multiple (Zpos m) 4503599627370496) by lia.
    rewrite location_of_zero.
    pose proof (binary_round_aux_exact s m (-1074) 0) as H.
    rewrite Z.pow_0_r, Z.mul_1_r, Z.add_0_r in H. apply H; try lia.
    change (Zdigits2 (Zpos m)) with (Zpos (digits2_pos m)). rewrite fexp64_eq. lia.
  - replace (Z.min (Z.max (Zpos (digits2_pos m) + e - (53 + -52) - 53) (-1074))
                   (e - -52)) with (e - 1) by lia.
    replace (e - -52 - (e - 1)) with 53 by lia.
    rewrite Z.shiftl_mul_pow2 by lia.
    replace (Zpos m * 2 ^ 53) with (4503599627370496 * (Zpos m * 2 ^ 1))
      by (change (2 ^ 53) with (4503599627370496 * 2 ^ 1); ring).
    rewrite (div_eucl_multiple (Zpos m * 2 ^ 1) 4503599627370496) by lia.
    rewrite location_of_zero.
    pose proof (binary_round_aux_exact s m (e - 1) 1) as H.
    replace (e - 1 + 1) with e in H by lia. apply H; try lia.
    rewrite Zdigits2_mul_pow2 by lia.
    change (Zdigits2 (Zpos m)) with (Zpos (digits2_pos m)). rewrite fexp64_eq. lia.
Qed.

Lemma div_one x : (x / 1)%float = x.
Proof.
  apply Prim2SF_inj. rewrite div_spec. apply SFdiv_one, Prim2SF_valid.
Qed.

(** X20: for a matching resource whose size times latency is 0 (or
    NaN) the divisor is the floor 1 and the division changes nothing:
    the score [scoreResources] returns is exactly probability times
    decay. *)
Theorem scoreResources_without_cost h predictions :
  Forall (fun c =>
    exists p r,
      In p predictions /\ In (url c, r) (resources (this h)) /\
      includes (url c) (state p) = true /\
      (truthy (size r * latency r)%float = false ->
       score c =
       (probability p *
        Math_exp (host h)
          (- decayRate (this h) * ((clock (host h) - lastUsed r) / 1000)))%float))
    (eval (scoreResources predictions) h).
Proof.
  rewrite scoreResources_eval.
  eapply Permutation_Forall; [symmetry; apply (sort_Permutation score)|].
  apply Forall_forall. intros c Hc.
  apply in_flat_map in Hc as (p & Hp & Hc).
  apply in_flat_map in Hc as ([u r] & Hur & Hc).
  destruct (includes u (state p)) eqn:Hinc; [|destruct Hc].
  destruct Hc as [<-|[]]. cbn [url score].
  exists p, r. repeat split; auto.
  intros H. unfold score_of, or_else. rewrite H. apply div_one.
Qed.

(** ** Probabilities lie in the unit interval *)

(** Between 1 and the next number, 1 + 2^-52, there is no number. *)
Lemma no_number_just_above_one s m e :
  valid_binary (S754_finite s m e) = true ->
  key (S754_finite s m e) < 2 ^ 1074 + 2 ^ 1022 ->
  key (S754_finite s m e) <= 2 ^ 1074.
Proof.
  intros V H. apply valid_finite in V. destruct V as (He & Hd & _).
  cbn [key] in *.
  assert (HA : 0 < 2 ^ 1022) by (apply Z.pow_pos_nonneg; lia).
  destruct (Z_le_gt_dec (-52) e) as [Hge|Hlt].
  - replace (e + 1074) with (e + 52 + 1022) in * by lia.
    rewrite Z.pow_add_r in * by lia.
    change (2 ^ 1074) with (4503599627370496 * 2 ^ 1022) in *.
    assert (HM : 0 < Zpos m * 2 ^ (e + 52))
      by (apply Z.mul_pos_pos; [lia|apply Z.pow_pos_nonneg; lia]).
    set (M := Zpos m * 2 ^ (e + 52)) in *. set (A := 2 ^ 1022) in *.
    rewrite Z.mul_assoc in *. fold M in H |- *.
    assert (M < 4503599627370496 + 1) by nia. nia.
  - assert (Hm : Zpos m < 2 ^ 53).
    { destruct (Zdigits2_bounds (Zpos m) ltac:(lia)) as [_ Hhi].
      change (Zdigits2 (Zpos m)) with (Zpos (digits2_pos m)) in Hhi.
      eapply Z.lt_le_trans; [exact Hhi|]. apply Z.pow_le_mono_r; lia. }
    assert (Hp : 2 ^ (e + 1074) <= 2 ^ 1021) by (apply Z.pow_le_mono_r; lia).
    assert (Hp0 : 0 < 2 ^ (e + 1074)) by (apply Z.pow_pos_nonneg; lia).
    change (2 ^ 1074) with (2 ^ 53 * 2 ^ 1021).
    assert (H21 : 0 < 2 ^ 1021) by (apply Z.pow_pos_nonneg; lia).
    set (B := 2 ^ 1021) in *. set (C := 2 ^ (e + 1074)) in *.
    change (2 ^ 53) with 9007199254740992 in *. nia.
Qed.

Lemma alone_or_below_total (nextMap : JSMap.t Z) d n :
  Forall (fun kc => 1 <= snd kc) nextMap -> In (d, n) nextMap ->
  nextMap = [(d, n)] \/ n < row_total nextMap.
Proof.
  intros Hc Hin. apply in_split in Hin as (l1 & l2 & ->).
  unfold row_total, JSMap.values. rewrite map_app, Zsum_app. cbn [map snd].
  change (Zsum (n :: map snd l2)) with (n + Zsum (map snd l2)).
  apply Forall_app in Hc as [H1 H2]. inversion H2 as [|? ? _ H3]; subst.
  destruct l1 as [|[d1 n1] l1].
  - destruct l2 as [|[d2 n2] l2]; [now left|right].
    inversion H3 as [|? ? Hn2 H4]; subst. cbn [snd] in Hn2. cbn [map snd].
    change (Zsum (n2 :: map snd l2)) with (n2 + Zsum (map snd l2)).
    pose proof (Zsum_ge (map snd l2) ltac:(apply Forall_map; exact H4)).
    simpl. lia.
  - right. inversion H1 as [|? ? Hn1 H4]; subst. cbn [snd] in Hn1. cbn [map snd].
    change (Zsum (n1 :: map snd l1)) with (n1 + Zsum (map snd l1)).
    pose proof (Zsum_ge (map snd l1) ltac:(apply Forall_map; exact H4)).
    pose proof (Zsum_ge (map snd l2) ltac:(apply Forall_map; exact H3)).
    lia.
Qed.

Lemma quotient_in_unit_interval (nextMap : JSMap.t Z) d n :
  Forall (fun kc => 1 <= snd kc <= two53) nextMap -> nextMap <> [] ->
  row_total nextMap < 2 ^ 53 -> In (d, n) nextMap ->
  unit_interval (num n / totalTransitions nextMap)%float.
Proof.
  intros Hcounts Hnil Hlt Hin.
  assert (Hge : Forall (fun kc => 1 <= snd kc) nextMap)
    by (eapply Forall_impl; [|exact Hcounts]; simpl; intros; lia).
  pose proof (totalTransitions_signed nextMap Hcounts) as Hsig.
  rewrite Forall_forall in Hcounts. pose proof (Hcounts _ Hin) as Hn. cbn [snd] in Hn.
  assert (Hnn : fnonneg (num n / totalTransitions nextMap)%float)
    by (apply probability_nonneg; assumption).
  split; [now apply zero_leb|].
  destruct (alone_or_below_total nextMap d n Hge Hin) as [->|Hbelow].
  - pose proof (num_finite n Hn) as Hfin.
    unfold totalTransitions. cbn [JSMap.values map snd fold_left].
    now rewrite (zero_add _ Hfin), (div_self _ Hfin).
  - destruct (totalTransitions_integer nextMap Hge Hnil Hlt) as [HT Htot].
    destruct (SFdiv_integers (Prim2SF (num n)) (Prim2SF (totalTransitions nextMap))
                n (row_total nextMap))
      as [(m & e & Hfin) Herr]; auto using Prim2SF_valid; try lia.
    { apply num_integer. lia. }
    rewrite <- div_spec in Hfin, Herr.
    rewrite leb_key by (assumption || (apply zero_leb; reflexivity)).
    apply Z.leb_le. change (fkey 1) with (2 ^ 1074). unfold fkey.
    pose proof (Prim2SF_valid (num n / totalTransitions nextMap)%float) as V.
    rewrite Hfin in *. apply no_number_just_above_one; [exact V|].
    set (K := key (S754_finite false m e)) in *.
    set (T := row_total nextMap) in *.
    assert (HA : 0 < 2 ^ 1022) by (apply Z.pow_pos_nonneg; lia).
    assert (HB : 0 < 2 ^ 1074) by (apply Z.pow_pos_nonneg; lia).
    set (A := 2 ^ 1022) in *. set (B := 2 ^ 1074) in *.
    apply Z.mul_lt_mono_pos_r with (p := T); [lia|]. nia.
Qed.

(** X21: what [predictNext] returns is what [scoreResources] expects.
    In a reachable state whose current row holds fewer than 2^53
    transitions, every probability [predictNext] returns lies in
    [0, 1]. *)
Theorem predictNext_probabilities_in_unit_interval h :
  reachable h ->
  (forall c nextMap,
     currentState (this h) = Some c ->
     JSMap.get (transitions (this h)) c = Some nextMap ->
     row_total nextMap < 2 ^ 53) ->
  Forall (fun p => unit_interval (probability p)) (eval predictNext h).
Proof.
  intros Hr Hrow. rewrite predictNext_cases.
  destruct (currentState (this h)) as [c|] eqn:Hc; [|constructor].
  destruct (truthy_state (Some c)); [|constructor].
  destruct (JSMap.get (transitions (this h)) c) as [nextMap|] eqn:Hget; [|constructor].
  destruct (table_ok_row _ _ _ (reachable_table_ok h Hr) Hget) as (_ & Hnil & Hcounts).
  eapply Permutation_Forall; [symmetry; apply (sort_Permutation probability)|].
  apply Forall_forall. intros p Hp.
  apply in_map_iff in Hp as ([d n] & <- & Hin). cbn [probability].
  apply (quotient_in_unit_interval nextMap d n); eauto.
Qed.

Lemma readme_row_is_small c nextMap :
  currentState (this Reference.readme_session) = Some c ->
  JSMap.get (transitions (this Reference.readme_session)) c = Some nextMap ->
  row_total nextMap < 2 ^ 53.
Proof.
  intros Hc Hget. vm_compute in Hc. injection Hc as <-.
  vm_compute in Hget. injection Hget as <-. reflexivity.
Qed.

Lemma predictNext_probabilities_in_unit_interval_witness :
  Forall (fun p => unit_interval (probability p))
         (eval predictNext Reference.readme_session).
Proof.
  apply (predictNext_probabilities_in_unit_interval Reference.readme_session).
  - exact readme_session_reachable.
  - exact readme_row_is_small.
Defined.

(** ** The whole pipeline *)

Lemma sorted_app_order {A} (R : A -> A -> Prop) l1 l2 a b :
  StronglySorted R (l1 ++ l2) -> In a l1 -> In b l2 -> R a b.
Proof.
  induction l1 as [|x l1 IH]; intros Hs Ha Hb; [destruct Ha|].
  simpl in Hs. inversion Hs as [|? ? Hs' Hx]; subst.
  destruct Ha as [->|Ha]; [|auto].
  rewrite Forall_forall in Hx. apply Hx. apply in_or_app. now right.
Qed.

Lemma slice0_prefix {A} (l : list A) e : exists rest, l = Arr.slice0 l e ++ rest.
Proof.
  unfold Arr.slice0. eexists. symmetry. apply firstn_skipn.
Qed.

Lemma optimize_fetched sched h :
  fetched (host (exec (optimize sched) h)) =
  fetched (host h) ++
  map url (Arr.slice0 (eval (scoreResources (eval predictNext h)) h)
                      (maxPrefetch (this h))).
Proof.
  unfold exec.
  assert (Hnil : forall e, map url (Arr.slice0 (@nil Scored) e) = []).
  { intros e. unfold Arr.slice0. now rewrite firstn_nil. }
  destruct (optimize_cases sched h) as [[E0 E]|[[_ [E0 E]]|[_ [_ E]]]]; rewrite E.
  - rewrite E0. change (eval (scoreResources []) h) with (@nil Scored).
    rewrite Hnil, app_nil_r. reflexivity.
  - rewrite E0, Hnil, app_nil_r. reflexivity.
  - apply (prefetch_frame _ sched h).
Qed.

(** X22: [optimize] requests the best candidates. In a reachable state
    whose current row holds fewer than 2^53 transitions, with sizes and
    latencies [>= 0], a finite [decayRate >= 0], a clock not behind any
    [lastUsed >= 0] and a [Math.exp] that maps non-positive arguments into
    [0, 1]: the URLs [optimize] requests are, in order, a prefix of the
    scored candidates of the predictions, and no candidate left out has
    a larger score than one that is requested. *)
Theorem optimize_requests_the_best sched h :
  reachable h ->
  (forall c nextMap,
     currentState (this h) = Some c ->
     JSMap.get (transitions (this h)) c = Some nextMap ->
     row_total nextMap < 2 ^ 53) ->
  exp_decays (Math_exp (host h)) ->
  (0 <=? decayRate (this h))%float = true ->
  (decayRate (this h) <? infinity)%float = true ->
  (clock (host h) <=? max_time)%float = true ->
  Forall (fun ur => resource_ok (clock (host h)) (snd ur)) (resources (this h)) ->
  exists batch rest,
    eval (scoreResources (eval predictNext h)) h = batch ++ rest /\
    fetched (host (exec (optimize sched) h)) = fetched (host h) ++ map url batch /\
    (forall a b, In a batch -> In b rest -> (score b <=? score a)%float = true).
Proof.
  intros Hr Hrow Hexp Hr0 Hrfin Hnow Hrs.
  set (scored := eval (scoreResources (eval predictNext h)) h).
  destruct (slice0_prefix scored (maxPrefetch (this h))) as [rest Hrest].
  exists (Arr.slice0 scored (maxPrefetch (this h))), rest.
  split; [exact Hrest|]. split; [apply optimize_fetched|].
  assert (Hs : StronglySorted (fun a b => fkey (score b) <= fkey (score a)) scored /\
               Forall (fun c => fnonneg (score c)) scored).
  { subst scored. rewrite scoreResources_eval.
    assert (Hnn : Forall (fun c => fnonneg (score c))
              (flat_map (fun p =>
                 flat_map (fun '(u, r) =>
                   if includes u (state p)
                   then [ {| url := u;
                             score := score_of (Math_exp (host h)) (decayRate (this h))
                                               (clock (host h)) (probability p) r |} ]
                   else [])
                   (resources (this h)))
                 (eval predictNext h))).
    { pose proof (predictNext_cases h) as Hcases.
      assert (Hps : Forall (fun p => unit_interval (probability p)) (eval predictNext h)).
      { rewrite Hcases.
        destruct (currentState (this h)) as [c|] eqn:Hc; [|constructor].
        destruct (truthy_state (Some c)); [|constructor].
        destruct (JSMap.get (transitions (this h)) c) as [nextMap|] eqn:Hget;
          [|constructor].
        destruct (table_ok_row _ _ _ (reachable_table_ok h Hr) Hget)
          as (_ & Hnil & Hcounts).
        eapply Permutation_Forall; [symmetry; apply (sort_Permutation probability)|].
        apply Forall_forall. intros p Hp.
        apply in_map_iff in Hp as ([d n] & <- & Hin). cbn [probability].
        apply (quotient_in_unit_interval nextMap d n); eauto. }
      apply Forall_forall. intros c Hc.
      apply in_flat_map in Hc as (p & Hp & Hc).
      apply in_flat_map in Hc as ([u r] & Hur & Hc).
      destruct (includes u (state p)); [|destruct Hc].
      destruct Hc as [<-|[]]. cbn [score].
      rewrite Forall_forall in Hps, Hrs. apply zero_leb.
      apply (score_of_range (Math_exp (host h)) (decayRate (this h)) (clock (host h))
               (probability p) r Hexp Hr0 Hrfin Hnow (Hps _ Hp) (Hrs _ Hur)). }
    split; [apply (sort_sorted score _ Hnn)|].
    eapply Permutation_Forall; [symmetry; apply (sort_Permutation score)|exact Hnn]. }
  destruct Hs as [Hs Hnn]. rewrite Hrest in Hs.
  intros a b Ha Hb.
  pose proof (sorted_app_order _ _ _ a b Hs Ha Hb) as Hle. cbv beta in Hle.
  rewrite Forall_forall in Hnn.
  rewrite leb_key.
  - now apply Z.leb_le.
  - apply Hnn. rewrite Hrest. apply in_or_app. now right.
  - apply Hnn. rewrite Hrest. apply in_or_app. now left.
Qed.

Lemma two_resources_reachable : reachable Scenario.two_resources.
Proof.
  unfold Scenario.two_resources. rewrite !exec_bind.
  eapply reachable_step; [|apply step_clock].
  eapply reachable_step; [|apply step_addResource].
  eapply reachable_step; [|apply step_clock].
  exact readme_session_reachable.
Qed.

Lemma two_resources_row_is_small c nextMap :
  currentState (this Scenario.two_resources) = Some c ->
  JSMap.get (transitions (this Scenario.two_resources)) c = Some nextMap ->
  row_total nextMap < 2 ^ 53.
Proof.
  intros Hc Hget. vm_compute in Hc. injection Hc as <-.
  vm_compute in Hget. injection Hget as <-. reflexivity.
Qed.

Lemma optimize_requests_the_best_witness :
  exists batch rest,
    eval (scoreResources (eval predictNext Scenario.two_resources))
         Scenario.two_resources = batch ++ rest /\
    fetched (host (exec (optimize []) Scenario.two_resources)) =
      fetched (host Scenario.two_resources) ++ map url batch /\
    (forall a b, In a batch -> In b rest -> (score b <=? score a)%float = true).
Proof.
  apply (optimize_requests_the_best [] Scenario.two_resources).
  - exact two_resources_reachable.
  - exact two_resources_row_is_small.
  - exact Reference_exp_decays.
  - reflexivity.
  - reflexivity.
  - reflexivity.
  - vm_compute. repeat constructor.
Defined.
